(** * copycat: the search-and-store pipeline of [store.go]

    The three functions of [store.go] ([SearchAndStore],
    [checkAndStoreMessages], [fetchEmails]) are embedded as terms of a small
    process language: every call that leaves the goroutine (IMAP, memcache,
    log, channel, wait group) is an event whose answer is chosen by the
    environment, [for ... range ch] is a loop node, [go f(...)] a spawn node.
    Two semantics are given to these terms: a functional one ([exec], the run
    of a single goroutine against an environment) and a relational one
    ([gstep], the interleaving of all goroutines of one [SearchAndStore]
    call, with unbuffered channels and wait-group counters). *)

From stdpp Require Import gmap strings list fin_maps.
From Stdlib Require Import NArith.

Set Implicit Arguments.
Set Default Proof Using "Type".

(** ** Data model *)

(** Go's [[]byte]. *)
Definition bytes : Type := list Byte.byte.

(** Go's [error]: identified with its [Error()] text. *)
Definition error : Type := string.

(** Go's [(value, err)] pair for calls that the source only reads after
    checking [err != nil]: exactly one of the two is meaningful. *)
Inductive result (A : Type) : Type :=
| Ok (a : A)
| Err (e : error).
Arguments Ok {A} a.
Arguments Err {A} e.

(** Modelled from the spec: [InboxInfo] is declared in another file of the
    package; the spec calls it MailboxEndpoint, "connection parameters
    (host, credentials, mailbox name)". [store.go] only passes it on. *)
Record InboxInfo : Type := { Host : string; User : string; Pw : string }.

(** [*imap.Client], a connection handle. *)
Record Client : Type := { client_id : nat }.

(** [WorkRequest] is declared in another file of the package; [store.go]
    builds it with exactly these three fields (line 55). *)
Record WorkRequest : Type := { Value : string; Header : string; UID : N }.

(** [fetchRequest] (lines 127-131). [Response] is the identifier of a
    [chan imap.FieldMap]. *)
Record fetchRequest : Type :=
  { MessageId : string; fr_UID : N; Response : nat }.

(** [memcache.Item] and the client returned by [memcache.New]. *)
Record Item : Type := { Key : string; ItemValue : bytes }.
Record memcache_Client : Type := { servers : string }.
Definition memcache_New (server : string) : memcache_Client :=
  {| servers := server |}.

(** [mail.Message]: only the header is read. [mail.Header] is a
    [map[string][]string]; [Get] returns the first value stored under the
    key, or the empty string. *)
Record Message : Type := { msg_Header : gmap string (list string) }.
Definition Header_Get (h : gmap string (list string)) (key : string) : string :=
  match h !! key with
  | Some (v :: _) => v
  | _ => ""
  end.

(** The two wait groups of [SearchAndStore] and the goroutines it starts. *)
Inductive WaitGroup : Type := fetchers | storers.
Inductive goroutine : Type :=
| go_fetchEmails
| go_checkAndStoreMessages (dst : InboxInfo).

Global Instance WaitGroup_eq_dec : EqDecision WaitGroup.
Proof. solve_decision. Defined.

(** How the run of a goroutine ends: it returns, it panics, or it waits
    for ever on a call that does not return. *)
Inductive outcome (R : Type) : Type :=
| Returned (r : R)
| Panicked (msg : string)
| Blocked.
Arguments Returned {R} r.
Arguments Panicked {R} msg.
Arguments Blocked {R}.

(** ** What the source takes from outside [store.go] *)

(** [imap.Field] is [interface{}]: what a field holds is the IMAP library's
    business, and so are the two decoders the source applies to it (on a
    missing map entry they receive nil, here [None]). [encoding/gob]:
    [Encode] yields bytes or an error, [Decode] leaves something in the
    destination and may report an error. [mail.ReadMessage]: the source
    ignores the error and tests the message against nil. [MaxImapConns] and
    [MemcacheServer] are package-level constants declared in another file. *)
Class Externals : Type :=
  { Field : Type;
    Time : Type;
    AsBytes : option Field -> bytes;
    AsDateTime : option Field -> Time;
    gob_Encode : gmap string Field -> result bytes;
    gob_Decode : bytes -> gmap string Field -> gmap string Field * option error;
    mail_ReadMessage : bytes -> option Message;
    MaxImapConns : nat;
    MemcacheServer : string }.

Section Copycat.

Context `{Ext : Externals}.

(** [imap.FieldMap] is [map[string]Field]. *)
Abbreviation FieldMap := (gmap string Field).

(** [imap.MessageInfo] and [imap.Response] (here [imap_Response]: the
    name [Response] is the field of [fetchRequest]), reduced to what the
    source reads. *)
Record MessageInfo : Type := { Attrs : FieldMap; mi_UID : N }.
Record imap_Response : Type :=
  { rsp_MessageInfo : MessageInfo; SearchResults : list N }.

(** ** Events: the calls a goroutine makes to the outside *)

Inductive event : Type -> Type :=
(* functions of the package defined in other files *)
| GetAllMessages (src : InboxInfo) : event (result (list imap_Response))
| GetConnection (info : InboxInfo) (readOnly : bool) : event (result Client)
(* imap.Client, each call already passed through imap.Wait *)
| UIDSearch (c : Client) (spec : list string) : event (result (list imap_Response))
| UIDFetch (c : Client) (seq : list N) (items : list string)
    : event (result (list imap_Response))
| Append (c : Client) (mbox : string) (flags : list string) (date : Time)
    (body : bytes) : event (option error)
| Close (c : Client) (expunge : bool) : event unit
(* memcache.Client *)
| cache_Get (cache : memcache_Client) (key : string)
    : event (option Item * option error)
| cache_Add (cache : memcache_Client) (item : Item) : event (option error)
(* log *)
| log_Printf (msg : string) : event unit
(* channels: make, send, receive, close *)
| make_chan_WorkRequest : event nat
| make_chan_fetchRequest : event nat
| make_chan_FieldMap : event nat
| send_WorkRequest (ch : nat) (w : WorkRequest) : event unit
| send_fetchRequest (ch : nat) (r : fetchRequest) : event unit
| send_FieldMap (ch : nat) (m : FieldMap) : event unit
| recv_FieldMap (ch : nat) : event FieldMap
| close_WorkRequest (ch : nat) : event unit
| close_fetchRequest (ch : nat) : event unit
(* sync.WaitGroup *)
| wg_Add (wg : WaitGroup) (n : nat) : event unit
| wg_Done (wg : WaitGroup) : event unit
| wg_Wait (wg : WaitGroup) : event unit.

(** ** Processes *)

Inductive proc (R : Type) : Type :=
| Ret (r : R)
| Panic (msg : string)
| Vis (X : Type) (e : event X) (k : X -> proc R)
| RangeWork (ch : nat) (body : WorkRequest -> proc unit) (k : proc R)
| RangeFetch (ch : nat) (body : fetchRequest -> proc unit) (k : proc R)
| Go (name : goroutine) (child : proc unit) (k : proc R).
Arguments Ret {R} r.
Arguments Panic {R} msg.
Arguments Vis {R X} e k.
Arguments RangeWork {R} ch body k.
Arguments RangeFetch {R} ch body k.
Arguments Go {R} name child k.

Fixpoint bind {R T : Type} (p : proc R) (f : R -> proc T) : proc T :=
  match p with
  | Ret r => f r
  | Panic m => Panic m
  | Vis e k => Vis e (fun x => bind (k x) f)
  | RangeWork ch body k => RangeWork ch body (bind k f)
  | RangeFetch ch body k => RangeFetch ch body (bind k f)
  | Go name child k => Go name child (bind k f)
  end.

Definition call {X : Type} (e : event X) : proc X := Vis e Ret.

(** [proc] is a monad; the source is written with stdpp's notation
    [x ← p; q] and [p;; q]. *)
#[local] Instance proc_ret : MRet proc := @Ret.
#[local] Instance proc_bind : MBind proc := fun _ _ f p => bind p f.

(** [defer d] in front of [p]: [d] runs when the function returns and also
    when it panics (Go runs the deferred calls of a panicking goroutine
    before the program dies). Inside a [range] loop a panic of the body
    leaves the function, a return of the body does not. *)
Fixpoint on_panic {R : Type} (d : proc unit) (p : proc R) : proc R :=
  match p with
  | Ret r => Ret r
  | Panic m => d;; Panic m
  | Vis e k => Vis e (fun x => on_panic d (k x))
  | RangeWork ch body k =>
      RangeWork ch (fun w => on_panic d (body w)) (on_panic d k)
  | RangeFetch ch body k =>
      RangeFetch ch (fun r => on_panic d (body r)) (on_panic d k)
  | Go name child k => Go name child (on_panic d k)
  end.

Definition defer {R : Type} (d : proc unit) (p : proc R) : proc R :=
  r ← on_panic d p; d;; Ret r.

(** [for i := 0; i < n; i++ { body }] with a body that does not read [i],
    and [for _, x := range l { body }]. *)
Fixpoint for_n (n : nat) (body : proc unit) : proc unit :=
  match n with
  | O => Ret tt
  | S n' => body;; for_n n' body
  end.

Fixpoint for_range {A : Type} (l : list A) (body : A -> proc unit) : proc unit :=
  match l with
  | [] => Ret tt
  | x :: l' => body x;; for_range l' body
  end.

(** ** The source, function by function *)

(** [serialize] (lines 199-207) and [deserialize] (lines 210-218). *)
Definition serialize (src : FieldMap) : result bytes := gob_Encode src.

Definition deserialize (src : bytes) (dst : FieldMap) : FieldMap * option error :=
  gob_Decode src dst.

(** Body of the loop of [fetchEmails] (lines 148-194). The first block
    yields [true] when it ran [continue]. *)
Definition fetchEmails_body (conn : Client) (cache : memcache_Client)
    (request : fetchRequest) : proc unit :=
  got ← call (cache_Get cache (MessageId request));
  let msgBytes := got.1 in
  responded ←
    match got.2 with
    | Some _ =>
        match msgBytes with
        | None => Panic "invalid memory address or nil pointer dereference"
        | Some item =>
            let dec := deserialize (ItemValue item) ∅ in
            msgFields ←
              match dec.2 with
              | Some err =>
                  call (log_Printf ("Problems deserializing memcache value: "
                          +:+ err +:+ ". Pulling message from src"));;
                  Ret (∅ : FieldMap)
              | None => Ret dec.1
              end;
            if decide (0 < size msgFields)
            then call (send_FieldMap (Response request) msgFields);; Ret true
            else Ret false
        end
    | None => Ret false
    end;
  if (responded : bool) then Ret tt else
  let srcSeq := [fr_UID request] in
  cmd ← call (UIDFetch conn srcSeq ["INTERNALDATE"; "BODY[]"]);
  match cmd with
  | Err err =>
      call (log_Printf ("Unable to fetch message (" +:+ MessageId request
              +:+ ") from src: " +:+ err))
  | Ok Data =>
      match Data with
      | [] =>
          call (log_Printf ("Unable to fetch message (" +:+ MessageId request
                  +:+ ") from src: NO DATA"))
      | rsp :: _ =>
          let msgFields := Attrs (rsp_MessageInfo rsp) in
          call (send_FieldMap (Response request) msgFields);;
          match serialize msgFields with
          | Err err =>
              call (log_Printf ("Unable to serialize message ("
                      +:+ MessageId request +:+ "): " +:+ err))
          | Ok msgGob =>
              let cacheItem := {| Key := MessageId request; ItemValue := msgGob |} in
              err ← call (cache_Add cache cacheItem);
              match err with
              | Some err =>
                  call (log_Printf ("Unable to add message ("
                          +:+ MessageId request +:+ ") to cache: " +:+ err))
              | None => Ret tt
              end
          end
      end
  end.

(** [fetchEmails] (lines 135-196). *)
Definition fetchEmails (src : InboxInfo) (requests : nat) (wg : WaitGroup)
    : proc unit :=
  defer (call (wg_Done wg))
    (conn ← call (GetConnection src true);
     match conn with
     | Err err =>
         call (log_Printf ("Unable to connect to source inbox: " +:+ err))
     | Ok conn =>
         let cache := memcache_New MemcacheServer in
         RangeFetch requests (fetchEmails_body conn cache) (Ret tt)
     end).

(** Body of the loop of [checkAndStoreMessages] (lines 89-121). *)
Definition checkAndStoreMessages_body (dstConn : Client) (fetchRequests : nat)
    (request : WorkRequest) : proc unit :=
  call (log_Printf ("checking and storing (" +:+ Value request +:+ ")"));;
  cmd ← call (UIDSearch dstConn ["HEADER"; Header request; Value request]);
  match cmd with
  | Err err =>
      call (log_Printf ("Unable to search for message (" +:+ Value request
              +:+ "): " +:+ err))
  | Ok Data =>
      match Data with
      | [] => Panic "index out of range"
      | rsp :: _ =>
          let results := SearchResults rsp in
          if decide (length results = 0) then
            response ← call make_chan_FieldMap;
            let fr := {| MessageId := Value request; fr_UID := UID request;
                         Response := response |} in
            call (send_fetchRequest fetchRequests fr);;
            attrs ← call (recv_FieldMap response);
            if decide (size attrs = 0) then
              call (log_Printf ("No data found in message fetch request ("
                      +:+ Value request +:+ ")"))
            else
              let msgDate := AsDateTime (attrs !! "INTERNALDATE") in
              err ← call (Append dstConn "INBOX" ["UnSeen"] msgDate
                             (AsBytes (attrs !! "BODY[]")));
              match err with
              | Some err =>
                  call (log_Printf ("Problems removing message from dst: "
                          +:+ err))
              | None => Ret tt
              end
          else Ret tt
      end
  end.

(** [checkAndStoreMessages] (lines 78-125). *)
Definition checkAndStoreMessages (dst : InboxInfo) (storeRequests : nat)
    (fetchRequests : nat) (wg : WaitGroup) : proc unit :=
  defer (call (wg_Done wg))
    (conn ← call (GetConnection dst false);
     match conn with
     | Err err =>
         call (log_Printf ("Unable to connect to destination: " +:+ err))
     | Ok dstConn =>
         defer (call (Close dstConn true))
           (RangeWork storeRequests
              (checkAndStoreMessages_body dstConn fetchRequests)
              (call (log_Printf "storer complete!")))
     end).

(** [SearchAndStore] (lines 17-76), loop by loop. *)

(** Lines 28-31. *)
Definition start_fetchers (src : InboxInfo) (fetchRequests : nat) : proc unit :=
  for_n MaxImapConns
    (call (wg_Add fetchers 1);;
     Go go_fetchEmails (fetchEmails src fetchRequests fetchers) (Ret tt)).

(** Lines 36-44; the accumulator is [dstsStoreRequests]. *)
Fixpoint start_storers (dsts : list InboxInfo) (fetchRequests : nat)
    (dstsStoreRequests : list nat) : proc (list nat) :=
  match dsts with
  | [] => Ret dstsStoreRequests
  | dst :: dsts' =>
      storeRequests ← call make_chan_WorkRequest;
      for_n MaxImapConns
        (call (wg_Add storers 1);;
         Go (go_checkAndStoreMessages dst)
            (checkAndStoreMessages dst storeRequests fetchRequests storers)
            (Ret tt));;
      start_storers dsts' fetchRequests (dstsStoreRequests ++ [storeRequests])
  end.

(** Lines 49-59: one turn of the loop over [cmd.Data]. *)
Definition build_request (rsp : imap_Response) : option WorkRequest :=
  let header := AsBytes (Attrs (rsp_MessageInfo rsp) !! "RFC822.HEADER") in
  match mail_ReadMessage header with
  | Some msg =>
      let header := "Message-Id" in
      let value := Header_Get (msg_Header msg) header in
      Some {| Value := value; Header := header;
              UID := mi_UID (rsp_MessageInfo rsp) |}
  | None => None
  end.

Definition send_requests (Data : list imap_Response)
    (dstsStoreRequests : list nat) : proc unit :=
  for_range Data (fun rsp =>
    match build_request rsp with
    | Some storeRequest =>
        for_range dstsStoreRequests (fun storeRequests =>
          call (send_WorkRequest storeRequests storeRequest))
    | None => Ret tt
    end).

Definition SearchAndStore (src : InboxInfo) (dsts : list InboxInfo)
    : proc (option error) :=
  cmd ← call (GetAllMessages src);
  match cmd with
  | Err err =>
      call (log_Printf "Unable to get all messages!");;
      Ret (Some err)
  | Ok Data =>
      fetchRequests ← call make_chan_fetchRequest;
      start_fetchers src fetchRequests;;
      dstsStoreRequests ← start_storers dsts fetchRequests [];
      send_requests Data dstsStoreRequests;;
      for_range dstsStoreRequests (fun storeRequests =>
        call (close_WorkRequest storeRequests));;
      call (wg_Wait storers);;
      call (close_fetchRequest fetchRequests);;
      call (wg_Wait fetchers);;
      call (log_Printf "search and store processes complete");;
      Ret None
  end.

(** ** One goroutine against its environment

    The environment answers the [t]-th step of the goroutine ([None]: the
    call never returns) and fixes what arrives on the channels the goroutine
    ranges over, and whether they are closed afterwards. A send returns when
    the environment says a receiver took the value. *)

Record env : Type :=
  { ext : forall X : Type, event X -> nat -> option X;
    inbox_WorkRequest : nat -> list WorkRequest * bool;
    inbox_fetchRequest : nat -> list fetchRequest * bool }.

Inductive entry : Type :=
| Called (X : Type) (e : event X) (x : option X)
| Got_WorkRequest (ch : nat) (w : WorkRequest)
| Got_fetchRequest (ch : nat) (r : fetchRequest)
| Spawned (name : goroutine) (child : proc unit).
Arguments Called {X} e x.

Fixpoint exec {R : Type} (E : env) (p : proc R) (t : nat) {struct p}
    : list entry * outcome R :=
  match p with
  | Ret r => ([], Returned r)
  | Panic m => ([], Panicked m)
  | Vis e k =>
      match ext E e t with
      | None => ([Called e None], Blocked)
      | Some x =>
          let r := exec E (k x) (S t) in (Called e (Some x) :: r.1, r.2)
      end
  | RangeWork ch body k =>
      (fix loop (items : list WorkRequest) (t : nat) {struct items} :=
         match items with
         | [] => if (inbox_WorkRequest E ch).2 then exec E k t else ([], Blocked)
         | w :: items' =>
             let r := exec E (body w) (S t) in
             match r.2 with
             | Returned _ =>
                 let r' := loop items' (S t + length r.1) in
                 (Got_WorkRequest ch w :: r.1 ++ r'.1, r'.2)
             | Panicked m => (Got_WorkRequest ch w :: r.1, Panicked m)
             | Blocked => (Got_WorkRequest ch w :: r.1, Blocked)
             end
         end) (inbox_WorkRequest E ch).1 t
  | RangeFetch ch body k =>
      (fix loop (items : list fetchRequest) (t : nat) {struct items} :=
         match items with
         | [] => if (inbox_fetchRequest E ch).2 then exec E k t else ([], Blocked)
         | w :: items' =>
             let r := exec E (body w) (S t) in
             match r.2 with
             | Returned _ =>
                 let r' := loop items' (S t + length r.1) in
                 (Got_fetchRequest ch w :: r.1 ++ r'.1, r'.2)
             | Panicked m => (Got_fetchRequest ch w :: r.1, Panicked m)
             | Blocked => (Got_fetchRequest ch w :: r.1, Blocked)
             end
         end) (inbox_fetchRequest E ch).1 t
  | Go name child k =>
      let r := exec E k (S t) in (Spawned name child :: r.1, r.2)
  end.

(** ** Runs of composed processes *)

(** What [exec] makes of [p] followed by [f]. *)
Definition and_then {R T : Type} (r : list entry * outcome R)
    (f : R -> nat -> list entry * outcome T) (t : nat)
    : list entry * outcome T :=
  match r.2 with
  | Returned x => let r' := f x (t + length r.1) in (r.1 ++ r'.1, r'.2)
  | Panicked m => (r.1, Panicked m)
  | Blocked => (r.1, Blocked)
  end.

(** What [exec] makes of [p] under [defer d]/[on_panic d], at a panic. *)
Definition and_finally {R : Type} (r : list entry * outcome R)
    (d : nat -> list entry * outcome unit) (t : nat)
    : list entry * outcome R :=
  match r.2 with
  | Panicked m =>
      let r' := d (t + length r.1) in
      (r.1 ++ r'.1,
       match r'.2 with
       | Returned _ => Panicked m
       | Panicked m' => Panicked m'
       | Blocked => Blocked
       end)
  | _ => r
  end.

Lemma exec_bind (E : env) {R T : Type} (p : proc R) (f : R -> proc T) (t : nat) :
  exec E (bind p f) t = and_then (exec E p t) (fun x t' => exec E (f x) t') t.
Proof.
  revert T f t.
  induction p as [R r|R m|R X e k IH|R ch body IHb k IHk|R ch body IHb k IHk
                 |R name child IHc k IHk]; intros T f t.
  - unfold and_then; cbn. rewrite Nat.add_0_r. by destruct (exec E (f r) t).
  - reflexivity.
  - cbn. destruct (ext E e t) as [x|]; [|reflexivity].
    rewrite IH. unfold and_then; cbn.
    destruct (exec E (k x) (S t)) as [tr [r| |]]; cbn; try reflexivity.
    by rewrite Nat.add_succ_r.
  - cbn. generalize (inbox_WorkRequest E ch).1 as items. intros items.
    revert t. induction items as [|w items IHi]; intros t.
    + destruct (inbox_WorkRequest E ch).2; [apply IHk|reflexivity].
    + destruct (exec E (body w) (S t)) as [tr [r| |]] eqn:Hw; cbn;
        try reflexivity.
      rewrite IHi. unfold and_then; cbn.
      match goal with
      | |- context [(?loop items (S (t + length tr)))] =>
          destruct (loop items (S (t + length tr))) as [tr' [r'| |]]
      end; cbn; try reflexivity.
      rewrite length_app, <- app_assoc.
      by replace (t + S (length tr + length tr'))
        with (S (t + length tr) + length tr') by lia.
  - cbn. generalize (inbox_fetchRequest E ch).1 as items. intros items.
    revert t. induction items as [|w items IHi]; intros t.
    + destruct (inbox_fetchRequest E ch).2; [apply IHk|reflexivity].
    + destruct (exec E (body w) (S t)) as [tr [r| |]] eqn:Hw; cbn;
        try reflexivity.
      rewrite IHi. unfold and_then; cbn.
      match goal with
      | |- context [(?loop items (S (t + length tr)))] =>
          destruct (loop items (S (t + length tr))) as [tr' [r'| |]]
      end; cbn; try reflexivity.
      rewrite length_app, <- app_assoc.
      by replace (t + S (length tr + length tr'))
        with (S (t + length tr) + length tr') by lia.
  - cbn. rewrite IHk. unfold and_then; cbn.
    destruct (exec E k (S t)) as [tr [r| |]]; cbn; try reflexivity.
    by rewrite Nat.add_succ_r.
Qed.

Lemma exec_on_panic (E : env) {R : Type} (d : proc unit) (p : proc R) (t : nat) :
  exec E (on_panic d p) t = and_finally (exec E p t) (exec E d) t.
Proof.
  revert t.
  induction p as [R r|R m|R X e k IH|R ch body IHb k IHk|R ch body IHb k IHk
                 |R name child IHc k IHk]; intros t.
  - reflexivity.
  - cbn [on_panic]. change (d ≫= (λ _, Panic m)) with (bind d (fun _ => @Panic R m)).
    rewrite exec_bind. unfold and_then, and_finally; cbn.
    rewrite Nat.add_0_r.
    destruct (exec E d t) as [tr [r| |]]; cbn; by rewrite ?app_nil_r.
  - cbn. destruct (ext E e t) as [x|]; [|reflexivity].
    rewrite IH. unfold and_finally; cbn.
    destruct (exec E (k x) (S t)) as [tr [r| |]]; cbn; try reflexivity.
    by rewrite Nat.add_succ_r.
  - cbn. generalize (inbox_WorkRequest E ch).1 as items. intros items.
    revert t. induction items as [|w items IHi]; intros t.
    + destruct (inbox_WorkRequest E ch).2; [apply IHk|reflexivity].
    + rewrite IHb. unfold and_finally at 1.
      destruct (exec E (body w) (S t)) as [tr [r| |]] eqn:Hw; cbn.
      * rewrite IHi. unfold and_finally; cbn.
        match goal with
        | |- context [(?loop items (S (t + length tr)))] =>
            destruct (loop items (S (t + length tr))) as [tr' [r'| |]]
        end; cbn; try reflexivity.
        rewrite length_app, <- app_assoc.
        by replace (t + S (length tr + length tr'))
          with (S (t + length tr) + length tr') by lia.
      * unfold and_finally; cbn. rewrite Nat.add_succ_r.
        by destruct (exec E d (S (t + length tr))) as [tr' [r'| |]].
      * reflexivity.
  - cbn. generalize (inbox_fetchRequest E ch).1 as items. intros items.
    revert t. induction items as [|w items IHi]; intros t.
    + destruct (inbox_fetchRequest E ch).2; [apply IHk|reflexivity].
    + rewrite IHb. unfold and_finally at 1.
      destruct (exec E (body w) (S t)) as [tr [r| |]] eqn:Hw; cbn.
      * rewrite IHi. unfold and_finally; cbn.
        match goal with
        | |- context [(?loop items (S (t + length tr)))] =>
            destruct (loop items (S (t + length tr))) as [tr' [r'| |]]
        end; cbn; try reflexivity.
        rewrite length_app, <- app_assoc.
        by replace (t + S (length tr + length tr'))
          with (S (t + length tr) + length tr') by lia.
      * unfold and_finally; cbn. rewrite Nat.add_succ_r.
        by destruct (exec E d (S (t + length tr))) as [tr' [r'| |]].
      * reflexivity.
  - cbn. rewrite IHk. unfold and_finally; cbn.
    destruct (exec E k (S t)) as [tr [r| |]]; cbn; try reflexivity.
    by rewrite Nat.add_succ_r.
Qed.

(** [defer d] runs [d] last, on return and on panic alike. *)
Lemma exec_defer (E : env) {R : Type} (d : proc unit) (p : proc R) (t : nat) :
  exec E (defer d p) t
  = match (exec E p t).2 with
    | Returned r =>
        ((exec E p t).1 ++ (exec E d (t + length (exec E p t).1)).1,
         match (exec E d (t + length (exec E p t).1)).2 with
         | Returned _ => Returned r
         | Panicked m' => Panicked m'
         | Blocked => Blocked
         end)
    | Panicked m =>
        ((exec E p t).1 ++ (exec E d (t + length (exec E p t).1)).1,
         match (exec E d (t + length (exec E p t).1)).2 with
         | Returned _ => Panicked m
         | Panicked m' => Panicked m'
         | Blocked => Blocked
         end)
    | Blocked => ((exec E p t).1, Blocked)
    end.
Proof.
  unfold defer.
  change (on_panic d p ≫= (λ r, d ≫= (λ _, Ret r)))
    with (bind (on_panic d p) (fun r => bind d (fun _ => Ret r))).
  rewrite exec_bind, exec_on_panic.
  unfold and_then, and_finally.
  destruct (exec E p t) as [tr [r| |]]; cbn.
  - rewrite exec_bind. unfold and_then; cbn.
    destruct (exec E d (t + length tr)) as [tr' [r'| |]]; cbn;
      by rewrite ?app_nil_r.
  - by destruct (exec E d (t + length tr)) as [tr' [r'| |]].
  - reflexivity.
Qed.

(** A deferred call that returns is the last entry of the trace. *)
Lemma exec_defer_call (E : env) {R : Type} (e : event unit) (p : proc R)
    (t : nat) :
  (exec E (defer (call e) p) t).2 ≠ Blocked →
  (exec E p t).2 ≠ Blocked ∧
  exec E (defer (call e) p) t
    = ((exec E p t).1 ++ [Called e (Some ())], (exec E p t).2).
Proof.
  rewrite exec_defer.
  destruct (exec E p t) as [tr [r| |]]; cbn; [| |done].
  all: by destruct (ext E e (t + length tr)) as [[]|].
Qed.

Lemma exec_call (E : env) {X : Type} (e : event X) (t : nat) :
  exec E (call e) t
  = match ext E e t with
    | Some x => ([Called e (Some x)], Returned x)
    | None => ([Called e None], Blocked)
    end.
Proof. cbn. by destruct (ext E e t). Qed.

(** The trace of a [range] loop is made of the traces of its turns. *)
Section TraceInduction.

Variable Φ : list entry -> Prop.
Hypothesis Φ_nil : Φ [].
Hypothesis Φ_app : ∀ tr1 tr2, Φ tr1 → Φ tr2 → Φ (tr1 ++ tr2).

Lemma exec_RangeWork_trace (E : env) {R : Type} (ch : nat)
    (body : WorkRequest -> proc unit) (k : proc R) (t : nat) :
  (∀ w, Φ [Got_WorkRequest ch w]) →
  (∀ w t', Φ (exec E (body w) t').1) →
  (∀ t', Φ (exec E k t').1) →
  Φ (exec E (RangeWork ch body k) t).1.
Proof using Φ_nil Φ_app.
  intros Hgot Hbody Hk. cbn.
  generalize (inbox_WorkRequest E ch).1 as items. intros items.
  revert t. induction items as [|w items IHi]; intros t.
  - destruct (inbox_WorkRequest E ch).2; [apply Hk|apply Φ_nil].
  - pose proof (Hbody w (S t)) as Hw.
    destruct (exec E (body w) (S t)) as [tr [r| |]]; cbn in *.
    + apply (Φ_app (tr1 := [_])); [apply Hgot|]. apply Φ_app; [done|apply IHi].
    + by apply (Φ_app (tr1 := [_])).
    + by apply (Φ_app (tr1 := [_])).
Qed.

Lemma exec_RangeFetch_trace (E : env) {R : Type} (ch : nat)
    (body : fetchRequest -> proc unit) (k : proc R) (t : nat) :
  (∀ w, Φ [Got_fetchRequest ch w]) →
  (∀ w t', Φ (exec E (body w) t').1) →
  (∀ t', Φ (exec E k t').1) →
  Φ (exec E (RangeFetch ch body k) t).1.
Proof using Φ_nil Φ_app.
  intros Hgot Hbody Hk. cbn.
  generalize (inbox_fetchRequest E ch).1 as items. intros items.
  revert t. induction items as [|w items IHi]; intros t.
  - destruct (inbox_fetchRequest E ch).2; [apply Hk|apply Φ_nil].
  - pose proof (Hbody w (S t)) as Hw.
    destruct (exec E (body w) (S t)) as [tr [r| |]]; cbn in *.
    + apply (Φ_app (tr1 := [_])); [apply Hgot|]. apply Φ_app; [done|apply IHi].
    + by apply (Φ_app (tr1 := [_])).
    + by apply (Φ_app (tr1 := [_])).
Qed.

Lemma exec_Vis_trace (E : env) {R X : Type} (e : event X) (k : X -> proc R)
    (t : nat) :
  (∀ a, Φ [Called e a]) →
  (∀ x t', Φ (exec E (k x) t').1) →
  Φ (exec E (Vis e k) t).1.
Proof using Φ_app.
  intros He Hk. cbn. destruct (ext E e t) as [x|]; cbn; [|apply He].
  apply (Φ_app (tr1 := [_])); [apply He|apply Hk].
Qed.

Lemma exec_bind_trace (E : env) {R T : Type} (p : proc R) (f : R -> proc T)
    (t : nat) :
  Φ (exec E p t).1 →
  (∀ x t', Φ (exec E (f x) t').1) →
  Φ (exec E (bind p f) t).1.
Proof using Φ_app.
  intros Hp Hf. rewrite exec_bind. unfold and_then.
  destruct (exec E p t) as [tr [r| |]]; cbn in *; try done.
  apply Φ_app; [done|apply Hf].
Qed.

Lemma exec_defer_trace (E : env) {R : Type} (d : proc unit) (p : proc R)
    (t : nat) :
  Φ (exec E p t).1 →
  (∀ t', Φ (exec E d t').1) →
  Φ (exec E (defer d p) t).1.
Proof using Φ_app.
  intros Hp Hd. rewrite exec_defer.
  destruct (exec E p t) as [tr [r| |]]; cbn in *; try done.
  all: apply Φ_app; [done|apply Hd].
Qed.

End TraceInduction.

(** ** What a trace shows *)

(** Sends on [chan imap.FieldMap] channels: channel and message. *)
Definition responses (tr : list entry) : list (nat * FieldMap) :=
  omap (fun x => match x with
                 | Called e _ =>
                     match e with
                     | send_FieldMap ch m => Some (ch, m)
                     | _ => None
                     end
                 | _ => None
                 end) tr.

(** [UIDFetch] calls: what the source answered ([None]: no answer came). *)
Definition live_fetches (tr : list entry)
    : list (option (result (list imap_Response))) :=
  omap (fun x => match x with
                 | Called e a =>
                     match e in event X return option X -> option _ with
                     | UIDFetch _ _ _ => fun a => Some a
                     | _ => fun _ => None
                     end a
                 | _ => None
                 end) tr.

(** [UIDSearch] calls: search specification and answer. *)
Definition searches (tr : list entry)
    : list (list string * option (result (list imap_Response))) :=
  omap (fun x => match x with
                 | Called e a =>
                     match e in event X return option X -> option _ with
                     | UIDSearch _ spec => fun a => Some (spec, a)
                     | _ => fun _ => None
                     end a
                 | _ => None
                 end) tr.

(** Keys looked up in memcache. *)
Definition cache_gets (tr : list entry) : list string :=
  omap (fun x => match x with
                 | Called e _ =>
                     match e with
                     | cache_Get _ key => Some key
                     | _ => None
                     end
                 | _ => None
                 end) tr.

(** Fetch requests sent: channel and request. *)
Definition fetch_requests (tr : list entry) : list (nat * fetchRequest) :=
  omap (fun x => match x with
                 | Called e _ =>
                     match e with
                     | send_fetchRequest ch r => Some (ch, r)
                     | _ => None
                     end
                 | _ => None
                 end) tr.

(** What came back on [chan imap.FieldMap] channels. *)
Definition received (tr : list entry) : list (option FieldMap) :=
  omap (fun x => match x with
                 | Called e a =>
                     match e in event X return option X -> option _ with
                     | recv_FieldMap _ => fun a => Some a
                     | _ => fun _ => None
                     end a
                 | _ => None
                 end) tr.

(** [Append] calls: connection, mailbox, flags, date, body. *)
Definition appends (tr : list entry)
    : list (Client * string * list string * Time * bytes) :=
  omap (fun x => match x with
                 | Called e _ =>
                     match e with
                     | Append c mbox flags date body =>
                         Some (c, mbox, flags, date, body)
                     | _ => None
                     end
                 | _ => None
                 end) tr.

(** [Close] calls: connection and expunge flag. *)
Definition closes (tr : list entry) : list (Client * bool) :=
  omap (fun x => match x with
                 | Called e _ =>
                     match e with
                     | Close c expunge => Some (c, expunge)
                     | _ => None
                     end
                 | _ => None
                 end) tr.

(** Connections obtained from [GetConnection]. *)
Definition connections (tr : list entry) : list Client :=
  omap (fun x => match x with
                 | Called e a =>
                     match e in event X return option X -> option Client with
                     | GetConnection _ _ =>
                         fun a => match a with Some (Ok c) => Some c | _ => None end
                     | _ => fun _ => None
                     end a
                 | _ => None
                 end) tr.

(** Log lines. *)
Definition logs (tr : list entry) : list string :=
  omap (fun x => match x with
                 | Called e _ =>
                     match e with
                     | log_Printf msg => Some msg
                     | _ => None
                     end
                 | _ => None
                 end) tr.

(** Sends on [chan WorkRequest] channels: channel and work request. *)
Definition work_sends (tr : list entry) : list (nat * WorkRequest) :=
  omap (fun x => match x with
                 | Called e _ =>
                     match e with
                     | send_WorkRequest ch w => Some (ch, w)
                     | _ => None
                     end
                 | _ => None
                 end) tr.

(** Channels obtained from [make(chan WorkRequest)]. *)
Definition work_chans (tr : list entry) : list nat :=
  omap (fun x => match x with
                 | Called e a =>
                     match e in event X return option X -> option nat with
                     | make_chan_WorkRequest => fun a => a
                     | _ => fun _ => None
                     end a
                 | _ => None
                 end) tr.

(** Goroutines started. *)
Definition spawns (tr : list entry) : list (goroutine * proc unit) :=
  omap (fun x => match x with
                 | Spawned name child => Some (name, child)
                 | _ => None
                 end) tr.


(** [wg.Done()] calls. *)
Definition dones (tr : list entry) : list WaitGroup :=
  omap (fun x => match x with
                 | Called e _ =>
                     match e with
                     | wg_Done wg => Some wg
                     | _ => None
                     end
                 | _ => None
                 end) tr.

(** ** [fetchEmails]: one request *)

Ltac run_body :=
  repeat (cbn [exec bind mbind proc_bind call fst snd] in *;
    match goal with
    | |- context [ext ?E ?e ?t] =>
        let a := fresh "a" in
        let Ha := fresh "Ha" in
        destruct (ext E e t) as [a|] eqn:Ha
    | |- context [match ?x with _ => _ end] => destruct x eqn:?
    end);
  cbn [exec bind mbind proc_bind call fst snd] in *.

(** C8. The fetch worker sends on a response channel at most once per
    request, and only on the channel of that request: exactly once when it
    answers from the cache entry (no live fetch, the turn of the loop
    completes) or when the live fetch yields data, and not at all when the
    live fetch fails or yields nothing, or when the goroutine panics. *)
Theorem fetchEmails_body_responds_at_most_once
    (E : env) (conn : Client) (cache : memcache_Client)
    (request : fetchRequest) (t : nat) :
  length (responses (exec E (fetchEmails_body conn cache request) t).1) ≤ 1 ∧
  length (live_fetches (exec E (fetchEmails_body conn cache request) t).1) ≤ 1 ∧
  (∀ x, x ∈ responses (exec E (fetchEmails_body conn cache request) t).1 →
        x.1 = Response request) ∧
  (∀ rsp Data,
     live_fetches (exec E (fetchEmails_body conn cache request) t).1
       = [Some (Ok (rsp :: Data))] →
     responses (exec E (fetchEmails_body conn cache request) t).1
       = [(Response request, Attrs (rsp_MessageInfo rsp))]) ∧
  (live_fetches (exec E (fetchEmails_body conn cache request) t).1 = [] →
   (exec E (fetchEmails_body conn cache request) t).2 = Returned tt →
   ∃ m, 0 < size m ∧
        responses (exec E (fetchEmails_body conn cache request) t).1
          = [(Response request, m)]) ∧
  (∀ a, live_fetches (exec E (fetchEmails_body conn cache request) t).1 = [a] →
        (∀ rsp Data, a ≠ Some (Ok (rsp :: Data))) →
        responses (exec E (fetchEmails_body conn cache request) t).1 = []) ∧
  (∀ msg, (exec E (fetchEmails_body conn cache request) t).2 = Panicked msg →
          responses (exec E (fetchEmails_body conn cache request) t).1 = []).
Proof.
  unfold fetchEmails_body.
  run_body.
  all: cbn; repeat split; try lia; try done.
  all: try (intros x Hx; apply list_elem_of_singleton in Hx; by subst x).
  all: try (intros x Hx; by apply not_elem_of_nil in Hx).
  all: try (intros rsp Data [= <- <-]; reflexivity).
  all: try (intros _ _; eexists; split; [eassumption|reflexivity]).
  all: try (intros a' [= <-] Hfail; exfalso; by eapply Hfail).
Qed.

(** C1. A cache hit ([err == nil]) skips the block that answers from the
    cache: whatever the entry holds, also a non-empty field map that
    deserializes without error, the very next call is a live fetch, and the
    only message that can reach the response channel is the live one. *)
Theorem fetchEmails_body_cache_hit_fetches_live
    (E : env) (conn : Client) (cache : memcache_Client)
    (request : fetchRequest) (t : nat) (item : Item) (m : FieldMap) :
  ext E (cache_Get cache (MessageId request)) t = Some (Some item, None) →
  deserialize (ItemValue item) ∅ = (m, None) →
  0 < size m →
  ∃ a rest,
    (exec E (fetchEmails_body conn cache request) t).1
      = Called (cache_Get cache (MessageId request)) (Some (Some item, None))
        :: Called (UIDFetch conn [fr_UID request] ["INTERNALDATE"; "BODY[]"]) a
        :: rest ∧
    responses (exec E (fetchEmails_body conn cache request) t).1
      = match a with
        | Some (Ok (rsp :: _)) => [(Response request, Attrs (rsp_MessageInfo rsp))]
        | _ => []
        end.
Proof.
  intros Hget _ _. unfold fetchEmails_body.
  cbn [exec bind mbind proc_bind call fst snd]. rewrite Hget.
  run_body; eauto.
Qed.

(** C2. When the live fetch fails or yields no data, the fetch worker logs
    and goes on to the next request: nothing at all is sent on the response
    channel of the request. *)
Theorem fetchEmails_body_failed_fetch_sends_nothing
    (E : env) (conn : Client) (cache : memcache_Client)
    (request : fetchRequest) (t : nat) (a : result (list imap_Response)) :
  live_fetches (exec E (fetchEmails_body conn cache request) t).1 = [Some a] →
  (∀ rsp Data, a ≠ Ok (rsp :: Data)) →
  responses (exec E (fetchEmails_body conn cache request) t).1 = [] ∧
  logs (exec E (fetchEmails_body conn cache request) t).1 ≠ [] ∧
  (exec E (fetchEmails_body conn cache request) t).2 ≠ Panicked
     "invalid memory address or nil pointer dereference".
Proof.
  unfold fetchEmails_body.
  run_body.
  all: cbn; intros Hlive Hfail; try discriminate Hlive.
  all: injection Hlive as <-; repeat split; try done.
  all: exfalso; by eapply Hfail.
Qed.

(** C3. When [cache.Get] reports an error and hands back no item (a plain
    miss does exactly that), the fetch worker reads [msgBytes.Value] through
    the nil item and panics; no live fetch is made. *)
Theorem fetchEmails_body_cache_error_panics
    (E : env) (conn : Client) (cache : memcache_Client)
    (request : fetchRequest) (t : nat) (err : error) :
  ext E (cache_Get cache (MessageId request)) t = Some (None, Some err) →
  exec E (fetchEmails_body conn cache request) t
    = ([Called (cache_Get cache (MessageId request)) (Some (None, Some err))],
       Panicked "invalid memory address or nil pointer dereference").
Proof.
  intros Hget. unfold fetchEmails_body.
  cbn [exec bind mbind proc_bind call fst snd]. rewrite Hget. reflexivity.
Qed.

(** ** [checkAndStoreMessages]: one work request *)

(** C6, for one work request. At most one append is made, and only after
    the existence search for the request's header value succeeded with zero
    matches and a non-empty field map came back on the response channel;
    the append then carries the date and body of that map. When the search
    reports a match, or fails, nothing is fetched and nothing is appended. *)
Lemma checkAndStoreMessages_body_spec
    (E : env) (dstConn : Client) (fetchRequests : nat)
    (request : WorkRequest) (t : nat) :
  (appends (exec E (checkAndStoreMessages_body dstConn fetchRequests request) t).1
     ≠ [] →
   ∃ rsp Data attrs,
     searches (exec E (checkAndStoreMessages_body dstConn fetchRequests request) t).1
       = [(["HEADER"; Header request; Value request], Some (Ok (rsp :: Data)))] ∧
     SearchResults rsp = [] ∧
     received (exec E (checkAndStoreMessages_body dstConn fetchRequests request) t).1
       = [Some attrs] ∧
     size attrs ≠ 0 ∧
     appends (exec E (checkAndStoreMessages_body dstConn fetchRequests request) t).1
       = [(dstConn, "INBOX", ["UnSeen"], AsDateTime (attrs !! "INTERNALDATE"),
           AsBytes (attrs !! "BODY[]"))]) ∧
  (∀ x, x ∈ searches (exec E (checkAndStoreMessages_body dstConn fetchRequests
                                 request) t).1 →
        (∃ rsp Data, x.2 = Some (Ok (rsp :: Data)) ∧ SearchResults rsp ≠ []) ∨
        (∃ err, x.2 = Some (Err err)) →
        appends (exec E (checkAndStoreMessages_body dstConn fetchRequests
                           request) t).1 = [] ∧
        fetch_requests (exec E (checkAndStoreMessages_body dstConn fetchRequests
                                  request) t).1 = []).
Proof.
  unfold checkAndStoreMessages_body.
  run_body.
  all: cbn; split; [intros Happ; try done|].
  all: try (intros x Hx; by apply not_elem_of_nil in Hx).
  all: try (intros x Hx; apply list_elem_of_singleton in Hx; subst x; cbn;
            intros [(rsp & Data & [= <- <-] & Hne)|(err & [=])]; try done;
            exfalso; apply Hne; by apply nil_length_inv).
  all: try (intros x Hx; apply list_elem_of_singleton in Hx; subst x; cbn;
            intros [(rsp & Data & [=] & Hne)|(err & [=])]; try done).
  all: try (eexists _, _, _; repeat split; try reflexivity;
            first [by apply length_zero_iff_nil|done]).
Qed.

Lemma checkAndStoreMessages_body_keeps_connection
    (E : env) (dstConn : Client) (fetchRequests : nat)
    (request : WorkRequest) (t : nat) :
  closes (exec E (checkAndStoreMessages_body dstConn fetchRequests request) t).1
    = [] ∧
  connections (exec E (checkAndStoreMessages_body dstConn fetchRequests
                         request) t).1 = [].
Proof. unfold checkAndStoreMessages_body. run_body. all: by cbn. Qed.

Lemma fetchEmails_body_keeps_connection
    (E : env) (conn : Client) (cache : memcache_Client)
    (request : fetchRequest) (t : nat) :
  closes (exec E (fetchEmails_body conn cache request) t).1 = [].
Proof. unfold fetchEmails_body. run_body. all: by cbn. Qed.

(** ** The two workers, from start to exit *)

(** A match for every search of a run of the store worker. *)
Definition found (x : list string * option (result (list imap_Response)))
    : Prop :=
  ∃ rsp Data, x.2 = Some (Ok (rsp :: Data)) ∧ SearchResults rsp ≠ [].

(** C6. A store worker appends only when the existence search for the work
    request's header value succeeded with zero matches and the response to
    its fetch request was a non-empty field map; a search that reports a
    match leads to no fetch request and no append, so a worker whose
    searches all report a match (every identifier is already in the
    destination) appends nothing in its whole run. *)
Theorem checkAndStoreMessages_appends_only_when_absent
    (E : env) (dst : InboxInfo) (dstConn : Client)
    (storeRequests fetchRequests : nat) (wg : WaitGroup)
    (request : WorkRequest) (t : nat) :
  (appends (exec E (checkAndStoreMessages_body dstConn fetchRequests request) t).1
     ≠ [] →
   ∃ rsp Data attrs,
     searches (exec E (checkAndStoreMessages_body dstConn fetchRequests request) t).1
       = [(["HEADER"; Header request; Value request], Some (Ok (rsp :: Data)))] ∧
     SearchResults rsp = [] ∧
     received (exec E (checkAndStoreMessages_body dstConn fetchRequests request) t).1
       = [Some attrs] ∧
     size attrs ≠ 0 ∧
     appends (exec E (checkAndStoreMessages_body dstConn fetchRequests request) t).1
       = [(dstConn, "INBOX", ["UnSeen"], AsDateTime (attrs !! "INTERNALDATE"),
           AsBytes (attrs !! "BODY[]"))]) ∧
  (∀ x, x ∈ searches (exec E (checkAndStoreMessages_body dstConn fetchRequests
                                 request) t).1 →
        found x →
        appends (exec E (checkAndStoreMessages_body dstConn fetchRequests
                           request) t).1 = [] ∧
        fetch_requests (exec E (checkAndStoreMessages_body dstConn fetchRequests
                                  request) t).1 = []) ∧
  ((∀ x, x ∈ searches (exec E (checkAndStoreMessages dst storeRequests
                                 fetchRequests wg) t).1 → found x) →
   appends (exec E (checkAndStoreMessages dst storeRequests fetchRequests wg) t).1
     = [] ∧
   fetch_requests (exec E (checkAndStoreMessages dst storeRequests
                             fetchRequests wg) t).1 = []).
Proof.
  destruct (checkAndStoreMessages_body_spec E dstConn fetchRequests request t)
    as [Happ Hfound].
  split; [exact Happ|]. split; [intros x Hx Hf; apply (Hfound x Hx); by left|].
  clear Happ Hfound.
  set (Φ := fun tr : list entry =>
    (∀ x, x ∈ searches tr → found x) → appends tr = [] ∧ fetch_requests tr = []).
  assert (HΦapp : ∀ tr1 tr2, Φ tr1 → Φ tr2 → Φ (tr1 ++ tr2)).
  { unfold Φ, searches, appends, fetch_requests. intros tr1 tr2 H1 H2 Hall.
    rewrite !omap_app in *.
    destruct H1 as [-> ->];
      [intros x Hx; apply Hall, elem_of_app; by left|].
    destruct H2 as [-> ->];
      [intros x Hx; apply Hall, elem_of_app; by right|]. done. }
  change (Φ (exec E (checkAndStoreMessages dst storeRequests fetchRequests wg) t).1).
  unfold checkAndStoreMessages.
  assert (Hcall : ∀ (e : event unit) t',
            appends [Called e None] = [] → appends [Called e (Some ())] = [] →
            fetch_requests [Called e None] = [] →
            fetch_requests [Called e (Some ())] = [] →
            Φ (exec E (call e) t').1).
  { intros e t' ????. cbn. by destruct (ext E e t') as [[]|]. }
  apply exec_defer_trace; [done| |by intros t'; apply Hcall].
  cbn [bind mbind proc_bind call].
  apply exec_Vis_trace; [done|by intros a _|].
  intros [conn|err] t'; [|by apply Hcall].
  apply exec_defer_trace; [done| |by intros t''; apply Hcall].
  apply exec_RangeWork_trace; [done|done|by intros w _| |
                               by intros t''; apply Hcall].
  intros w t'' Hall.
  destruct (checkAndStoreMessages_body_spec E conn fetchRequests w t'')
    as [_ Hfound].
  destruct (searches (exec E (checkAndStoreMessages_body conn fetchRequests w)
                        t'').1) as [|x xs] eqn:Hs.
  - revert Hs. clear. unfold checkAndStoreMessages_body. run_body.
    all: by cbn.
  - apply (Hfound x); [by left|]. left. apply Hall. by left.
Qed.

(** C10. A store worker that obtained its connection and leaves its loop,
    by return or by panic, closes that connection with expunge set as its
    last call but one (the last is [wg.Done]), and closes nothing before. A
    fetch worker makes no [Close] call at all, whatever it receives and
    however it ends. *)
Theorem store_worker_closes_fetch_worker_does_not
    (E : env) (dst src : InboxInfo) (storeRequests fetchRequests : nat)
    (wg : WaitGroup) (t : nat) :
  (∀ c, connections (exec E (checkAndStoreMessages dst storeRequests
                               fetchRequests wg) t).1 = [c] →
        (exec E (checkAndStoreMessages dst storeRequests fetchRequests wg) t).2
          ≠ Blocked →
        ∃ tr a a',
          (exec E (checkAndStoreMessages dst storeRequests fetchRequests wg) t).1
            = tr ++ [Called (Close c true) (Some a);
                     Called (wg_Done wg) (Some a')] ∧
          closes tr = []) ∧
  closes (exec E (fetchEmails src fetchRequests wg) t).1 = [].
Proof.
  split.
  - intros c Hconn Hrun. unfold checkAndStoreMessages in *.
    destruct (exec_defer_call E _ _ t Hrun) as [Hrun1 Heq].
    rewrite Heq in *. clear Heq Hrun. revert Hconn Hrun1.
    cbn [exec bind mbind proc_bind call fst snd].
    destruct (ext E (GetConnection dst false) t) as [[conn|err]|];
      cbn [fst snd]; [| |by cbn].
    + change (Ret conn ≫= ?f) with (f conn). cbv beta.
      intros Hconn Hrun.
      destruct (exec_defer_call E _ _ (S t) Hrun) as [_ Heq].
      rewrite Heq in *. clear Heq Hrun.
      assert (Hloop : ∀ t',
        closes (exec E (RangeWork storeRequests
                  (checkAndStoreMessages_body conn fetchRequests)
                  (call (log_Printf "storer complete!"))) t').1 = [] ∧
        connections (exec E (RangeWork storeRequests
                  (checkAndStoreMessages_body conn fetchRequests)
                  (call (log_Printf "storer complete!"))) t').1 = []).
      { intros t'.
        apply (exec_RangeWork_trace
                 (fun tr => closes tr = [] ∧ connections tr = [])).
        - done.
        - unfold closes, connections. intros tr1 tr2 [H1 H1'] [H2 H2'].
          by rewrite !omap_app, H1, H1', H2, H2'.
        - done.
        - intros w t''. apply checkAndStoreMessages_body_keeps_connection.
        - intros t''. cbn. by destruct (ext E _ t''). }
      destruct (Hloop (S t)) as [Hclo Hcon].
      destruct (exec E (RangeWork storeRequests _ _) (S t)) as [tr o];
        cbn [fst snd] in *.
      unfold connections in Hconn, Hcon. cbn in Hconn.
      rewrite !omap_app, Hcon in Hconn. injection Hconn as <-.
      exists (Called (GetConnection dst false) (Some (Ok conn)) :: tr), (), ().
      split; [cbn; by rewrite <- app_assoc|done].
    + intros Hconn _. exfalso. revert Hconn.
      cbn [exec bind mbind proc_bind call fst snd].
      destruct (ext E (log_Printf _) _) as [[]|]; by cbn.
  - unfold fetchEmails.
    apply (exec_defer_trace (fun tr => closes tr = [])).
    + unfold closes. intros tr1 tr2 H1 H2. by rewrite omap_app, H1, H2.
    + cbn [bind mbind proc_bind call].
      apply exec_Vis_trace; [|done|].
      { unfold closes. intros tr1 tr2 H1 H2. by rewrite omap_app, H1, H2. }
      intros [conn|err] t'.
      * apply exec_RangeFetch_trace; [done| |done| |done].
        { unfold closes. intros tr1 tr2 H1 H2. by rewrite omap_app, H1, H2. }
        intros w t''. apply fetchEmails_body_keeps_connection.
      * cbn. by destruct (ext E _ t').
    + intros t'. cbn. by destruct (ext E _ t').
Qed.

(** ** [SearchAndStore]: building and sending the work requests *)

(** The work requests of a listing, in listing order, and the sends that
    carry each of them to every queue. *)
Definition work_items (Data : list imap_Response) : list WorkRequest :=
  omap build_request Data.

Definition deliveries (Data : list imap_Response) (queues : list nat)
    : list (nat * WorkRequest) :=
  w ← work_items Data; (fun q => (q, w)) <$> queues.

(** A run that sent what [expected] says, or a first part of it when a send
    never returned, and that wrote no log line, made no channel and started
    no goroutine. *)
Definition sent (r : list entry * outcome unit)
    (expected : list (nat * WorkRequest)) : Prop :=
  logs r.1 = [] ∧ work_chans r.1 = [] ∧ spawns r.1 = [] ∧
  match r.2 with
  | Returned _ => work_sends r.1 = expected
  | Blocked => work_sends r.1 `prefix_of` expected
  | Panicked _ => False
  end.

Lemma exec_send_to_all (E : env) (w : WorkRequest) (queues : list nat) (t : nat) :
  sent (exec E (for_range queues (fun q => call (send_WorkRequest q w))) t)
       ((fun q => (q, w)) <$> queues).
Proof.
  revert t. induction queues as [|q queues IH]; intros t; [done|].
  cbn [for_range]. unfold mbind, proc_bind.
  rewrite exec_bind, exec_call. unfold and_then.
  destruct (ext E (send_WorkRequest q w) t) as [[]|]; cbn [fst snd length].
  - specialize (IH (t + 1)). unfold sent in *.
    destruct (exec E (for_range queues _) (t + 1)) as [tr [[]| |]];
      cbn [fst snd] in *; destruct IH as (Hl & Hc & Hsp & Hs);
      repeat split; try done.
    + unfold work_sends in *. rewrite omap_app, Hs. done.
    + unfold work_sends in *. rewrite omap_app. by apply prefix_cons.
  - repeat split; try done. cbn. apply prefix_cons, prefix_nil.
Qed.

Lemma exec_send_requests (E : env) (Data : list imap_Response)
    (queues : list nat) (t : nat) :
  sent (exec E (send_requests Data queues) t) (deliveries Data queues).
Proof.
  unfold send_requests, deliveries, work_items.
  revert t. induction Data as [|rsp Data IH]; intros t; [done|].
  assert (Hexp : (omap build_request (rsp :: Data)
                    ≫= λ w, (λ q : nat, (q, w)) <$> queues)
                 = match build_request rsp with
                   | Some w => ((λ q : nat, (q, w)) <$> queues)
                               ++ (omap build_request Data
                                     ≫= λ w, (λ q : nat, (q, w)) <$> queues)
                   | None => omap build_request Data
                               ≫= λ w, (λ q : nat, (q, w)) <$> queues
                   end).
  { cbn. by destruct (build_request rsp). }
  rewrite Hexp. clear Hexp.
  cbn [for_range]. unfold mbind at 1, proc_bind. rewrite exec_bind.
  unfold and_then.
  destruct (build_request rsp) as [w|] eqn:Hw.
  - pose proof (exec_send_to_all E w queues t) as Hq.
    destruct (exec E (for_range queues _) t) as [tr [[]| |]];
      destruct Hq as (Hl & Hc & Hsp & Hs); cbn [fst snd] in *; [|done|].
    + specialize (IH (t + length tr)). unfold sent in *.
      destruct (exec E (for_range Data _) (t + length tr)) as [tr' [[]| |]];
        cbn [fst snd] in *; destruct IH as (Hl' & Hc' & Hsp' & Hs').
      * unfold logs, work_sends, work_chans, spawns in *.
        rewrite !omap_app, Hl, Hl', Hc, Hc', Hsp, Hsp', Hs.
        repeat split; try done. by f_equal.
      * done.
      * unfold logs, work_sends, work_chans, spawns in *.
        rewrite !omap_app, Hl, Hl', Hc, Hc', Hsp, Hsp', Hs.
        repeat split; try done. by apply prefix_app.
    + repeat split; try done. cbn. by apply prefix_app_r.
  - cbn [exec fst snd length app]. rewrite Nat.add_0_r. apply IH.
Qed.

(** The loops that start the workers (lines 28-31 and 38-41): a run of
    such a loop logs nothing, sends nothing and, when it completes, has made
    the channels [made], started [workers] and returned a value that
    satisfies [post]. *)
Definition started {R : Type} (r : list entry * outcome R)
    (made : list nat) (workers : list (goroutine * proc unit))
    (post : R -> Prop) : Prop :=
  logs r.1 = [] ∧ work_sends r.1 = [] ∧
  match r.2 with
  | Returned x => work_chans r.1 = made ∧ spawns r.1 = workers ∧ post x
  | Panicked _ => False
  | Blocked => True
  end.

Lemma exec_for_n_go (E : env) (n : nat) (wg : WaitGroup) (name : goroutine)
    (child : proc unit) (t : nat) :
  started (exec E (for_n n (call (wg_Add wg 1);; Go name child (Ret tt))) t)
          [] (replicate n (name, child)) (fun _ => True).
Proof.
  revert t. induction n as [|n IH]; intros t; [by cbn|].
  cbn [for_n]. unfold mbind, proc_bind in *. cbn [call bind exec].
  destruct (ext E (wg_Add wg 1) t) as [[]|]; cbn [fst snd]; [|by cbn].
  specialize (IH (S (S t))). unfold started in *.
  destruct (exec E (for_n n _) (S (S t))) as [tr [[]| |]];
    cbn [fst snd] in *; destruct IH as (Hl & Hs & IH); try done.
  destruct IH as (Hc & Hsp & _).
  unfold logs, work_sends, work_chans, spawns in *.
  cbn [omap list_omap replicate]. by rewrite Hsp.
Qed.

(** The workers of each destination with the queue made for it. *)
Definition store_workers (dsts : list InboxInfo) (queues : list nat)
    (fetchRequests : nat) : list (goroutine * proc unit) :=
  dq ← zip dsts queues;
  replicate MaxImapConns
    (go_checkAndStoreMessages dq.1,
     checkAndStoreMessages dq.1 dq.2 fetchRequests storers).

Lemma exec_start_storers (E : env) (dsts : list InboxInfo)
    (fetchRequests : nat) (acc : list nat) (t : nat) :
  ∃ queues, length queues = length dsts ∧
    started (exec E (start_storers dsts fetchRequests acc) t)
            queues (store_workers dsts queues fetchRequests)
            (fun qs => qs = acc ++ queues).
Proof.
  revert acc t. induction dsts as [|dst dsts IH]; intros acc t.
  { exists []. unfold started. cbn. by rewrite app_nil_r. }
  cbn [start_storers]. unfold mbind, proc_bind.
  rewrite exec_bind, exec_call. unfold and_then.
  destruct (ext E make_chan_WorkRequest t) as [q|]; cbn [fst snd length].
  2:{ exists (replicate (length (dst :: dsts)) 0).
      split; [by rewrite length_replicate|]. by unfold started; cbn. }
  rewrite exec_bind. unfold and_then.
  pose proof (exec_for_n_go E MaxImapConns storers
                (go_checkAndStoreMessages dst)
                (checkAndStoreMessages dst q fetchRequests storers) (t + 1))
    as (Hl & Hs & Hsp).
  unfold mbind, proc_bind in Hl, Hs, Hsp.
  destruct (exec E (for_n MaxImapConns _) (t + 1)) as [tr [[]| |]];
    cbn [fst snd] in *; [|done|].
  2:{ exists (replicate (length (dst :: dsts)) 0).
      split; [by rewrite length_replicate|].
      unfold started, logs, work_sends in *. cbn. by rewrite Hl, Hs. }
  destruct Hsp as (Hc & Hsp & _).
  destruct (IH (acc ++ [q]) (t + 1 + length tr))
    as (queues & Hlen & Hl' & Hs' & IH').
  exists (q :: queues). split; [cbn; by rewrite Hlen|].
  destruct (exec E (start_storers dsts fetchRequests (acc ++ [q]))
              (t + 1 + length tr)) as [tr' [qs| |]];
    cbn [fst snd] in *.
  - destruct IH' as (Hc' & Hsp' & ->).
    unfold started, logs, work_sends, work_chans, spawns in *. cbn.
    rewrite !omap_app, Hl, Hl', Hs, Hs', Hc, Hsp, Hc', Hsp'.
    repeat split; try done. by rewrite <- app_assoc.
  - done.
  - unfold started, logs, work_sends in *. cbn.
    by rewrite !omap_app, Hl, Hl', Hs, Hs'.
Qed.

Lemma exec_close_all (E : env) (queues : list nat) (t : nat) :
  started (exec E (for_range queues (fun q => call (close_WorkRequest q))) t)
          [] [] (fun _ => True).
Proof.
  revert t. induction queues as [|q queues IH]; intros t; [by cbn|].
  cbn [for_range]. unfold mbind, proc_bind.
  rewrite exec_bind, exec_call. unfold and_then.
  destruct (ext E (close_WorkRequest q) t) as [[]|]; cbn [fst snd length];
    [|by cbn].
  specialize (IH (t + 1)). unfold started in *.
  destruct (exec E (for_range queues _) (t + 1)) as [tr [[]| |]];
    cbn [fst snd] in *; destruct IH as (Hl & Hs & IH); try done.
Qed.

(** What one queue receives: every work item, in listing order. *)
Lemma deliveries_queue (Data : list imap_Response) (queues : list nat) (q : nat) :
  NoDup queues → q ∈ queues →
  (filter (fun x => x.1 = q) (deliveries Data queues)).*2 = work_items Data.
Proof.
  intros Hnd Hq. unfold deliveries.
  assert (Hone : ∀ w, (filter (fun x : nat * WorkRequest => x.1 = q)
                         ((fun q' => (q', w)) <$> queues)).*2 = [w]).
  { intros w. clear -Hnd Hq. induction queues as [|q' queues IH].
    - by apply elem_of_nil in Hq.
    - apply NoDup_cons in Hnd as [Hnotin Hnd].
      rewrite fmap_cons, filter_cons. cbn [fst].
      destruct (decide (q' = q)) as [->|Hne].
      + rewrite fmap_cons. cbn [snd]. f_equal. clear -Hnotin.
        induction queues as [|q'' queues IH]; [done|].
        apply not_elem_of_cons in Hnotin as [Hne Hnotin].
        rewrite fmap_cons, filter_cons. cbn [fst].
        rewrite decide_False by done. by apply IH.
      + apply IH; [done|]. apply elem_of_cons in Hq as [->|Hq]; done. }
  induction (work_items Data) as [|w ws IH]; [done|].
  rewrite bind_cons, filter_app, fmap_app, Hone. cbn. by f_equal.
Qed.

(** Lines 67-75: the two waits, the close of the fetch queue and the last
    log line. *)
Definition wound_up (r : list entry * outcome (option error)) : Prop :=
  work_sends r.1 = [] ∧ work_chans r.1 = [] ∧ spawns r.1 = [] ∧
  match r.2 with
  | Returned err =>
      err = None ∧ logs r.1 = ["search and store processes complete"]
  | Blocked => logs r.1 `prefix_of` ["search and store processes complete"]
  | Panicked _ => False
  end.

Lemma exec_wait_and_close (E : env) (fetchRequests : nat) (t : nat) :
  wound_up
    (exec E
       (bind (call (wg_Wait storers)) (fun _ =>
        bind (call (close_fetchRequest fetchRequests)) (fun _ =>
        bind (call (wg_Wait fetchers)) (fun _ =>
        bind (call (log_Printf "search and store processes complete")) (fun _ =>
        Ret (None : option error)))))) t).
Proof.
  unfold wound_up. cbn [exec bind call].
  repeat match goal with
         | |- context [ext E ?e ?t'] => destruct (ext E e t') as [[]|]
         end; cbn; repeat split; try done; apply prefix_nil.
Qed.

(** What a run of [SearchAndStore] over the listing [Data] shows: one queue
    per destination, the workers of each destination started on its queue,
    every work item sent to every queue, and a single log line at the end. *)
Definition reconciled (r : list entry * outcome (option error))
    (src : InboxInfo) (dsts : list InboxInfo) (Data : list imap_Response)
    : Prop :=
  ∃ (fetchRequests : nat) (queues : list nat),
    length queues = length dsts ∧
    match r.2 with
    | Returned err =>
        err = None ∧
        work_chans r.1 = queues ∧
        spawns r.1
          = replicate MaxImapConns
              (go_fetchEmails, fetchEmails src fetchRequests fetchers)
            ++ store_workers dsts queues fetchRequests ∧
        work_sends r.1 = deliveries Data queues ∧
        logs r.1 = ["search and store processes complete"]
    | Blocked =>
        work_sends r.1 `prefix_of` deliveries Data queues ∧
        logs r.1 `prefix_of` ["search and store processes complete"]
    | Panicked _ => False
    end.

Lemma exec_SearchAndStore (E : env) (src : InboxInfo) (dsts : list InboxInfo)
    (t : nat) (Data : list imap_Response) :
  ext E (GetAllMessages src) t = Some (Ok Data) →
  reconciled (exec E (SearchAndStore src dsts) t) src dsts Data.
Proof.
  intros Hlist. unfold SearchAndStore, start_fetchers, mbind, proc_bind.
  rewrite exec_bind, exec_call, Hlist. unfold and_then. cbn [fst snd length].
  rewrite exec_bind, exec_call. unfold and_then.
  destruct (ext E make_chan_fetchRequest (t + 1)) as [fq|]; cbn [fst snd length].
  2:{ exists 0, (replicate (length dsts) 0).
      split; [by rewrite length_replicate|]. cbn.
      split; apply prefix_nil. }
  exists fq.
  rewrite exec_bind. unfold and_then.
  pose proof (exec_for_n_go E MaxImapConns fetchers go_fetchEmails
                (fetchEmails src fq fetchers) (t + 1 + 1)) as (Hl1 & Hs1 & H1).
  unfold mbind, proc_bind in Hl1, Hs1, H1.
  destruct (exec E (for_n MaxImapConns _) (t + 1 + 1)) as [tr1 [[]| |]];
    cbn [fst snd] in *; [|done|].
  2:{ exists (replicate (length dsts) 0).
      split; [by rewrite length_replicate|].
      unfold logs, work_sends in *. cbn. rewrite Hl1, Hs1.
      split; apply prefix_nil. }
  destruct H1 as (Hc1 & Hsp1 & _).
  rewrite exec_bind. unfold and_then.
  destruct (exec_start_storers E dsts fq [] (t + 1 + 1 + length tr1))
    as (queues & Hlen & Hl2 & Hs2 & H2).
  exists queues. split; [done|].
  destruct (exec E (start_storers dsts fq []) (t + 1 + 1 + length tr1))
    as [tr2 [qs| |]]; cbn [fst snd] in *; [|done|].
  2:{ unfold logs, work_sends in *. cbn. rewrite !omap_app, Hl1, Hs1, Hl2, Hs2.
      split; apply prefix_nil. }
  destruct H2 as (Hc2 & Hsp2 & ->). cbn [app].
  rewrite exec_bind. unfold and_then.
  pose proof (exec_send_requests E Data queues
                (t + 1 + 1 + length tr1 + length tr2))
    as (Hl3 & Hc3 & Hsp3 & H3).
  destruct (exec E (send_requests Data queues) _) as [tr3 [[]| |]];
    cbn [fst snd] in *; [|done|].
  2:{ unfold logs, work_sends in *. cbn.
      rewrite !omap_app, Hl1, Hs1, Hl2, Hs2, Hl3. cbn.
      split; [done|apply prefix_nil]. }
  rewrite exec_bind. unfold and_then.
  pose proof (exec_close_all E queues
                (t + 1 + 1 + length tr1 + length tr2 + length tr3))
    as (Hl4 & Hs4 & H4).
  destruct (exec E (for_range queues _) _) as [tr4 [[]| |]];
    cbn [fst snd] in *; [|done|].
  2:{ unfold logs, work_sends in *. cbn.
      rewrite !omap_app, Hl1, Hs1, Hl2, Hs2, Hl3, H3, Hl4, Hs4. cbn.
      rewrite app_nil_r. split; [done|apply prefix_nil]. }
  destruct H4 as (Hc4 & Hsp4 & _).
  assert (Hobs :
    ∀ tr5, logs (Called (GetAllMessages src) (Some (Ok Data))
                 :: Called make_chan_fetchRequest (Some fq)
                 :: tr1 ++ tr2 ++ tr3 ++ tr4 ++ tr5) = logs tr5 ∧
           work_sends (Called (GetAllMessages src) (Some (Ok Data))
                 :: Called make_chan_fetchRequest (Some fq)
                 :: tr1 ++ tr2 ++ tr3 ++ tr4 ++ tr5)
             = deliveries Data queues ++ work_sends tr5 ∧
           work_chans (Called (GetAllMessages src) (Some (Ok Data))
                 :: Called make_chan_fetchRequest (Some fq)
                 :: tr1 ++ tr2 ++ tr3 ++ tr4 ++ tr5)
             = queues ++ work_chans tr5 ∧
           spawns (Called (GetAllMessages src) (Some (Ok Data))
                 :: Called make_chan_fetchRequest (Some fq)
                 :: tr1 ++ tr2 ++ tr3 ++ tr4 ++ tr5)
             = replicate MaxImapConns
                 (go_fetchEmails, fetchEmails src fq fetchers)
               ++ store_workers dsts queues fq ++ spawns tr5).
  { intros tr5. unfold logs, work_sends, work_chans, spawns in *. cbn.
    rewrite !omap_app, Hl1, Hs1, Hc1, Hsp1, Hl2, Hs2, Hc2, Hsp2, Hl3, Hc3,
      Hsp3, H3, Hl4, Hs4, Hc4, Hsp4. cbn. by rewrite ?app_nil_r. }
  pose proof (exec_wait_and_close E fq
                (t + 1 + 1 + length tr1 + length tr2 + length tr3 + length tr4))
    as (Hs5 & Hc5 & Hsp5 & H5).
  destruct (exec E (bind (call (wg_Wait storers)) _) _) as [tr5 [err| |]];
    cbn [fst snd app] in *; [|done|].
  - destruct H5 as [-> Hl5].
    destruct (Hobs tr5) as (-> & -> & -> & ->).
    by rewrite Hl5, Hs5, Hc5, Hsp5, !app_nil_r.
  - destruct (Hobs tr5) as (-> & -> & _).
    by rewrite Hs5, !app_nil_r.
Qed.


(** X3. The value returned. [SearchAndStore] returns an error exactly when
    the listing failed, and then that error; after a listing that succeeded
    it returns nil or does not return. *)
Lemma SearchAndStore_error_iff_listing_fails
    (E : env) (src : InboxInfo) (dsts : list InboxInfo) (t : nat) (err : error) :
  (exec E (SearchAndStore src dsts) t).2 = Returned (Some err) ↔
  ext E (GetAllMessages src) t = Some (Err err) ∧
  ext E (log_Printf "Unable to get all messages!") (S t) = Some ().
Proof.
  split.
  - destruct (ext E (GetAllMessages src) t) as [[Data|err']|] eqn:Hlist.
    + destruct (exec_SearchAndStore E src dsts t Hlist) as (fq & qs & _ & H).
      intros Hret. rewrite Hret in H. by destruct H.
    + unfold SearchAndStore, mbind, proc_bind. cbn [exec bind call].
      rewrite Hlist. cbn [exec bind call fst snd].
      destruct (ext E (log_Printf "Unable to get all messages!") (S t))
        as [[]|]; cbn; [by intros [= ->]|done].
    + unfold SearchAndStore, mbind, proc_bind. cbn [exec bind call].
      by rewrite Hlist.
  - intros [Hlist Hlog].
    unfold SearchAndStore, mbind, proc_bind. cbn [exec bind call].
    rewrite Hlist. cbn [exec bind call fst snd]. by rewrite Hlog.
Qed.


(** ** The workers, whatever they meet *)

(** A [range] loop turn by turn: the value received together with what the
    body makes of it. *)
Section TurnInduction.

Variable Φ : list entry -> Prop.
Hypothesis Φ_nil : Φ [].
Hypothesis Φ_app : ∀ tr1 tr2, Φ tr1 → Φ tr2 → Φ (tr1 ++ tr2).

Lemma exec_RangeWork_turns (E : env) {R : Type} (ch : nat)
    (body : WorkRequest -> proc unit) (k : proc R) (t : nat) :
  (∀ w t', Φ (Got_WorkRequest ch w :: (exec E (body w) t').1)) →
  (∀ t', Φ (exec E k t').1) →
  Φ (exec E (RangeWork ch body k) t).1.
Proof using Φ_nil Φ_app.
  intros Hturn Hk. cbn.
  generalize (inbox_WorkRequest E ch).1 as items. intros items.
  revert t. induction items as [|w items IHi]; intros t.
  - destruct (inbox_WorkRequest E ch).2; [apply Hk|apply Φ_nil].
  - pose proof (Hturn w (S t)) as Hw.
    destruct (exec E (body w) (S t)) as [tr [r| |]]; cbn in *; try done.
    apply (Φ_app (tr1 := _ :: _)); [done|apply IHi].
Qed.

Lemma exec_RangeFetch_turns (E : env) {R : Type} (ch : nat)
    (body : fetchRequest -> proc unit) (k : proc R) (t : nat) :
  (∀ r t', Φ (Got_fetchRequest ch r :: (exec E (body r) t').1)) →
  (∀ t', Φ (exec E k t').1) →
  Φ (exec E (RangeFetch ch body k) t).1.
Proof using Φ_nil Φ_app.
  intros Hturn Hk. cbn.
  generalize (inbox_fetchRequest E ch).1 as items. intros items.
  revert t. induction items as [|w items IHi]; intros t.
  - destruct (inbox_fetchRequest E ch).2; [apply Hk|apply Φ_nil].
  - pose proof (Hturn w (S t)) as Hw.
    destruct (exec E (body w) (S t)) as [tr [r| |]]; cbn in *; try done.
    apply (Φ_app (tr1 := _ :: _)); [done|apply IHi].
Qed.

End TurnInduction.

(** A panic of a composed process comes from one of its parts. [P tr m]:
    the trace [tr] accounts for the panic [m]. *)
Section PanicInduction.

Variable P : list entry -> string -> Prop.
Hypothesis P_before : ∀ tr0 tr m, P tr m → P (tr0 ++ tr) m.
Hypothesis P_after : ∀ tr tr1 m, P tr m → P (tr ++ tr1) m.

Definition accounted {R : Type} (r : list entry * outcome R) : Prop :=
  ∀ m, r.2 = Panicked m → P r.1 m.

Lemma accounted_call (E : env) {X : Type} (e : event X) (t : nat) :
  accounted (exec E (call e) t).
Proof. rewrite exec_call. by destruct (ext E e t). Qed.

Lemma accounted_bind (E : env) {R T : Type} (p : proc R) (f : R -> proc T)
    (t : nat) :
  accounted (exec E p t) →
  (∀ x t', accounted (exec E (f x) t')) →
  accounted (exec E (bind p f) t).
Proof using P_before.
  intros Hp Hf. rewrite exec_bind. unfold and_then, accounted in *.
  destruct (exec E p t) as [tr [r| |]]; cbn in *.
  - intros m Hm. apply P_before. by apply Hf.
  - intros m [= <-]. by apply Hp.
  - done.
Qed.

Lemma accounted_Vis (E : env) {R X : Type} (e : event X) (k : X -> proc R)
    (t : nat) :
  (∀ x t', accounted (exec E (k x) t')) →
  accounted (exec E (Vis e k) t).
Proof using P_before.
  intros Hk. unfold accounted. cbn.
  destruct (ext E e t) as [x|]; cbn; [|done].
  intros m Hm. apply (P_before [_]). by apply Hk.
Qed.

Lemma accounted_defer_call (E : env) {R : Type} (e : event unit) (p : proc R)
    (t : nat) :
  accounted (exec E p t) → accounted (exec E (defer (call e) p) t).
Proof using P_after.
  intros Hp. rewrite exec_defer. unfold accounted in *.
  destruct (exec E p t) as [tr [r| |]]; cbn in *; try done.
  - by destruct (ext E e (t + length tr)).
  - destruct (ext E e (t + length tr)); cbn; [|done].
    intros m' [= <-]. by apply P_after, Hp.
Qed.

Lemma accounted_RangeWork (E : env) {R : Type} (ch : nat)
    (body : WorkRequest -> proc unit) (k : proc R) (t : nat) :
  (∀ w t', accounted (exec E (body w) t')) →
  (∀ t', accounted (exec E k t')) →
  accounted (exec E (RangeWork ch body k) t).
Proof using P_before P_after.
  intros Hbody Hk. unfold accounted. cbn.
  generalize (inbox_WorkRequest E ch).1 as items. intros items.
  revert t. induction items as [|w items IHi]; intros t m.
  - destruct (inbox_WorkRequest E ch).2; [apply Hk|done].
  - pose proof (Hbody w (S t)) as Hw. unfold accounted in Hw.
    destruct (exec E (body w) (S t)) as [tr [r| |]]; cbn in *; try done.
    + intros Hm. apply (P_before [_]), P_before. by apply IHi.
    + intros [= <-]. apply (P_before [_]). by apply Hw.
Qed.

Lemma accounted_RangeFetch (E : env) {R : Type} (ch : nat)
    (body : fetchRequest -> proc unit) (k : proc R) (t : nat) :
  (∀ r t', accounted (exec E (body r) t')) →
  (∀ t', accounted (exec E k t')) →
  accounted (exec E (RangeFetch ch body k) t).
Proof using P_before P_after.
  intros Hbody Hk. unfold accounted. cbn.
  generalize (inbox_fetchRequest E ch).1 as items. intros items.
  revert t. induction items as [|w items IHi]; intros t m.
  - destruct (inbox_fetchRequest E ch).2; [apply Hk|done].
  - pose proof (Hbody w (S t)) as Hw. unfold accounted in Hw.
    destruct (exec E (body w) (S t)) as [tr [r| |]]; cbn in *; try done.
    + intros Hm. apply (P_before [_]), P_before. by apply IHi.
    + intros [= <-]. apply (P_before [_]). by apply Hw.
Qed.

End PanicInduction.

(** X4. A store worker panics in one case only: a search that succeeded
    without data, at [cmd.Data[0]] (line 99). The panic is then the index
    error and the trace shows that search. *)
Theorem checkAndStoreMessages_panics_only_on_empty_search
    (E : env) (dst : InboxInfo) (storeRequests fetchRequests : nat)
    (wg : WaitGroup) (t : nat) (m : string) :
  (exec E (checkAndStoreMessages dst storeRequests fetchRequests wg) t).2
    = Panicked m →
  m = "index out of range" ∧
  ∃ spec, (spec, Some (Ok []))
          ∈ searches (exec E (checkAndStoreMessages dst storeRequests
                                fetchRequests wg) t).1.
Proof.
  set (P := fun (tr : list entry) (m : string) =>
    m = "index out of range" ∧ ∃ spec, (spec, Some (Ok [])) ∈ searches tr).
  assert (Hb : ∀ tr0 tr m, P tr m → P (tr0 ++ tr) m).
  { intros tr0 tr m' [-> [spec Hin]]. split; [done|]. exists spec.
    unfold searches. rewrite omap_app. apply elem_of_app. by right. }
  assert (Ha : ∀ tr tr1 m, P tr m → P (tr ++ tr1) m).
  { intros tr tr1 m' [-> [spec Hin]]. split; [done|]. exists spec.
    unfold searches. rewrite omap_app. apply elem_of_app. by left. }
  revert m. change (accounted P (exec E (checkAndStoreMessages dst storeRequests
                                           fetchRequests wg) t)).
  unfold checkAndStoreMessages.
  apply accounted_defer_call; [done|].
  cbn [bind mbind proc_bind call].
  apply accounted_Vis; [done|]. intros [conn|err] t'.
  2:{ apply (accounted_call P). }
  apply accounted_defer_call; [done|].
  apply accounted_RangeWork; [done|done| |intros t''; apply (accounted_call P)].
  intros w t''. unfold accounted, checkAndStoreMessages_body.
  run_body. all: cbn; intros m' Hm'; try done.
  injection Hm' as <-. split; [done|]. eexists. apply list_elem_of_here.
Qed.

(** X5. A fetch worker panics in one case only: [cache.Get] handed back an
    error and no item, and line 152 read the value of that item. *)
Theorem fetchEmails_panics_only_on_cache_error
    (E : env) (src : InboxInfo) (requests : nat) (wg : WaitGroup) (t : nat)
    (m : string) :
  (exec E (fetchEmails src requests wg) t).2 = Panicked m →
  m = "invalid memory address or nil pointer dereference" ∧
  ∃ key err,
    Called (cache_Get (memcache_New MemcacheServer) key)
      (Some (None, Some err))
    ∈ (exec E (fetchEmails src requests wg) t).1.
Proof.
  set (P := fun (tr : list entry) (m : string) =>
    m = "invalid memory address or nil pointer dereference" ∧
    ∃ key err, Called (cache_Get (memcache_New MemcacheServer) key)
                 (Some (None, Some err)) ∈ tr).
  assert (Hb : ∀ tr0 tr m, P tr m → P (tr0 ++ tr) m).
  { intros tr0 tr m' [-> (key & err & Hin)]. split; [done|].
    exists key, err. apply elem_of_app. by right. }
  assert (Ha : ∀ tr tr1 m, P tr m → P (tr ++ tr1) m).
  { intros tr tr1 m' [-> (key & err & Hin)]. split; [done|].
    exists key, err. apply elem_of_app. by left. }
  revert m. change (accounted P (exec E (fetchEmails src requests wg) t)).
  unfold fetchEmails.
  apply accounted_defer_call; [done|].
  cbn [bind mbind proc_bind call].
  apply accounted_Vis; [done|]. intros [conn|err] t'.
  2:{ apply (accounted_call P). }
  apply accounted_RangeFetch; [done|done| |done].
  intros r t''. unfold accounted, fetchEmails_body.
  run_body. all: cbn; intros m' Hm'; try done.
  injection Hm' as <-. split; [done|]. exists (MessageId r), e.
  destruct a as [item err]. cbn in *. subst. apply list_elem_of_here.
Qed.

(** A run in which [wg.Done()] has returned once, as the last call, when
    the run came to an end, and has not returned when it did not. *)
Definition calls_Done_last {R : Type} (wg : WaitGroup)
    (r : list entry * outcome R) : Prop :=
  match r.2 with
  | Blocked => ∀ a, Called (wg_Done wg) (Some a) ∉ r.1
  | _ => ∃ tr, r.1 = tr ++ [Called (wg_Done wg) (Some ())] ∧ dones tr = []
  end.

Lemma dones_none (tr : list entry) (wg : WaitGroup) (a : option unit) :
  dones tr = [] → Called (wg_Done wg) a ∉ tr.
Proof.
  intros Hd Hin. apply list_elem_of_split in Hin as (tr1 & tr2 & ->).
  unfold dones in Hd. rewrite omap_app in Hd. cbn in Hd.
  by apply app_eq_nil in Hd as [_ Hd].
Qed.

Lemma exec_defer_Done (E : env) {R : Type} (wg : WaitGroup) (p : proc R)
    (t : nat) :
  dones (exec E p t).1 = [] →
  calls_Done_last wg (exec E (defer (call (wg_Done wg)) p) t).
Proof.
  intros Hd. rewrite exec_defer. unfold calls_Done_last.
  destruct (exec E p t) as [tr [r| |]]; cbn in *.
  - destruct (ext E (wg_Done wg) (t + length tr)) as [[]|]; cbn.
    + by exists tr.
    + intros a Hin. apply elem_of_app in Hin as [Hin|Hin].
      * by apply dones_none in Hin.
      * by apply list_elem_of_singleton in Hin.
  - destruct (ext E (wg_Done wg) (t + length tr)) as [[]|]; cbn.
    + by exists tr.
    + intros a Hin. apply elem_of_app in Hin as [Hin|Hin].
      * by apply dones_none in Hin.
      * by apply list_elem_of_singleton in Hin.
  - intros a Hin. by apply dones_none in Hin.
Qed.

(** X6. Both workers call [wg.Done()] once and last. A run of a worker
    that returns or panics ends with that call, and makes no other
    [wg.Done()] before it; in a run that waits for ever, no [wg.Done()] has
    returned. *)
Theorem workers_call_Done_last
    (E : env) (dst src : InboxInfo) (storeRequests fetchRequests : nat)
    (wg : WaitGroup) (t : nat) :
  calls_Done_last wg
    (exec E (checkAndStoreMessages dst storeRequests fetchRequests wg) t) ∧
  calls_Done_last wg (exec E (fetchEmails src fetchRequests wg) t).
Proof.
  assert (Happ : ∀ tr1 tr2, dones tr1 = [] → dones tr2 = [] →
                            dones (tr1 ++ tr2) = []).
  { unfold dones. intros tr1 tr2 H1 H2. by rewrite omap_app, H1, H2. }
  assert (Hcall : ∀ (X : Type) (e : event X) t',
            (∀ a, dones [Called e a] = []) → dones (exec E (call e) t').1 = []).
  { intros X e t' He. rewrite exec_call. destruct (ext E e t'); apply He. }
  split.
  - unfold checkAndStoreMessages. apply exec_defer_Done.
    cbn [bind mbind proc_bind call].
    apply (exec_Vis_trace (fun tr => dones tr = [])); [done|done|].
    intros [conn|err] t'; [|by apply Hcall].
    apply (exec_defer_trace (fun tr => dones tr = [])); [done| |].
    2:{ intros t''. by apply Hcall. }
    apply (exec_RangeWork_trace (fun tr => dones tr = [])); try done.
    + intros w t''. unfold checkAndStoreMessages_body. run_body. all: by cbn.
    + intros t''. by apply Hcall.
  - unfold fetchEmails. apply exec_defer_Done.
    cbn [bind mbind proc_bind call].
    apply (exec_Vis_trace (fun tr => dones tr = [])); [done|done|].
    intros [conn|err] t'; [|by apply Hcall].
    apply (exec_RangeFetch_trace (fun tr => dones tr = [])); try done.
    intros r t''. unfold fetchEmails_body. run_body. all: by cbn.
Qed.

(** X7. Every fetch request that a store worker sends goes to the fetch
    queue it was given and is for a work request it received: it carries
    that request's value and UID and a response channel the worker has
    made, and the destination was searched for that value with no match. *)
Theorem checkAndStoreMessages_fetch_requests
    (E : env) (dst : InboxInfo) (storeRequests fetchRequests : nat)
    (wg : WaitGroup) (t : nat) (ch : nat) (fr : fetchRequest) :
  (ch, fr) ∈ fetch_requests
               (exec E (checkAndStoreMessages dst storeRequests fetchRequests
                          wg) t).1 →
  ch = fetchRequests ∧
  ∃ w rsp Data,
    Got_WorkRequest storeRequests w
      ∈ (exec E (checkAndStoreMessages dst storeRequests fetchRequests wg) t).1 ∧
    MessageId fr = Value w ∧ fr_UID fr = UID w ∧
    Called make_chan_FieldMap (Some (Response fr))
      ∈ (exec E (checkAndStoreMessages dst storeRequests fetchRequests wg) t).1 ∧
    (["HEADER"; Header w; Value w], Some (Ok (rsp :: Data)))
      ∈ searches (exec E (checkAndStoreMessages dst storeRequests
                            fetchRequests wg) t).1 ∧
    SearchResults rsp = [].
Proof.
  set (Φ := fun tr : list entry =>
    ∀ ch fr, (ch, fr) ∈ fetch_requests tr →
      ch = fetchRequests ∧
      ∃ w rsp Data,
        Got_WorkRequest storeRequests w ∈ tr ∧
        MessageId fr = Value w ∧ fr_UID fr = UID w ∧
        Called make_chan_FieldMap (Some (Response fr)) ∈ tr ∧
        (["HEADER"; Header w; Value w], Some (Ok (rsp :: Data))) ∈ searches tr ∧
        SearchResults rsp = []).
  assert (Hnil : Φ []) by (intros ch' fr' Hin; by apply not_elem_of_nil in Hin).
  assert (Happ : ∀ tr1 tr2, Φ tr1 → Φ tr2 → Φ (tr1 ++ tr2)).
  { intros tr1 tr2 H1 H2 ch' fr' Hin. unfold fetch_requests in Hin.
    rewrite omap_app in Hin. unfold searches. rewrite omap_app.
    apply elem_of_app in Hin as [Hin|Hin];
      [destruct (H1 _ _ Hin) as (-> & w & rsp & Data & ? & ? & ? & ? & ? & ?)
      |destruct (H2 _ _ Hin) as (-> & w & rsp & Data & ? & ? & ? & ? & ? & ?)];
      (split; [done|]); exists w, rsp, Data;
      rewrite !elem_of_app; auto 10. }
  assert (Hcall : ∀ (X : Type) (e : event X) t',
            (∀ a, fetch_requests [Called e a] = []) →
            Φ (exec E (call e) t').1).
  { intros X e t' He ch' fr' Hin. rewrite exec_call in Hin.
    destruct (ext E e t'); cbn [fst] in Hin; rewrite He in Hin;
      by apply not_elem_of_nil in Hin. }
  revert ch fr.
  change (Φ (exec E (checkAndStoreMessages dst storeRequests fetchRequests
                       wg) t).1).
  unfold checkAndStoreMessages.
  apply exec_defer_trace; [done| |intros t'; by apply Hcall].
  cbn [bind mbind proc_bind call].
  apply exec_Vis_trace; [done| |].
  { intros a ch' fr' Hin. by apply not_elem_of_nil in Hin. }
  intros [conn|err] t'; [|by apply Hcall].
  apply exec_defer_trace; [done| |intros t''; by apply Hcall].
  apply exec_RangeWork_turns; [done|done| |intros t''; by apply Hcall].
  intros w t''. unfold checkAndStoreMessages_body. run_body.
  all: cbn; intros ch' fr' Hin; try (by apply not_elem_of_nil in Hin).
  all: apply list_elem_of_singleton in Hin; injection Hin as -> ->.
  all: split; [done|]; eexists w, _, _; cbn.
  all: rewrite ?elem_of_cons; split_and!; eauto 10.
  all: by apply nil_length_inv.
Qed.

(** Items added to memcache, with the client used. *)
Definition cache_stores (tr : list entry) : list (memcache_Client * Item) :=
  omap (fun x => match x with
                 | Called e _ =>
                     match e with
                     | cache_Add c item => Some (c, item)
                     | _ => None
                     end
                 | _ => None
                 end) tr.

(** X8. What a fetch worker adds to the cache is what it has just sent.
    Every [cache.Add] of a run is for a request the worker received: the
    key is the request's message id, the value is the serialization of the
    fields of the first message that the live fetch of the request's UID
    returned, and those fields were sent on the request's response
    channel. *)
Theorem fetchEmails_caches_what_it_sent
    (E : env) (src : InboxInfo) (requests : nat) (wg : WaitGroup) (t : nat)
    (c : memcache_Client) (item : Item) :
  (c, item) ∈ cache_stores (exec E (fetchEmails src requests wg) t).1 →
  c = memcache_New MemcacheServer ∧
  ∃ r conn rsp Data,
    Got_fetchRequest requests r ∈ (exec E (fetchEmails src requests wg) t).1 ∧
    Key item = MessageId r ∧
    serialize (Attrs (rsp_MessageInfo rsp)) = Ok (ItemValue item) ∧
    (Response r, Attrs (rsp_MessageInfo rsp))
      ∈ responses (exec E (fetchEmails src requests wg) t).1 ∧
    Called (UIDFetch conn [fr_UID r] ["INTERNALDATE"; "BODY[]"])
      (Some (Ok (rsp :: Data)))
      ∈ (exec E (fetchEmails src requests wg) t).1.
Proof.
  set (Φ := fun tr : list entry =>
    ∀ c item, (c, item) ∈ cache_stores tr →
      c = memcache_New MemcacheServer ∧
      ∃ r conn rsp Data,
        Got_fetchRequest requests r ∈ tr ∧
        Key item = MessageId r ∧
        serialize (Attrs (rsp_MessageInfo rsp)) = Ok (ItemValue item) ∧
        (Response r, Attrs (rsp_MessageInfo rsp)) ∈ responses tr ∧
        Called (UIDFetch conn [fr_UID r] ["INTERNALDATE"; "BODY[]"])
          (Some (Ok (rsp :: Data))) ∈ tr).
  assert (Hnil : Φ []) by (intros c' i' Hin; by apply not_elem_of_nil in Hin).
  assert (Happ : ∀ tr1 tr2, Φ tr1 → Φ tr2 → Φ (tr1 ++ tr2)).
  { intros tr1 tr2 H1 H2 c' i' Hin. unfold cache_stores in Hin.
    rewrite omap_app in Hin. unfold responses. rewrite omap_app.
    apply elem_of_app in Hin as [Hin|Hin];
      [destruct (H1 _ _ Hin) as (-> & r & conn & rsp & Data & ? & ? & ? & ? & ?)
      |destruct (H2 _ _ Hin) as (-> & r & conn & rsp & Data & ? & ? & ? & ? & ?)];
      (split; [done|]); exists r, conn, rsp, Data;
      rewrite !elem_of_app; auto 10. }
  assert (Hcall : ∀ (X : Type) (e : event X) t',
            (∀ a, cache_stores [Called e a] = []) →
            Φ (exec E (call e) t').1).
  { intros X e t' He c' i' Hin. rewrite exec_call in Hin.
    destruct (ext E e t'); cbn [fst] in Hin; rewrite He in Hin;
      by apply not_elem_of_nil in Hin. }
  revert c item.
  change (Φ (exec E (fetchEmails src requests wg) t).1).
  unfold fetchEmails.
  apply exec_defer_trace; [done| |intros t'; by apply Hcall].
  cbn [bind mbind proc_bind call].
  apply exec_Vis_trace; [done| |].
  { intros a c' i' Hin. by apply not_elem_of_nil in Hin. }
  intros [conn|err] t'; [|by apply Hcall].
  apply exec_RangeFetch_turns; [done|done| |done].
  intros r t''. unfold fetchEmails_body. run_body.
  all: cbn; intros c' i' Hin; try (by apply not_elem_of_nil in Hin).
  all: apply list_elem_of_singleton in Hin; injection Hin as -> ->.
  all: split; [done|]; eexists r, conn, _, _; cbn.
  all: rewrite ?elem_of_cons; split_and!; eauto 10.
Qed.




(** X11. The workers keep to their parts. A store worker never fetches from
    the source, never reads or fills the cache and never answers a fetch
    request; a fetch worker never searches a mailbox, never appends, never
    sends a fetch request and never closes a connection. Neither sends a
    work request, makes a work queue or starts a goroutine. *)
Theorem workers_keep_to_their_parts
    (E : env) (dst src : InboxInfo) (storeRequests fetchRequests : nat)
    (wg : WaitGroup) (t : nat) :
  (live_fetches (exec E (checkAndStoreMessages dst storeRequests
                           fetchRequests wg) t).1 = [] ∧
   cache_gets (exec E (checkAndStoreMessages dst storeRequests
                         fetchRequests wg) t).1 = [] ∧
   cache_stores (exec E (checkAndStoreMessages dst storeRequests
                           fetchRequests wg) t).1 = [] ∧
   responses (exec E (checkAndStoreMessages dst storeRequests
                        fetchRequests wg) t).1 = [] ∧
   work_sends (exec E (checkAndStoreMessages dst storeRequests
                         fetchRequests wg) t).1 = [] ∧
   work_chans (exec E (checkAndStoreMessages dst storeRequests
                         fetchRequests wg) t).1 = [] ∧
   spawns (exec E (checkAndStoreMessages dst storeRequests
                     fetchRequests wg) t).1 = []) ∧
  (searches (exec E (fetchEmails src fetchRequests wg) t).1 = [] ∧
   appends (exec E (fetchEmails src fetchRequests wg) t).1 = [] ∧
   fetch_requests (exec E (fetchEmails src fetchRequests wg) t).1 = [] ∧
   received (exec E (fetchEmails src fetchRequests wg) t).1 = [] ∧
   closes (exec E (fetchEmails src fetchRequests wg) t).1 = [] ∧
   work_sends (exec E (fetchEmails src fetchRequests wg) t).1 = [] ∧
   work_chans (exec E (fetchEmails src fetchRequests wg) t).1 = [] ∧
   spawns (exec E (fetchEmails src fetchRequests wg) t).1 = []).
Proof.
  split.
  - set (Φ := fun tr : list entry =>
      live_fetches tr = [] ∧ cache_gets tr = [] ∧ cache_stores tr = [] ∧
      responses tr = [] ∧ work_sends tr = [] ∧ work_chans tr = [] ∧
      spawns tr = []).
    assert (Happ : ∀ tr1 tr2, Φ tr1 → Φ tr2 → Φ (tr1 ++ tr2)).
    { unfold Φ, live_fetches, cache_gets, cache_stores, responses, work_sends,
        work_chans, spawns.
      intros tr1 tr2 H1 H2. rewrite !omap_app.
      destruct H1 as (-> & -> & -> & -> & -> & -> & ->).
      by destruct H2 as (-> & -> & -> & -> & -> & -> & ->). }
    assert (Hcall : ∀ (X : Type) (e : event X) t',
              (∀ a, Φ [Called e a]) → Φ (exec E (call e) t').1).
    { intros X e t' He. rewrite exec_call. destruct (ext E e t'); apply He. }
    change (Φ (exec E (checkAndStoreMessages dst storeRequests fetchRequests
                         wg) t).1).
    unfold checkAndStoreMessages.
    apply exec_defer_trace; [done| |intros t'; by apply Hcall].
    cbn [bind mbind proc_bind call].
    apply exec_Vis_trace; [done|done|].
    intros [conn|err] t'; [|by apply Hcall].
    apply exec_defer_trace; [done| |intros t''; by apply Hcall].
    apply exec_RangeWork_trace; [done|done|done| |intros t''; by apply Hcall].
    intros w t''. unfold checkAndStoreMessages_body. run_body. all: by cbn.
  - set (Φ := fun tr : list entry =>
      searches tr = [] ∧ appends tr = [] ∧ fetch_requests tr = [] ∧
      received tr = [] ∧ closes tr = [] ∧ work_sends tr = [] ∧
      work_chans tr = [] ∧ spawns tr = []).
    assert (Happ : ∀ tr1 tr2, Φ tr1 → Φ tr2 → Φ (tr1 ++ tr2)).
    { unfold Φ, searches, appends, fetch_requests, received, closes,
        work_sends, work_chans, spawns.
      intros tr1 tr2 H1 H2. rewrite !omap_app.
      destruct H1 as (-> & -> & -> & -> & -> & -> & -> & ->).
      by destruct H2 as (-> & -> & -> & -> & -> & -> & -> & ->). }
    assert (Hcall : ∀ (X : Type) (e : event X) t',
              (∀ a, Φ [Called e a]) → Φ (exec E (call e) t').1).
    { intros X e t' He. rewrite exec_call. destruct (ext E e t'); apply He. }
    change (Φ (exec E (fetchEmails src fetchRequests wg) t).1).
    unfold fetchEmails.
    apply exec_defer_trace; [done| |intros t'; by apply Hcall].
    cbn [bind mbind proc_bind call].
    apply exec_Vis_trace; [done|done|].
    intros [conn|err] t'; [|by apply Hcall].
    apply exec_RangeFetch_trace; [done|done|done| |done].
    intros r t''. unfold fetchEmails_body. run_body. all: by cbn.
Qed.

(** X12. Where the responses of a fetch worker come from. Every response
    goes on the response channel of a request the worker received, and
    carries either the fields of the first message that the live fetch of
    the request's UID returned, or the fields decoded without error from a
    cache item that [cache.Get] handed back together with an error, and
    then at least one field. *)
Theorem fetchEmails_responses
    (E : env) (src : InboxInfo) (requests : nat) (wg : WaitGroup) (t : nat)
    (ch : nat) (fields : FieldMap) :
  (ch, fields) ∈ responses (exec E (fetchEmails src requests wg) t).1 →
  ∃ r,
    Got_fetchRequest requests r ∈ (exec E (fetchEmails src requests wg) t).1 ∧
    ch = Response r ∧
    ((∃ conn rsp Data,
        Called (UIDFetch conn [fr_UID r] ["INTERNALDATE"; "BODY[]"])
          (Some (Ok (rsp :: Data)))
        ∈ (exec E (fetchEmails src requests wg) t).1 ∧
        fields = Attrs (rsp_MessageInfo rsp)) ∨
     (∃ item err,
        Called (cache_Get (memcache_New MemcacheServer) (MessageId r))
          (Some (Some item, Some err))
        ∈ (exec E (fetchEmails src requests wg) t).1 ∧
        deserialize (ItemValue item) ∅ = (fields, None) ∧
        0 < size fields)).
Proof.
  set (Φ := fun tr : list entry =>
    ∀ ch fields, (ch, fields) ∈ responses tr →
      ∃ r,
        Got_fetchRequest requests r ∈ tr ∧ ch = Response r ∧
        ((∃ conn rsp Data,
            Called (UIDFetch conn [fr_UID r] ["INTERNALDATE"; "BODY[]"])
              (Some (Ok (rsp :: Data))) ∈ tr ∧
            fields = Attrs (rsp_MessageInfo rsp)) ∨
         (∃ item err,
            Called (cache_Get (memcache_New MemcacheServer) (MessageId r))
              (Some (Some item, Some err)) ∈ tr ∧
            deserialize (ItemValue item) ∅ = (fields, None) ∧
            0 < size fields))).
  assert (Hnil : Φ []) by (intros c' f' Hin; by apply not_elem_of_nil in Hin).
  assert (Happ : ∀ tr1 tr2, Φ tr1 → Φ tr2 → Φ (tr1 ++ tr2)).
  { intros tr1 tr2 H1 H2 c' f' Hin. unfold responses in Hin.
    rewrite omap_app in Hin.
    apply elem_of_app in Hin as [Hin|Hin];
      [destruct (H1 _ _ Hin) as (r & ? & ? & [(conn & rsp & Data & ? & ?)
                                             |(item & err & ? & ? & ?)])
      |destruct (H2 _ _ Hin) as (r & ? & ? & [(conn & rsp & Data & ? & ?)
                                             |(item & err & ? & ? & ?)])];
      exists r; (split; [apply elem_of_app; auto|]); (split; [done|]);
      [left; exists conn, rsp, Data|right; exists item, err
      |left; exists conn, rsp, Data|right; exists item, err];
      rewrite elem_of_app; auto. }
  assert (Hcall : ∀ (X : Type) (e : event X) t',
            (∀ a, responses [Called e a] = []) →
            Φ (exec E (call e) t').1).
  { intros X e t' He c' f' Hin. rewrite exec_call in Hin.
    destruct (ext E e t'); cbn [fst] in Hin; rewrite He in Hin;
      by apply not_elem_of_nil in Hin. }
  revert ch fields.
  change (Φ (exec E (fetchEmails src requests wg) t).1).
  unfold fetchEmails.
  apply exec_defer_trace; [done| |intros t'; by apply Hcall].
  cbn [bind mbind proc_bind call].
  apply exec_Vis_trace; [done| |].
  { intros a c' f' Hin. by apply not_elem_of_nil in Hin. }
  intros [conn|err] t'; [|by apply Hcall].
  apply exec_RangeFetch_turns; [done|done| |done].
  intros r t''. unfold fetchEmails_body. run_body.
  all: cbn; intros c' f' Hin; try (by apply not_elem_of_nil in Hin).
  all: apply list_elem_of_singleton in Hin; injection Hin as -> ->.
  all: exists r; split; [apply list_elem_of_here|]; split; [done|].
  all: try (left; eexists conn, _, _; split; [|reflexivity];
            rewrite ?elem_of_cons; auto 10; fail).
  all: right; destruct a as [item err]; cbn in *; subst;
       eexists _, _; split; [rewrite ?elem_of_cons; auto 10|].
  all: split; [|done].
  all: by destruct (deserialize _ _) as [f o]; cbn in *; subst.
Qed.

End Copycat.

Arguments Panic {Ext R} msg.

Section Pipeline.

Context `{Ext : Externals}.

(** ** All goroutines of one [SearchAndStore] call

    The caller's goroutine runs [SearchAndStore]; the goroutines it starts
    are kept in the order of their [go] statements. Channels are unbuffered:
    a send and a receive on the same channel happen together. The trace
    keeps, in order, every call that returned and every value received,
    with the goroutine that made it. *)

Inductive gid : Type :=
| the_caller
| the_worker (i : nat).

Global Instance gid_eq_dec : EqDecision gid.
Proof. solve_decision. Defined.

Record gstate : Type :=
  { g_main : proc (option error);
    g_pool : list (goroutine * proc unit);
    g_wg : WaitGroup -> nat;
    g_closed_WorkRequest : list nat;
    g_closed_fetchRequest : list nat;
    g_next : nat;
    g_trace : list (gid * entry) }.

Definition initial (src : InboxInfo) (dsts : list InboxInfo) : gstate :=
  {| g_main := SearchAndStore src dsts;
     g_pool := [];
     g_wg := fun _ => 0;
     g_closed_WorkRequest := [];
     g_closed_fetchRequest := [];
     g_next := 0;
     g_trace := [] |}.

Definition set_main (st : gstate) (p : proc (option error)) : gstate :=
  {| g_main := p; g_pool := g_pool st; g_wg := g_wg st;
     g_closed_WorkRequest := g_closed_WorkRequest st;
     g_closed_fetchRequest := g_closed_fetchRequest st;
     g_next := g_next st; g_trace := g_trace st |}.

Definition set_pool (st : gstate) (pool : list (goroutine * proc unit))
    : gstate :=
  {| g_main := g_main st; g_pool := pool; g_wg := g_wg st;
     g_closed_WorkRequest := g_closed_WorkRequest st;
     g_closed_fetchRequest := g_closed_fetchRequest st;
     g_next := g_next st; g_trace := g_trace st |}.

Definition set_wg (st : gstate) (wg : WaitGroup) (n : nat) : gstate :=
  {| g_main := g_main st; g_pool := g_pool st;
     g_wg := fun wg' => if decide (wg' = wg) then n else g_wg st wg';
     g_closed_WorkRequest := g_closed_WorkRequest st;
     g_closed_fetchRequest := g_closed_fetchRequest st;
     g_next := g_next st; g_trace := g_trace st |}.

Definition close_work (st : gstate) (ch : nat) : gstate :=
  {| g_main := g_main st; g_pool := g_pool st; g_wg := g_wg st;
     g_closed_WorkRequest := ch :: g_closed_WorkRequest st;
     g_closed_fetchRequest := g_closed_fetchRequest st;
     g_next := g_next st; g_trace := g_trace st |}.

Definition close_fetch (st : gstate) (ch : nat) : gstate :=
  {| g_main := g_main st; g_pool := g_pool st; g_wg := g_wg st;
     g_closed_WorkRequest := g_closed_WorkRequest st;
     g_closed_fetchRequest := ch :: g_closed_fetchRequest st;
     g_next := g_next st; g_trace := g_trace st |}.

Definition fresh_chan (st : gstate) : gstate :=
  {| g_main := g_main st; g_pool := g_pool st; g_wg := g_wg st;
     g_closed_WorkRequest := g_closed_WorkRequest st;
     g_closed_fetchRequest := g_closed_fetchRequest st;
     g_next := S (g_next st); g_trace := g_trace st |}.

Definition record (st : gstate) (new : list (gid * entry)) : gstate :=
  {| g_main := g_main st; g_pool := g_pool st; g_wg := g_wg st;
     g_closed_WorkRequest := g_closed_WorkRequest st;
     g_closed_fetchRequest := g_closed_fetchRequest st;
     g_next := g_next st; g_trace := g_trace st ++ new |}.

(** One step of a goroutine on its own. [p'] is what it runs next and [st']
    the state of everything but its own code. A call to the outside may
    return anything; the runtime panics on a negative wait-group counter, on
    the close of a closed channel and on a send on a closed channel. *)
Definition returns {R X : Type} (st : gstate) (me : gid) (e : event X)
    (k : X -> proc R) (x : X) (p' : proc R) (st' : gstate) : Prop :=
  p' = k x ∧ st' = record st [(me, Called e (Some x))].

Definition solo {R : Type} (st : gstate) (me : gid) (p p' : proc R)
    (st' : gstate) : Prop :=
  match p with
  | Ret _ | Panic _ => False
  | Go name child k =>
      p' = k ∧
      st' = record (set_pool st (g_pool st ++ [(name, child)]))
              [(me, Spawned name child)]
  | RangeWork ch _ k => ch ∈ g_closed_WorkRequest st ∧ p' = k ∧ st' = st
  | RangeFetch ch _ k => ch ∈ g_closed_fetchRequest st ∧ p' = k ∧ st' = st
  | Vis e k =>
      match e in event X return (X -> proc R) -> Prop with
      | wg_Add wg n => fun k =>
          returns (set_wg st wg (g_wg st wg + n)) me (wg_Add wg n) k () p' st'
      | wg_Done wg => fun k =>
          match g_wg st wg with
          | O => p' = Panic "sync: negative WaitGroup counter" ∧ st' = st
          | S n => returns (set_wg st wg n) me (wg_Done wg) k () p' st'
          end
      | wg_Wait wg => fun k =>
          g_wg st wg = 0 ∧ returns st me (wg_Wait wg) k () p' st'
      | make_chan_WorkRequest => fun k =>
          returns (fresh_chan st) me make_chan_WorkRequest k (g_next st) p' st'
      | make_chan_fetchRequest => fun k =>
          returns (fresh_chan st) me make_chan_fetchRequest k (g_next st) p' st'
      | make_chan_FieldMap => fun k =>
          returns (fresh_chan st) me make_chan_FieldMap k (g_next st) p' st'
      | close_WorkRequest ch => fun k =>
          if decide (ch ∈ g_closed_WorkRequest st)
          then p' = Panic "close of closed channel" ∧ st' = st
          else returns (close_work st ch) me (close_WorkRequest ch) k () p' st'
      | close_fetchRequest ch => fun k =>
          if decide (ch ∈ g_closed_fetchRequest st)
          then p' = Panic "close of closed channel" ∧ st' = st
          else returns (close_fetch st ch) me (close_fetchRequest ch) k () p' st'
      | send_WorkRequest ch _ => fun _ =>
          ch ∈ g_closed_WorkRequest st ∧
          p' = Panic "send on closed channel" ∧ st' = st
      | send_fetchRequest ch _ => fun _ =>
          ch ∈ g_closed_fetchRequest st ∧
          p' = Panic "send on closed channel" ∧ st' = st
      | send_FieldMap _ _ => fun _ => False
      | recv_FieldMap _ => fun _ => False
      | GetAllMessages src => fun k =>
          ∃ x, returns st me (GetAllMessages src) k x p' st'
      | GetConnection info ro => fun k =>
          ∃ x, returns st me (GetConnection info ro) k x p' st'
      | UIDSearch c spec => fun k =>
          ∃ x, returns st me (UIDSearch c spec) k x p' st'
      | UIDFetch c seq items => fun k =>
          ∃ x, returns st me (UIDFetch c seq items) k x p' st'
      | Append c mbox flags date body => fun k =>
          ∃ x, returns st me (Append c mbox flags date body) k x p' st'
      | Close c expunge => fun k =>
          ∃ x, returns st me (Close c expunge) k x p' st'
      | cache_Get cache key => fun k =>
          ∃ x, returns st me (cache_Get cache key) k x p' st'
      | cache_Add cache item => fun k =>
          ∃ x, returns st me (cache_Add cache item) k x p' st'
      | log_Printf msg => fun k =>
          ∃ x, returns st me (log_Printf msg) k x p' st'
      end k
  end.

(** What a goroutine offers to send, and what becomes of a goroutine that
    receives a value. A [range] loop that receives runs its body and comes
    back to the loop. *)
Definition offers_WorkRequest {R : Type} (p : proc R)
    : option (nat * WorkRequest * proc R) :=
  match p with
  | Vis e k =>
      match e in event X
            return (X -> proc R) -> option (nat * WorkRequest * proc R) with
      | send_WorkRequest ch w => fun k => Some (ch, w, k ())
      | _ => fun _ => None
      end k
  | _ => None
  end.

Definition offers_fetchRequest {R : Type} (p : proc R)
    : option (nat * fetchRequest * proc R) :=
  match p with
  | Vis e k =>
      match e in event X
            return (X -> proc R) -> option (nat * fetchRequest * proc R) with
      | send_fetchRequest ch r => fun k => Some (ch, r, k ())
      | _ => fun _ => None
      end k
  | _ => None
  end.

Definition offers_FieldMap {R : Type} (p : proc R)
    : option (nat * gmap string Field * proc R) :=
  match p with
  | Vis e k =>
      match e in event X
            return (X -> proc R) -> option (nat * gmap string Field * proc R) with
      | send_FieldMap ch m => fun k => Some (ch, m, k ())
      | _ => fun _ => None
      end k
  | _ => None
  end.

Definition takes_WorkRequest {R : Type} (p : proc R) (ch : nat)
    (w : WorkRequest) : option (proc R) :=
  match p with
  | RangeWork ch' body k =>
      if decide (ch' = ch)
      then Some (bind (body w) (fun _ => RangeWork ch' body k))
      else None
  | _ => None
  end.

Definition takes_fetchRequest {R : Type} (p : proc R) (ch : nat)
    (r : fetchRequest) : option (proc R) :=
  match p with
  | RangeFetch ch' body k =>
      if decide (ch' = ch)
      then Some (bind (body r) (fun _ => RangeFetch ch' body k))
      else None
  | _ => None
  end.

Definition takes_FieldMap {R : Type} (p : proc R) (ch : nat)
    (m : gmap string Field) : option (proc R) :=
  match p with
  | Vis e k =>
      match e in event X return (X -> proc R) -> option (proc R) with
      | recv_FieldMap ch' => fun k =>
          if decide (ch' = ch) then Some (k m) else None
      | _ => fun _ => None
      end k
  | _ => None
  end.

(** The code of a goroutine: the caller's returns an error, the others
    return nothing. *)
Definition code : Type := (proc (option error) + proc unit)%type.

Definition code_of (st : gstate) (g : gid) : option code :=
  match g with
  | the_caller => Some (inl (g_main st))
  | the_worker i => (fun np => inr np.2) <$> g_pool st !! i
  end.

Definition set_code (st : gstate) (g : gid) (c : code) : gstate :=
  match g, c with
  | the_caller, inl p => set_main st p
  | the_worker i, inr p =>
      set_pool st (alter (fun np => (np.1, p)) i (g_pool st))
  | _, _ => st
  end.

Definition solo_code (st : gstate) (me : gid) (c c' : code) (st' : gstate)
    : Prop :=
  match c, c' with
  | inl p, inl p' => solo st me p p' st'
  | inr p, inr p' => solo st me p p' st'
  | _, _ => False
  end.

Definition panicked {R : Type} (p : proc R) : bool :=
  match p with Panic _ => true | _ => false end.

(** A panic in any goroutine ends the program. *)
Definition alive (st : gstate) : Prop :=
  panicked (g_main st) = false ∧
  Forall (fun np => panicked np.2 = false) (g_pool st).

Definition sends_WorkRequest (c : code) : option (nat * WorkRequest * code) :=
  match c with
  | inl p => prod_map id inl <$> offers_WorkRequest p
  | inr p => prod_map id inr <$> offers_WorkRequest p
  end.

Definition sends_fetchRequest (c : code) : option (nat * fetchRequest * code) :=
  match c with
  | inl p => prod_map id inl <$> offers_fetchRequest p
  | inr p => prod_map id inr <$> offers_fetchRequest p
  end.

Definition sends_FieldMap (c : code)
    : option (nat * gmap string Field * code) :=
  match c with
  | inl p => prod_map id inl <$> offers_FieldMap p
  | inr p => prod_map id inr <$> offers_FieldMap p
  end.

Definition gets_WorkRequest (c : code) (ch : nat) (w : WorkRequest)
    : option code :=
  match c with
  | inl p => inl <$> takes_WorkRequest p ch w
  | inr p => inr <$> takes_WorkRequest p ch w
  end.

Definition gets_fetchRequest (c : code) (ch : nat) (r : fetchRequest)
    : option code :=
  match c with
  | inl p => inl <$> takes_fetchRequest p ch r
  | inr p => inr <$> takes_fetchRequest p ch r
  end.

Definition gets_FieldMap (c : code) (ch : nat) (m : gmap string Field)
    : option code :=
  match c with
  | inl p => inl <$> takes_FieldMap p ch m
  | inr p => inr <$> takes_FieldMap p ch m
  end.

Inductive gstep (st : gstate) : gstate -> Prop :=
| step_solo (g : gid) (c c' : code) (st' : gstate) :
    alive st →
    code_of st g = Some c →
    solo_code st g c c' st' →
    gstep st (set_code st' g c')
| step_WorkRequest (s r : gid) (cs cr cs' cr' : code) (ch : nat)
    (w : WorkRequest) :
    alive st → s ≠ r →
    code_of st s = Some cs → code_of st r = Some cr →
    ch ∉ g_closed_WorkRequest st →
    sends_WorkRequest cs = Some (ch, w, cs') →
    gets_WorkRequest cr ch w = Some cr' →
    gstep st
      (set_code
         (set_code
            (record st [(s, Called (send_WorkRequest ch w) (Some ()));
                        (r, Got_WorkRequest ch w)])
            s cs')
         r cr')
| step_fetchRequest (s r : gid) (cs cr cs' cr' : code) (ch : nat)
    (req : fetchRequest) :
    alive st → s ≠ r →
    code_of st s = Some cs → code_of st r = Some cr →
    ch ∉ g_closed_fetchRequest st →
    sends_fetchRequest cs = Some (ch, req, cs') →
    gets_fetchRequest cr ch req = Some cr' →
    gstep st
      (set_code
         (set_code
            (record st [(s, Called (send_fetchRequest ch req) (Some ()));
                        (r, Got_fetchRequest ch req)])
            s cs')
         r cr')
| step_FieldMap (s r : gid) (cs cr cs' cr' : code) (ch : nat)
    (m : gmap string Field) :
    alive st → s ≠ r →
    code_of st s = Some cs → code_of st r = Some cr →
    sends_FieldMap cs = Some (ch, m, cs') →
    gets_FieldMap cr ch m = Some cr' →
    gstep st
      (set_code
         (set_code
            (record st [(s, Called (send_FieldMap ch m) (Some ()));
                        (r, Called (recv_FieldMap ch) (Some m))])
            s cs')
         r cr').

Definition reachable (src : InboxInfo) (dsts : list InboxInfo)
    : gstate -> Prop :=
  rtc gstep (initial src dsts).

(** ** What a process may do

    A monitor follows a process through its events with a state of its own
    and says which events, spawns and loops it accepts. [wp M p g Q Qp]: from
    the monitor state [g], every path of [p] is accepted by [M], ends with
    [Q] when [p] returns and with [Qp] when it panics, whatever the calls
    return. *)
Record monitor (G : Type) : Type :=
  { on_event : G -> forall X : Type, event X -> X -> G -> Prop;
    on_go : G -> goroutine -> proc unit -> G -> Prop;
    on_range : G -> Prop }.

Fixpoint wp {G : Type} (M : monitor G) {R : Type} (p : proc R) (g : G)
    (Q : R -> G -> Prop) (Qp : string -> G -> Prop) {struct p} : Prop :=
  match p with
  | Ret r => Q r g
  | Panic m => Qp m g
  | Vis e k => ∀ x, ∃ g', on_event M g e x g' ∧ wp M (k x) g' Q Qp
  | RangeWork _ body k =>
      on_range M g ∧
      (∀ w, wp M (body w) g (fun _ g' => g' = g) Qp) ∧
      wp M k g Q Qp
  | RangeFetch _ body k =>
      on_range M g ∧
      (∀ r, wp M (body r) g (fun _ g' => g' = g) Qp) ∧
      wp M k g Q Qp
  | Go name child k => ∃ g', on_go M g name child g' ∧ wp M k g' Q Qp
  end.

Section Wp.

Context {G : Type} (M : monitor G).

Lemma wp_mono {R : Type} (p : proc R) (g : G) (Q Q' : R -> G -> Prop)
    (Qp Qp' : string -> G -> Prop) :
  (∀ r g', Q r g' → Q' r g') → (∀ m g', Qp m g' → Qp' m g') →
  wp M p g Q Qp → wp M p g Q' Qp'.
Proof.
  revert g Q Q'.
  induction p as [R r|R m|R X e k IH|R ch body IHb k IHk|R ch body IHb k IHk
                 |R name child IHc k IHk]; intros g Q Q' HQ HQp; cbn.
  - apply HQ.
  - apply HQp.
  - intros H x. destruct (H x) as (g' & He & Hk). exists g'. split; [done|].
    by eapply IH.
  - intros (Hr & Hb & Hk). split; [done|]. split; [|by eapply IHk].
    intros w. eapply IHb; [| |apply Hb]; done.
  - intros (Hr & Hb & Hk). split; [done|]. split; [|by eapply IHk].
    intros w. eapply IHb; [| |apply Hb]; done.
  - intros (g' & Hg & Hk). exists g'. split; [done|]. by eapply IHk.
Qed.

Lemma wp_bind {R T : Type} (p : proc R) (f : R -> proc T) (g : G)
    (Q : T -> G -> Prop) (Qp : string -> G -> Prop) :
  wp M p g (fun r g' => wp M (f r) g' Q Qp) Qp → wp M (bind p f) g Q Qp.
Proof.
  revert g.
  induction p as [R r|R m|R X e k IH|R ch body IHb k IHk|R ch body IHb k IHk
                 |R name child IHc k IHk]; intros g; cbn.
  - done.
  - done.
  - intros H x. destruct (H x) as (g' & He & Hk). exists g'. split; [done|].
    by apply IH.
  - intros (Hr & Hb & Hk). split; [done|]. split; [done|]. by apply IHk.
  - intros (Hr & Hb & Hk). split; [done|]. split; [done|]. by apply IHk.
  - intros (g' & Hg & Hk). exists g'. split; [done|]. by apply IHk.
Qed.

Lemma wp_on_panic {R : Type} (d : proc unit) (p : proc R) (g : G)
    (Q : R -> G -> Prop) (Qp : string -> G -> Prop) :
  wp M p g Q (fun m g' => wp M d g' (fun _ g'' => Qp m g'') Qp) →
  wp M (on_panic d p) g Q Qp.
Proof.
  revert g Q.
  induction p as [R r|R m|R X e k IH|R ch body IHb k IHk|R ch body IHb k IHk
                 |R name child IHc k IHk]; intros g Q; cbn [on_panic].
  - done.
  - intros H. apply (wp_bind d (fun _ => Panic m)). exact H.
  - intros H x. destruct (H x) as (g' & He & Hk). exists g'. split; [done|].
    by apply IH.
  - intros (Hr & Hb & Hk). split; [done|]. split; [|by apply IHk].
    intros w. by apply IHb.
  - intros (Hr & Hb & Hk). split; [done|]. split; [|by apply IHk].
    intros w. by apply IHb.
  - intros (g' & Hg & Hk). exists g'. split; [done|]. by apply IHk.
Qed.

Lemma wp_defer {R : Type} (d : proc unit) (p : proc R) (g : G)
    (Q : R -> G -> Prop) (Qp : string -> G -> Prop) :
  wp M p g (fun r g' => wp M d g' (fun _ g'' => Q r g'') Qp)
           (fun m g' => wp M d g' (fun _ g'' => Qp m g'') Qp) →
  wp M (defer d p) g Q Qp.
Proof.
  intros H. unfold defer.
  apply (wp_bind (on_panic d p) (fun r => bind d (fun _ => Ret r))).
  apply wp_on_panic. eapply wp_mono; [| |exact H]; [|done].
  intros r g' Hd. by apply wp_bind.
Qed.

Lemma wp_for_n (n : nat) (body : proc unit) (g : G)
    (Qp : string -> G -> Prop) :
  wp M body g (fun _ g' => g' = g) Qp →
  wp M (for_n n body) g (fun _ g' => g' = g) Qp.
Proof.
  intros Hb. induction n as [|n IH]; [done|].
  cbn [for_n]. apply (wp_bind body (fun _ => for_n n body)).
  eapply wp_mono; [| |exact Hb]; [|done]. by intros _ g' ->.
Qed.

Lemma wp_for_n_inv (n : nat) (body : proc unit) (I : nat -> G -> Prop) (g : G)
    (Qp : string -> G -> Prop) :
  I 0 g →
  (∀ i g', i < n → I i g' → wp M body g' (fun _ g'' => I (S i) g'') Qp) →
  wp M (for_n n body) g (fun _ g' => I n g') Qp.
Proof.
  revert I g. induction n as [|n IH]; intros I g H0 Hb; [done|].
  cbn [for_n]. apply (wp_bind body (fun _ => for_n n body)).
  eapply wp_mono; [| |apply (Hb 0 g)]; [|done|lia|done].
  intros r g' H1. apply (IH (fun i => I (S i))); [done|].
  intros i g'' Hi. apply Hb. lia.
Qed.

End Wp.

(** ** What the workers may do

    A worker owes one [wg.Done] on its wait group, pays it as its very
    last step, also when it panics, and does nothing afterwards. A store
    worker searches, asks for messages, receives them, appends and closes
    its connection; a fetch worker reads and fills the cache, fetches and
    answers. Neither touches a wait group otherwise, closes a channel,
    makes or feeds a work queue, lists the source or starts a goroutine. *)
Inductive debt : Type := owing | paid.

Definition wg_of (name : goroutine) : WaitGroup :=
  match name with
  | go_fetchEmails => fetchers
  | go_checkAndStoreMessages _ => storers
  end.

(** The only panic in the code of each worker: [cmd.Data[0]] at line 99
    and [msgBytes.Value] at line 152. *)
Definition panic_of (name : goroutine) : string :=
  match name with
  | go_fetchEmails => "invalid memory address or nil pointer dereference"
  | go_checkAndStoreMessages _ => "index out of range"
  end.

Definition worker_event (wg : WaitGroup) (g : debt) (X : Type)
    (e : event X) (x : X) (g' : debt) : Prop :=
  match e with
  | wg_Done wg' => wg' = wg ∧ g = owing ∧ g' = paid
  | GetConnection _ _ | log_Printf _ => g = owing ∧ g' = g
  | UIDSearch _ _ | Append _ _ _ _ _ | Close _ _ | make_chan_FieldMap
  | send_fetchRequest _ _ | recv_FieldMap _ =>
      wg = storers ∧ g = owing ∧ g' = g
  | UIDFetch _ _ _ | cache_Get _ _ | cache_Add _ _ | send_FieldMap _ _ =>
      wg = fetchers ∧ g = owing ∧ g' = g
  | _ => False
  end.

Definition worker (wg : WaitGroup) : monitor debt :=
  {| on_event := worker_event wg;
     on_go := fun _ _ _ _ => False;
     on_range := fun g => g = owing |}.

(** A worker that returns has paid; one that panics has paid and panics as
    its code says. *)
Definition works (name : goroutine) (p : proc unit) (g : debt) : Prop :=
  wp (worker (wg_of name)) p g (fun _ g' => g' = paid)
     (fun m g' => m = panic_of name ∧ g' = paid).

Ltac wp_walk :=
  repeat (cbn [wp bind call on_event on_go on_range worker worker_event];
    match goal with
    | |- forall _, _ => intros ?
    | |- exists _, _ ∧ _ => eexists; split; [by repeat split|]
    | |- _ ∧ _ => split
    | |- @eq debt _ _ => reflexivity
    | |- @eq string _ _ => reflexivity
    | |- wp _ (match ?x with _ => _ end) _ _ _ => destruct x eqn:?
    | |- wp _ (if ?x then _ else _) _ _ _ => destruct x eqn:?
    | |- wp _ (bind (match ?x with _ => _ end) _) _ _ _ => destruct x eqn:?
    | |- wp _ (bind (if ?x then _ else _) _) _ _ _ => destruct x eqn:?
    | |- wp _ ?p _ _ _ =>
        match p with
        | context [match ?x with _ => _ end] => destruct x eqn:?
        end
    end).

Lemma checkAndStoreMessages_wp (dst : InboxInfo)
    (storeRequests fetchRequests : nat) :
  works (go_checkAndStoreMessages dst)
    (checkAndStoreMessages dst storeRequests fetchRequests storers) owing.
Proof.
  unfold works, checkAndStoreMessages, checkAndStoreMessages_body, mbind,
    proc_bind.
  apply wp_defer. cbn [wp bind call]. intros [dstConn|err].
  - eexists. split; [by split|]. cbn [bind].
    apply wp_defer. wp_walk. all: try done.
  - eexists. split; [by split|]. wp_walk. all: try done.
Qed.

Lemma fetchEmails_wp (src : InboxInfo) (requests : nat) :
  works go_fetchEmails (fetchEmails src requests fetchers) owing.
Proof.
  unfold works, fetchEmails, fetchEmails_body, deserialize, serialize, mbind,
    proc_bind.
  apply wp_defer. wp_walk. all: try done.
Qed.

(** ** What the caller may do

    The monitor of [SearchAndStore] keeps the listing, the work queues made
    so far, the work requests sent so far, the work queues closed so far
    and the goroutines started so far. Nothing is started before the
    listing. A work queue is made only before the first send; a send must
    continue [deliveries] of the listing over the queues; a work queue is
    closed only when all of [deliveries] has been sent, the queues are
    closed in the order in which they were made, and nothing is sent
    afterwards. A [wg.Add(1)] is followed at once by the start of a worker
    of that wait group, no worker is started otherwise, and none after
    [storers.Wait()], which comes only when the whole staff has been
    started; the fetch queue is closed once, after [storers.Wait()], and
    [fetchers.Wait()] comes after that. *)
Definition crew (dsts : list InboxInfo) : list InboxInfo :=
  dst ← dsts; replicate MaxImapConns dst.

Definition staff (dsts : list InboxInfo) : list goroutine :=
  replicate MaxImapConns go_fetchEmails
  ++ (go_checkAndStoreMessages <$> crew dsts).

Lemma staff_unfold (dsts : list InboxInfo) :
  staff dsts
  = replicate MaxImapConns go_fetchEmails
    ++ (dst ← dsts; replicate MaxImapConns (go_checkAndStoreMessages dst)).
Proof.
  unfold staff, crew. f_equal.
  induction dsts as [|dst dsts IH]; [done|].
  by rewrite !bind_cons, fmap_app, fmap_replicate, IH.
Qed.

Record plan : Type :=
  { added : option WaitGroup;
    waited : bool;
    shut : bool;
    rested : bool;
    listed : list imap_Response;
    made : list nat;
    posted : list (nat * WorkRequest);
    closed : list nat;
    hired : list goroutine }.

Definition no_plan : plan :=
  {| added := None; waited := false; shut := false; rested := false;
     listed := []; made := []; posted := []; closed := []; hired := [] |}.

Definition set_added (a : option WaitGroup) (γ : plan) : plan :=
  {| added := a; waited := waited γ; shut := shut γ; rested := rested γ;
     listed := listed γ; made := made γ; posted := posted γ;
     closed := closed γ; hired := hired γ |}.
Definition set_waited (γ : plan) : plan :=
  {| added := added γ; waited := true; shut := shut γ; rested := rested γ;
     listed := listed γ; made := made γ; posted := posted γ;
     closed := closed γ; hired := hired γ |}.
Definition set_shut (γ : plan) : plan :=
  {| added := added γ; waited := waited γ; shut := true; rested := rested γ;
     listed := listed γ; made := made γ; posted := posted γ;
     closed := closed γ; hired := hired γ |}.
Definition set_rested (γ : plan) : plan :=
  {| added := added γ; waited := waited γ; shut := shut γ; rested := true;
     listed := listed γ; made := made γ; posted := posted γ;
     closed := closed γ; hired := hired γ |}.
Definition set_listed (Data : list imap_Response) (γ : plan) : plan :=
  {| added := added γ; waited := waited γ; shut := shut γ; rested := rested γ;
     listed := Data; made := made γ; posted := posted γ;
     closed := closed γ; hired := hired γ |}.
Definition set_made (queues : list nat) (γ : plan) : plan :=
  {| added := added γ; waited := waited γ; shut := shut γ; rested := rested γ;
     listed := listed γ; made := queues; posted := posted γ;
     closed := closed γ; hired := hired γ |}.
Definition set_posted (l : list (nat * WorkRequest)) (γ : plan) : plan :=
  {| added := added γ; waited := waited γ; shut := shut γ; rested := rested γ;
     listed := listed γ; made := made γ; posted := l;
     closed := closed γ; hired := hired γ |}.
Definition set_closed (l : list nat) (γ : plan) : plan :=
  {| added := added γ; waited := waited γ; shut := shut γ; rested := rested γ;
     listed := listed γ; made := made γ; posted := posted γ;
     closed := l; hired := hired γ |}.
Definition set_hired (l : list goroutine) (γ : plan) : plan :=
  {| added := added γ; waited := waited γ; shut := shut γ; rested := rested γ;
     listed := listed γ; made := made γ; posted := posted γ;
     closed := closed γ; hired := l |}.

Section Caller.

Variable dsts : list InboxInfo.

Definition caller_event (γ : plan) (X : Type) (e : event X)
    : X -> plan -> Prop :=
  match e in event X return X -> plan -> Prop with
  | GetAllMessages _ => fun x γ' =>
      γ = no_plan ∧
      γ' = set_listed (match x with Ok Data => Data | Err _ => [] end) γ
  | make_chan_WorkRequest => fun x γ' =>
      added γ = None ∧ waited γ = false ∧ closed γ = [] ∧ posted γ = [] ∧
      γ' = set_made (made γ ++ [x]) γ
  | send_WorkRequest ch w => fun _ γ' =>
      added γ = None ∧ waited γ = false ∧ closed γ = [] ∧
      (posted γ ++ [(ch, w)]) `prefix_of` deliveries (listed γ) (made γ) ∧
      γ' = set_posted (posted γ ++ [(ch, w)]) γ
  | close_WorkRequest ch => fun _ γ' =>
      added γ = None ∧ waited γ = false ∧
      posted γ = deliveries (listed γ) (made γ) ∧
      (closed γ ++ [ch]) `prefix_of` made γ ∧
      γ' = set_closed (closed γ ++ [ch]) γ
  | wg_Add wg n => fun _ γ' =>
      added γ = None ∧ n = 1 ∧ waited γ = false ∧ closed γ = [] ∧
      posted γ = [] ∧ γ' = set_added (Some wg) γ
  | wg_Wait storers => fun _ γ' =>
      added γ = None ∧ waited γ = false ∧ hired γ = staff dsts ∧
      γ' = set_waited γ
  | close_fetchRequest _ => fun _ γ' =>
      added γ = None ∧ waited γ = true ∧ shut γ = false ∧ γ' = set_shut γ
  | wg_Wait fetchers => fun _ γ' =>
      added γ = None ∧ shut γ = true ∧ γ' = set_rested γ
  | log_Printf _ | make_chan_fetchRequest => fun _ γ' =>
      added γ = None ∧ γ' = γ
  | _ => fun _ _ => False
  end.

Definition caller_go (γ : plan) (name : goroutine) (child : proc unit)
    (γ' : plan) : Prop :=
  added γ = Some (wg_of name) ∧ waited γ = false ∧ works name child owing ∧
  γ' = set_hired (hired γ ++ [name]) (set_added None γ).

Definition caller : monitor plan :=
  {| on_event := caller_event;
     on_go := caller_go;
     on_range := fun _ => False |}.

(** [SearchAndStore] returns an error with nothing started, and nil after
    [fetchers.Wait()]; it does not panic. *)
Definition returned (r : option error) (γ : plan) : Prop :=
  added γ = None ∧
  match r with
  | Some _ => hired γ = []
  | None => rested γ = true
  end.

Definition runs (p : proc (option error)) (γ : plan) : Prop :=
  wp caller p γ returned (fun _ _ => False).

Lemma start_fetchers_wp (src : InboxInfo) (fetchRequests : nat) (γ : plan) :
  added γ = None → waited γ = false → closed γ = [] → posted γ = [] →
  wp caller (start_fetchers src fetchRequests) γ
     (fun _ γ' => γ' = set_hired (hired γ ++ replicate MaxImapConns
                                                go_fetchEmails) γ)
     (fun _ _ => False).
Proof.
  intros Ha Hw Hc Hs. unfold start_fetchers, mbind, proc_bind.
  apply (@wp_for_n_inv _ caller MaxImapConns _
           (fun i γ' => γ' = set_hired (hired γ ++ replicate i
                                          go_fetchEmails) γ)).
  - cbn. rewrite app_nil_r. by destruct γ.
  - intros i γ' _ ->. cbn [bind call wp]. intros [].
    eexists. split; [by (unfold caller; cbn; split_and!)|].
    eexists. split.
    + cbn [on_go caller caller_go added waited set_added set_hired wg_of].
      split; [done|]. split; [done|].
      split; [apply fetchEmails_wp|reflexivity].
    + cbn. rewrite <- app_assoc.
      change (replicate i go_fetchEmails ++ [go_fetchEmails])
        with (replicate i go_fetchEmails ++ replicate 1 go_fetchEmails).
      rewrite <- replicate_add, Nat.add_1_r. destruct γ; cbn in *; by subst.
Qed.

Lemma start_storers_wp (ds : list InboxInfo) (fetchRequests : nat)
    (acc : list nat) (γ : plan) :
  added γ = None → waited γ = false → closed γ = [] → posted γ = [] →
  wp caller (start_storers ds fetchRequests acc) γ
     (fun queues γ' =>
        ∃ new, queues = acc ++ new ∧
               γ' = set_hired
                      (hired γ
                       ++ (dst ← ds;
                           replicate MaxImapConns
                             (go_checkAndStoreMessages dst)))
                      (set_made (made γ ++ new) γ))
     (fun _ _ => False).
Proof.
  revert acc γ. induction ds as [|dst ds IH]; intros acc γ Ha Hw Hc Hs.
  { cbn. exists []. rewrite !app_nil_r. by destruct γ. }
  cbn [start_storers]. unfold mbind, proc_bind. cbn [bind call wp].
  intros q. eexists. split; [by (unfold caller; cbn; split_and!)|].
  apply (wp_bind caller (for_n _ _)).
  eapply wp_mono;
    [| |apply (@wp_for_n_inv _ caller MaxImapConns _
                 (fun i γ' =>
                    γ' = set_hired
                           (hired γ
                            ++ replicate i (go_checkAndStoreMessages dst))
                           (set_made (made γ ++ [q]) γ)))].
  - intros _ γ' ->. eapply wp_mono; [| |apply IH]; try done.
    intros queues γ' (new & -> & ->). exists (q :: new).
    rewrite bind_cons. cbn. rewrite <- !app_assoc.
    split; [done|]. by destruct γ.
  - intros m γ' H. exact H.
  - cbn. rewrite app_nil_r. by destruct γ.
  - intros i γ' _ ->. cbn [bind call wp]. intros [].
    eexists. split; [by (unfold caller; cbn; split_and!)|].
    eexists. split.
    + cbn [on_go caller caller_go added waited set_added set_hired set_made
           wg_of].
      split; [done|]. split; [done|].
      split; [apply checkAndStoreMessages_wp|reflexivity].
    + cbn. rewrite <- app_assoc.
      change (replicate i (go_checkAndStoreMessages dst)
              ++ [go_checkAndStoreMessages dst])
        with (replicate i (go_checkAndStoreMessages dst)
              ++ replicate 1 (go_checkAndStoreMessages dst)).
      rewrite <- replicate_add, Nat.add_1_r. destruct γ; cbn in *; by subst.
Qed.

Lemma send_to_all_wp (w : WorkRequest) (queues : list nat) (γ : plan) :
  added γ = None → waited γ = false → closed γ = [] →
  (posted γ ++ ((fun q => (q, w)) <$> queues))
    `prefix_of` deliveries (listed γ) (made γ) →
  wp caller (for_range queues (fun q => call (send_WorkRequest q w))) γ
     (fun _ γ' =>
        γ' = set_posted (posted γ ++ ((fun q => (q, w)) <$> queues)) γ)
     (fun _ _ => False).
Proof.
  revert γ. induction queues as [|q queues IH]; intros γ Ha Hw Hc Hpre.
  { cbn. rewrite app_nil_r. by destruct γ. }
  cbn [for_range]. unfold mbind, proc_bind. cbn [bind call wp].
  intros []. eexists. split.
  { cbn [on_event caller caller_event]. split_and!; try done.
    etrans; [|exact Hpre]. rewrite fmap_cons.
    apply prefix_app, prefix_cons, prefix_nil. }
  rewrite fmap_cons in *.
  eapply wp_mono; [| |apply IH]; try done.
  - intros _ γ' ->.
    cbn [set_posted posted added waited shut rested listed made closed hired].
    by rewrite <- app_assoc.
  - cbn [set_posted posted added waited shut rested listed made closed hired].
    by rewrite <- app_assoc.
Qed.

Lemma send_requests_wp (Data : list imap_Response) (queues : list nat)
    (γ : plan) :
  added γ = None → waited γ = false → closed γ = [] →
  (posted γ ++ deliveries Data queues)
    `prefix_of` deliveries (listed γ) (made γ) →
  wp caller (send_requests Data queues) γ
     (fun _ γ' => γ' = set_posted (posted γ ++ deliveries Data queues) γ)
     (fun _ _ => False).
Proof.
  unfold send_requests, deliveries at 1 3, work_items.
  revert γ. induction Data as [|rsp Data IH]; intros γ Ha Hw Hc Hpre.
  { cbn. rewrite app_nil_r. by destruct γ. }
  cbn [for_range omap list_omap] in *. unfold mbind at 1, proc_bind.
  apply (wp_bind caller).
  destruct (build_request rsp) as [w|] eqn:Hreq.
  - rewrite bind_cons in *.
    eapply wp_mono; [| |apply send_to_all_wp]; try done.
    + intros _ γ' ->. eapply wp_mono; [| |apply IH]; try done.
      * intros _ γ' ->. cbn. rewrite <- app_assoc. by destruct γ.
      * cbn. by rewrite <- app_assoc.
    + etrans; [|exact Hpre]. rewrite app_assoc. by apply prefix_app_r.
  - cbn [wp]. by apply IH.
Qed.

Lemma close_all_wp (queues : list nat) (γ : plan) :
  added γ = None → waited γ = false →
  posted γ = deliveries (listed γ) (made γ) →
  closed γ ++ queues = made γ →
  wp caller (for_range queues (fun q => call (close_WorkRequest q))) γ
     (fun _ γ' => γ' = set_closed (made γ) γ)
     (fun _ _ => False).
Proof.
  revert γ. induction queues as [|q queues IH]; intros γ Ha Hw Hs Hq.
  { cbn. rewrite app_nil_r in Hq. rewrite <- Hq. by destruct γ. }
  cbn [for_range]. unfold mbind, proc_bind. cbn [bind call wp].
  intros []. eexists. split.
  { cbn [on_event caller caller_event]. split_and!; try done.
    rewrite <- Hq. apply prefix_app, prefix_cons, prefix_nil. }
  eapply wp_mono; [| |apply IH]; try done.
  cbn. by rewrite <- app_assoc.
Qed.

Theorem SearchAndStore_wp (src : InboxInfo) :
  runs (SearchAndStore src dsts) no_plan.
Proof.
  unfold runs, SearchAndStore, mbind, proc_bind.
  cbn [bind call wp]. intros [Data|err].
  2:{ eexists. split; [by (unfold caller; cbn; split_and!)|]. cbn [wp].
      intros []. eexists. split; [by (unfold caller; cbn; split_and!)|].
      done. }
  eexists. split; [by (unfold caller; cbn; split_and!)|]. cbn [wp]. intros fq.
  eexists. split; [by (unfold caller; cbn; split_and!)|].
  apply (wp_bind caller (start_fetchers _ _)).
  eapply wp_mono; [| |apply start_fetchers_wp]; try done.
  intros _ γ' ->.
  apply (wp_bind caller (start_storers _ _ _)).
  eapply wp_mono; [| |apply start_storers_wp]; try done.
  intros queues γ' (new & -> & ->).
  cbn [app set_listed set_hired set_made no_plan made hired].
  apply (wp_bind caller (send_requests _ _)).
  eapply wp_mono; [| |apply send_requests_wp]; try done.
  intros _ γ' ->.
  apply (wp_bind caller (for_range _ _)).
  eapply wp_mono; [| |apply close_all_wp]; try done.
  intros _ γ' ->. cbn [bind call wp].
  intros []. eexists.
  split; [by (unfold caller; cbn; rewrite staff_unfold; split_and!)|].
  intros []. eexists. split; [by (unfold caller; cbn; split_and!)|].
  intros []. eexists. split; [by (unfold caller; cbn; split_and!)|].
  intros []. eexists. split; [by (unfold caller; cbn; split_and!)|].
  done.
Qed.

(** ** The invariant of the pipeline *)

Definition exited {R : Type} (p : proc R) : bool :=
  match p with Ret _ | Panic _ => true | _ => false end.

(** The workers of a wait group that have not paid their [wg.Done] yet. *)
Definition owes (wg : WaitGroup) (np : goroutine * proc unit) : bool :=
  bool_decide (wg_of np.1 = wg) && negb (exited np.2).

Fixpoint debts (wg : WaitGroup) (pool : list (goroutine * proc unit)) : nat :=
  match pool with
  | [] => 0
  | np :: pool' => (if owes wg np then 1 else 0) + debts wg pool'
  end.

Definition worker_inv (np : goroutine * proc unit) : Prop :=
  ∃ g, works np.1 np.2 g.

Definition entries (st : gstate) : list entry := (g_trace st).*2.

(** The listings the caller got from [GetAllMessages]. *)
Definition listings (tr : list entry) : list (list imap_Response) :=
  omap (fun x => match x with
                 | Called e a =>
                     match e in event X
                           return option X -> option (list imap_Response) with
                     | GetAllMessages _ =>
                         fun a => match a with
                                  | Some (Ok Data) => Some Data
                                  | _ => None
                                  end
                     | _ => fun _ => None
                     end a
                 | _ => None
                 end) tr.

(** The destinations of the store workers of a pool, in the order in which
    they were started. *)
Definition hired_by (pool : list (goroutine * proc unit)) : list InboxInfo :=
  omap (fun np => match np.1 with
                  | go_checkAndStoreMessages dst => Some dst
                  | go_fetchEmails => None
                  end) pool.

(** Every worker of the wait group has returned. *)
Definition discharged (wg : WaitGroup) (pool : list (goroutine * proc unit))
    : Prop :=
  ∀ i name p, pool !! i = Some (name, p) → wg_of name = wg → p = Ret ().

Definition linked (γ : plan) (st : gstate) : Prop :=
  (∀ wg, g_wg st wg
         = debts wg (g_pool st)
           + (if decide (added γ = Some wg) then 1 else 0)) ∧
  (waited γ = true → discharged storers (g_pool st)) ∧
  (rested γ = true → discharged fetchers (g_pool st)) ∧
  (waited γ = true → hired γ = staff dsts) ∧
  (shut γ = true → waited γ = true) ∧
  (rested γ = true → shut γ = true) ∧
  (shut γ = false → g_closed_fetchRequest st = []) ∧
  g_closed_WorkRequest st = reverse (closed γ) ∧
  (closed γ ≠ [] → posted γ = deliveries (listed γ) (made γ)) ∧
  closed γ `prefix_of` made γ ∧
  posted γ `prefix_of` deliveries (listed γ) (made γ) ∧
  concat (listings (entries st)) = listed γ ∧
  work_chans (entries st) = made γ ∧
  work_sends (entries st) = posted γ ∧
  (g_pool st).*1 = hired γ.

(** Channels come fresh from [make]: the work queues of a run are pairwise
    distinct. *)
Definition fresh_chans (st : gstate) : Prop :=
  NoDup (work_chans (entries st)) ∧
  Forall (fun c => c < g_next st) (work_chans (entries st)).

(** The caller and the workers are within their monitors, and the state is
    what the caller's monitor says. *)
Definition pipeline_inv (st : gstate) : Prop :=
  ∃ γ, runs (g_main st) γ ∧ Forall worker_inv (g_pool st) ∧ linked γ st.

(** Every event has an answer to offer. *)
Definition some_answer {X : Type} (e : event X) : X :=
  match e in event X return X with
  | GetAllMessages _ | UIDSearch _ _ | UIDFetch _ _ _ => Err ""
  | GetConnection _ _ => Err ""
  | Append _ _ _ _ _ | cache_Add _ _ => None
  | cache_Get _ _ => (None, None)
  | make_chan_WorkRequest | make_chan_fetchRequest | make_chan_FieldMap => 0
  | recv_FieldMap _ => ∅
  | Close _ _ | log_Printf _ | send_WorkRequest _ _ | send_fetchRequest _ _
  | send_FieldMap _ _ | close_WorkRequest _ | close_fetchRequest _
  | wg_Add _ _ | wg_Done _ | wg_Wait _ => ()
  end.

Lemma works_owing_runs (name : goroutine) (p : proc unit) :
  works name p owing → exited p = false.
Proof. unfold works. destruct p; cbn; try done. by intros [_ ?]. Qed.

Lemma works_paid_exited (name : goroutine) (p : proc unit) :
  works name p paid → exited p = true.
Proof.
  unfold works.
  destruct p as [r|m|X e k|ch body k|ch body k|name' child k]; cbn; try done.
  - intros H. destruct (H (some_answer e)) as (g' & He & _).
    exfalso. destruct e; cbn in He; try done; destruct_and?; done.
  - by intros [? _].
  - by intros [? _].
  - by intros [? [? _]].
Qed.

Definition update (pool : list (goroutine * proc unit)) (i : nat)
    (p : proc unit) : list (goroutine * proc unit) :=
  alter (fun np => (np.1, p)) i pool.

Lemma debts_app (wg : WaitGroup) (pool1 pool2 : list (goroutine * proc unit)) :
  debts wg (pool1 ++ pool2) = debts wg pool1 + debts wg pool2.
Proof. induction pool1 as [|np pool1 IH]; cbn; [done|]. rewrite IH. lia. Qed.

Lemma debts_update (wg : WaitGroup) (pool : list (goroutine * proc unit))
    (i : nat) (name : goroutine) (p p' : proc unit) :
  pool !! i = Some (name, p) →
  debts wg (update pool i p') + (if owes wg (name, p) then 1 else 0)
  = debts wg pool + (if owes wg (name, p') then 1 else 0).
Proof.
  revert i. induction pool as [|np pool IH]; intros i Hi; [done|].
  destruct i as [|i]; cbn in *.
  - injection Hi as ->. cbn. lia.
  - specialize (IH i Hi). unfold update in IH. lia.
Qed.

Lemma debts_none (wg : WaitGroup) (pool : list (goroutine * proc unit))
    (i : nat) (np : goroutine * proc unit) :
  debts wg pool = 0 → pool !! i = Some np → owes wg np = false.
Proof.
  revert i. induction pool as [|np' pool IH]; intros i Hd Hi; [done|].
  cbn in Hd. destruct i as [|i]; cbn in Hi.
  - injection Hi as ->. destruct (owes wg np); [lia|done].
  - apply (IH i); [lia|done].
Qed.

Lemma debts_some (wg : WaitGroup) (pool : list (goroutine * proc unit))
    (i : nat) (np : goroutine * proc unit) :
  pool !! i = Some np → owes wg np = true → 0 < debts wg pool.
Proof.
  intros Hi Ho. destruct (debts wg pool) as [|n] eqn:Hd; [|lia].
  by rewrite (debts_none wg pool i Hd Hi) in Ho.
Qed.

Lemma lookup_update_eq (pool : list (goroutine * proc unit)) (i : nat)
    (name : goroutine) (p p' : proc unit) :
  pool !! i = Some (name, p) → update pool i p' !! i = Some (name, p').
Proof. intros Hi. unfold update. by rewrite list_lookup_alter_eq, Hi. Qed.

Lemma lookup_update_ne (pool : list (goroutine * proc unit)) (i j : nat)
    (p' : proc unit) :
  i ≠ j → update pool i p' !! j = pool !! j.
Proof. intros Hij. unfold update. by rewrite list_lookup_alter_ne. Qed.

Lemma Forall_update (P : goroutine * proc unit -> Prop)
    (pool : list (goroutine * proc unit)) (i : nat) (name : goroutine)
    (p p' : proc unit) :
  pool !! i = Some (name, p) → P (name, p') → Forall P pool →
  Forall P (update pool i p').
Proof.
  intros Hi Hp HP. unfold update. apply Forall_alter; [done|].
  intros np Hnp. rewrite Hi in Hnp. by injection Hnp as <-.
Qed.

Lemma names_update (pool : list (goroutine * proc unit)) (i : nat)
    (p' : proc unit) :
  (update pool i p').*1 = pool.*1.
Proof.
  revert i. induction pool as [|np pool IH]; intros i; [done|].
  destruct i as [|i]; cbn; [done|].
  specialize (IH i). unfold update in IH. by rewrite IH.
Qed.

Lemma hired_by_names (pool : list (goroutine * proc unit)) :
  hired_by pool
  = omap (fun name => match name with
                      | go_checkAndStoreMessages dst => Some dst
                      | go_fetchEmails => None
                      end) pool.*1.
Proof.
  induction pool as [|[name p] pool IH]; [done|].
  unfold hired_by in *. cbn. rewrite IH. by destruct name.
Qed.

Lemma discharged_update (wg : WaitGroup)
    (pool : list (goroutine * proc unit)) (i : nat) (name : goroutine)
    (p p' : proc unit) :
  pool !! i = Some (name, p) → exited p = false →
  discharged wg pool → wg_of name ≠ wg ∧ discharged wg (update pool i p').
Proof.
  intros Hi Hrun Hall. split.
  - intros Hwg. by rewrite (Hall i name p Hi Hwg) in Hrun.
  - intros j name' q Hj Hwg. destruct (decide (i = j)) as [<-|Hne].
    + rewrite (lookup_update_eq pool i p' Hi) in Hj. injection Hj as <- <-.
      by rewrite (Hall i name p Hi Hwg) in Hrun.
    + rewrite lookup_update_ne in Hj by done. by eapply Hall.
Qed.

(** When the counter of a wait group is at zero in a state without panic,
    every worker of the group has returned. *)
Lemma debts_discharged (wg : WaitGroup) (st : gstate) :
  alive st → debts wg (g_pool st) = 0 → discharged wg (g_pool st).
Proof.
  intros [_ Hal] Hd i name p Hi Hwg.
  pose proof (debts_none wg _ i Hd Hi) as Ho.
  pose proof (proj1 (Forall_lookup _ _) Hal i _ Hi) as Hp.
  unfold owes in Ho. cbn in *. rewrite bool_decide_eq_true_2 in Ho by done.
  by destruct p as [[]| | | | |].
Qed.

Lemma entries_record (st : gstate) (new : list (gid * entry)) :
  entries (record st new) = entries st ++ new.*2.
Proof. unfold entries. cbn. by rewrite fmap_app. Qed.

Lemma entries_set_main (st : gstate) (p : proc (option error)) :
  entries (set_main st p) = entries st.
Proof. reflexivity. Qed.
Lemma entries_set_pool (st : gstate) (pool : list (goroutine * proc unit)) :
  entries (set_pool st pool) = entries st.
Proof. reflexivity. Qed.
Lemma entries_set_wg (st : gstate) (wg : WaitGroup) (n : nat) :
  entries (set_wg st wg n) = entries st.
Proof. reflexivity. Qed.
Lemma entries_close_work (st : gstate) (ch : nat) :
  entries (close_work st ch) = entries st.
Proof. reflexivity. Qed.
Lemma entries_close_fetch (st : gstate) (ch : nat) :
  entries (close_fetch st ch) = entries st.
Proof. reflexivity. Qed.
Lemma entries_fresh_chan (st : gstate) : entries (fresh_chan st) = entries st.
Proof. reflexivity. Qed.

Lemma listings_app (tr1 tr2 : list entry) :
  listings (tr1 ++ tr2) = listings tr1 ++ listings tr2.
Proof. apply omap_app. Qed.
Lemma work_chans_app (tr1 tr2 : list entry) :
  work_chans (tr1 ++ tr2) = work_chans tr1 ++ work_chans tr2.
Proof. apply omap_app. Qed.
Lemma work_sends_app (tr1 tr2 : list entry) :
  work_sends (tr1 ++ tr2) = work_sends tr1 ++ work_sends tr2.
Proof. apply omap_app. Qed.

Ltac observe :=
  repeat first
    [ rewrite entries_record | rewrite entries_set_main
    | rewrite entries_set_pool | rewrite entries_set_wg
    | rewrite entries_close_work | rewrite entries_close_fetch
    | rewrite entries_fresh_chan ];
  rewrite ?listings_app, ?work_chans_app, ?work_sends_app, ?concat_app;
  cbn [fmap list_fmap fst snd listings work_chans work_sends omap list_omap
       concat g_main g_wg g_pool g_closed_WorkRequest g_closed_fetchRequest
       g_next record set_main set_wg set_pool close_work close_fetch
       fresh_chan added waited shut rested listed made posted closed hired
       set_added set_waited set_shut set_rested set_listed set_made
       set_posted set_closed set_hired];
  rewrite ?app_nil_r.

(** What the rest of the pipeline sees of a step: nothing of it. *)
Definition unseen (st st' : gstate) : Prop :=
  g_main st' = g_main st ∧ g_pool st' = g_pool st ∧
  g_closed_WorkRequest st' = g_closed_WorkRequest st ∧
  g_closed_fetchRequest st' = g_closed_fetchRequest st ∧
  listings (entries st') = listings (entries st) ∧
  work_chans (entries st') = work_chans (entries st) ∧
  work_sends (entries st') = work_sends (entries st).

(** A step of a worker on its own, when the counter of its wait group is
    not at zero and, for a store worker, the fetch queue is open: the
    worker goes on within its monitor, unseen by the others but for its
    [wg.Done]. The runtime has no cause to panic. *)
Lemma worker_solo (st st' : gstate) (me : gid) (name : goroutine)
    (p p' : proc unit) (g : debt) :
  works name p g →
  0 < g_wg st (wg_of name) →
  (wg_of name = storers → g_closed_fetchRequest st = []) →
  solo st me p p' st' →
  unseen st st' ∧
  ∃ g', works name p' g' ∧
        ((g' = g ∧ ∀ wg, g_wg st' wg = g_wg st wg) ∨
         (g = owing ∧ g' = paid ∧
          g_wg st (wg_of name) = S (g_wg st' (wg_of name)) ∧
          ∀ wg, wg ≠ wg_of name → g_wg st' wg = g_wg st wg)).
Proof.
  unfold works.
  destruct p as [r|m|X e k|ch body k|ch body k|name' child k]; cbn [solo wp];
    try done.
  - intros Hwp Hpos Hopen Hsolo.
    assert (Hrec : ∀ x st0,
      (∃ g', worker_event (wg_of name) g e x g' ∧ works name (k x) g') →
      unseen st st0 →
      listings [Called e (Some x)] = [] →
      work_chans [Called e (Some x)] = [] →
      work_sends [Called e (Some x)] = [] →
      (∀ g', worker_event (wg_of name) g e x g' →
             (g' = g ∧ ∀ wg, g_wg st0 wg = g_wg st wg) ∨
             (g = owing ∧ g' = paid ∧
              g_wg st (wg_of name) = S (g_wg st0 (wg_of name)) ∧
              ∀ wg, wg ≠ wg_of name → g_wg st0 wg = g_wg st wg)) →
      returns st0 me e k x p' st' →
      unseen st st' ∧
      ∃ g', works name p' g' ∧
            ((g' = g ∧ ∀ wg, g_wg st' wg = g_wg st wg) ∨
             (g = owing ∧ g' = paid ∧
              g_wg st (wg_of name) = S (g_wg st' (wg_of name)) ∧
              ∀ wg, wg ≠ wg_of name → g_wg st' wg = g_wg st wg))).
    { intros x st0 (g' & He & Hk) (Hm & Hp & Hcw & Hcf & Hl & Hc & Hs)
        Hl' Hc' Hs' Hwg [-> ->]. split.
      - unfold unseen.
        rewrite entries_record, listings_app, work_chans_app, work_sends_app.
        cbn [fmap list_fmap snd].
        cbn [g_main g_pool g_closed_WorkRequest g_closed_fetchRequest record].
        by rewrite Hl', Hc', Hs', !app_nil_r, Hm, Hp, Hcw, Hcf, Hl, Hc, Hs.
      - exists g'. split; [done|]. by apply Hwg. }
    assert (Hsame : unseen st st) by done.
    destruct e; cbn in Hsolo;
      try (match type of Hwp with
           | context [on_event (worker _) g ?e] =>
               destruct (Hwp (some_answer e)) as (? & He0 & _)
           end; cbn in He0; destruct He0; fail);
      try (destruct Hsolo as [x Hsolo]; eapply (Hrec x st (Hwp x)); eauto;
           cbn; intros g' ?; destruct_and?; subst; by left).
    + (* make_chan_FieldMap *)
      eapply (Hrec _ (fresh_chan st) (Hwp _)); eauto.
      cbn. intros g' ?. destruct_and?; subst. by left.
    + (* send_fetchRequest: the channel is open *)
      destruct Hsolo as (Hin & _).
      destruct (Hwp ()) as (g' & (Hsto & _) & _).
      rewrite (Hopen Hsto) in Hin. by apply not_elem_of_nil in Hin.
    + done.
    + done.
    + (* wg_Done: the counter is not at zero *)
      destruct (Hwp ()) as (g' & (Hwg & -> & ->) & Hk). subst wg.
      destruct (g_wg st (wg_of name)) as [|n] eqn:Hn; [lia|].
      eapply (Hrec () (set_wg st (wg_of name) n)); eauto.
      { exists paid. by split. }
      cbn. intros g' (_ & _ & ->). right. split; [done|]. split; [done|].
      rewrite decide_True by done. split; [done|].
      intros wg Hne. by rewrite decide_False.
  - intros (Hr & Hb & Hk) _ _ (Hin & -> & ->). split; [done|].
    exists g. split; [done|]. by left.
  - intros (Hr & Hb & Hk) _ _ (Hin & -> & ->). split; [done|].
    exists g. split; [done|]. by left.
  - by intros [? [? _]].
Qed.

(** A step of the caller on its own: the caller goes on within its monitor
    and the state stays linked to it. The runtime has no cause to panic:
    the caller sends on open work queues only, and closes each queue
    once. *)
Lemma caller_solo (st st' : gstate) (p' : proc (option error)) (γ : plan) :
  runs (g_main st) γ → linked γ st → Forall worker_inv (g_pool st) →
  alive st → NoDup (made γ) →
  solo st the_caller (g_main st) p' st' →
  ∃ γ', runs p' γ' ∧ linked γ' st' ∧ Forall worker_inv (g_pool st').
Proof.
  unfold runs.
  intros Hwp (Hwg & Hds & Hdf & Hcrew & Hsw & Hrs & Hcf & Hcw & Hcl & Hcm
              & Hpre & Hl & Hc & Hs & Hh) Hpool Hal Hnd.
  destruct (g_main st) as [r|m|X e k|ch body k|ch body k|name child k];
    cbn [solo wp] in *; try done.
  - (* an event *)
    intros Hsolo.
    destruct e; cbn in Hsolo;
      try (match type of Hwp with
           | context [on_event caller _ ?e] =>
               destruct (Hwp (some_answer e)) as (? & He0 & _)
           end; cbn in He0; destruct He0; fail).
    + (* GetAllMessages *)
      destruct Hsolo as (x & -> & ->).
      destruct (Hwp x) as (γ' & (-> & ->) & Hk).
      eexists. split; [exact Hk|]. split; [|done].
      unfold linked. observe. cbn in *. rewrite Hl.
      split_and!; try done; try apply prefix_nil.
      destruct x; cbn; by rewrite ?app_nil_r.
    + (* log_Printf *)
      destruct Hsolo as (x & -> & ->).
      destruct (Hwp x) as (γ' & (Ha & ->) & Hk).
      exists γ. split; [done|]. split; [|done].
      unfold linked. observe. by split_and!.
    + (* make_chan_WorkRequest *)
      destruct Hsolo as [-> ->].
      destruct (Hwp (g_next st)) as (γ' & (Ha & Hwa & Hclo & Hse & ->) & Hk).
      eexists. split; [exact Hk|]. split; [|done].
      unfold linked. observe. rewrite Hc.
      split_and!; try done; rewrite ?Hclo, ?Hse; try done;
        try apply prefix_nil.
    + (* make_chan_fetchRequest *)
      destruct Hsolo as [-> ->].
      destruct (Hwp (g_next st)) as (γ' & (Ha & ->) & Hk).
      exists γ. split; [done|]. split; [|done].
      unfold linked. observe. by split_and!.
    + (* send_WorkRequest: no work queue is closed *)
      destruct Hsolo as (Hin & _).
      destruct (Hwp ()) as (γ' & (_ & _ & Hclo & _) & _).
      rewrite Hcw, Hclo in Hin. by apply not_elem_of_nil in Hin.
    + (* close_WorkRequest: the queue is open *)
      destruct (Hwp ()) as (γ' & (Ha & Hwa & Hse & Hnext & ->) & Hk).
      rewrite decide_False in Hsolo.
      2:{ rewrite Hcw, elem_of_reverse. intros Hin.
          destruct Hnext as [rest Hrest]. rewrite Hrest in Hnd.
          apply NoDup_app in Hnd as [Hnd _].
          apply NoDup_app in Hnd as (_ & Hnd & _).
          apply (Hnd ch Hin). apply list_elem_of_here. }
      destruct Hsolo as [-> ->].
      eexists. split; [exact Hk|]. split; [|done].
      unfold linked. observe. rewrite Hcw, reverse_snoc.
      split_and!; try done.
    + (* close_fetchRequest: the queue is open *)
      destruct (Hwp ()) as (γ' & (Ha & Hwa & Hsh & ->) & Hk).
      rewrite decide_False in Hsolo.
      2:{ rewrite (Hcf Hsh). apply not_elem_of_nil. }
      destruct Hsolo as [-> ->].
      eexists. split; [exact Hk|]. split; [|done].
      unfold linked. observe.
      split_and!; try done; try (intros; congruence).
    + (* wg_Add *)
      destruct Hsolo as [-> ->].
      destruct (Hwp ()) as (γ' & (Ha & -> & Hwa & Hclo & Hse & ->) & Hk).
      eexists. split; [exact Hk|]. split; [|done].
      unfold linked. observe.
      split_and!; try done.
      intros wg'. rewrite !Hwg, Ha.
      repeat case_decide; simplify_eq; lia.
    + (* wg_Wait *)
      destruct Hsolo as (Hzero & -> & ->).
      assert (Hall : added γ = None → discharged wg (g_pool st)).
      { intros Ha. apply debts_discharged; [done|].
        rewrite Hwg, Ha in Hzero. lia. }
      destruct wg.
      * destruct (Hwp ()) as (γ' & (Ha & Hsh & ->) & Hk).
        eexists. split; [exact Hk|]. split; [|done].
        unfold linked. observe.
        split_and!; try done. intros _. by apply Hall.
      * destruct (Hwp ()) as (γ' & (Ha & Hwa & Hcr & ->) & Hk).
        eexists. split; [exact Hk|]. split; [|done].
        unfold linked. observe.
        split_and!; try done; try (intros; congruence).
        intros _. by apply Hall.
  - (* a range loop: the caller has none *)
    by destruct Hwp.
  - by destruct Hwp.
  - (* go *)
    intros [-> ->]. destruct Hwp as (γ' & (Ha & Hwa & Hchild & ->) & Hk).
    eexists. split; [exact Hk|].
    assert (Hsh : shut γ = false).
    { destruct (shut γ) eqn:Hsh; [|done]. by rewrite (Hsw eq_refl) in Hwa. }
    assert (Hre : rested γ = false).
    { destruct (rested γ) eqn:Hre; [|done]. by rewrite (Hrs eq_refl) in Hsh. }
    split.
    + unfold linked. observe. rewrite fmap_app, Hh.
      split_and!; try done; try (intros; congruence).
      intros wg. rewrite debts_app, Hwg, Ha. cbn. unfold owes. cbn.
      rewrite (works_owing_runs _ _ Hchild). cbn.
      destruct (decide (wg_of name = wg)) as [<-|Hne].
      * rewrite decide_True by done. rewrite bool_decide_eq_true_2 by done.
        cbn. rewrite decide_False by done. lia.
      * rewrite decide_False by congruence.
        rewrite bool_decide_eq_false_2 by done.
        cbn. rewrite decide_False by done. lia.
    + cbn. apply Forall_app. split; [done|]. apply Forall_singleton.
      by exists owing.
Qed.

(** ** Sends and receives, seen from the monitors *)

Ltac head_event p :=
  destruct p as [?|?|? [] ?|? ? ?|? ? ?|? ? ?]; try done.

Lemma offers_WorkRequest_caller (p p' : proc (option error)) (ch : nat)
    (w : WorkRequest) (γ : plan) :
  offers_WorkRequest p = Some (ch, w, p') →
  runs p γ →
  added γ = None ∧ closed γ = [] ∧
  (posted γ ++ [(ch, w)]) `prefix_of` deliveries (listed γ) (made γ) ∧
  runs p' (set_posted (posted γ ++ [(ch, w)]) γ).
Proof.
  unfold runs. head_event p. cbn. intros [= <- <- <-] Hwp.
  by destruct (Hwp ()) as (γ' & (Ha & Hwa & Hcl & Hpre & ->) & Hk).
Qed.

Lemma offers_WorkRequest_worker (name : goroutine) (p p' : proc unit)
    (ch : nat) (w : WorkRequest) (g : debt) :
  offers_WorkRequest p = Some (ch, w, p') →
  works name p g → False.
Proof.
  unfold works. head_event p. cbn. intros _ Hwp.
  by destruct (Hwp ()) as (g' & [] & _).
Qed.

Lemma offers_fetchRequest_caller (p p' : proc (option error)) (ch : nat)
    (r : fetchRequest) (γ : plan) :
  offers_fetchRequest p = Some (ch, r, p') →
  runs p γ → False.
Proof.
  unfold runs. head_event p. cbn. intros _ Hwp.
  by destruct (Hwp ()) as (g' & [] & _).
Qed.

Lemma offers_FieldMap_caller (p p' : proc (option error)) (ch : nat)
    (m : gmap string Field) (γ : plan) :
  offers_FieldMap p = Some (ch, m, p') →
  runs p γ → False.
Proof.
  unfold runs. head_event p. cbn. intros _ Hwp.
  by destruct (Hwp ()) as (g' & [] & _).
Qed.

Lemma takes_WorkRequest_caller (p p' : proc (option error)) (ch : nat)
    (w : WorkRequest) (γ : plan) :
  takes_WorkRequest p ch w = Some p' →
  runs p γ → False.
Proof. unfold runs. destruct p; try done. cbn. by intros _ [? _]. Qed.

Lemma takes_fetchRequest_caller (p p' : proc (option error)) (ch : nat)
    (r : fetchRequest) (γ : plan) :
  takes_fetchRequest p ch r = Some p' →
  runs p γ → False.
Proof. unfold runs. destruct p; try done. cbn. by intros _ [? _]. Qed.

Lemma takes_FieldMap_caller (p p' : proc (option error)) (ch : nat)
    (m : gmap string Field) (γ : plan) :
  takes_FieldMap p ch m = Some p' →
  runs p γ → False.
Proof.
  unfold runs. head_event p. cbn. intros _ Hwp.
  by destruct (Hwp ∅) as (g' & [] & _).
Qed.

(** A worker that sends or receives stays in the same monitor state. *)
Definition keeps_going (name : goroutine) (p p' : proc unit) : Prop :=
  exited p = false ∧ ∀ g, works name p g → works name p' g.

Lemma offers_fetchRequest_worker (name : goroutine) (p p' : proc unit)
    (ch : nat) (r : fetchRequest) (g : debt) :
  offers_fetchRequest p = Some (ch, r, p') → works name p g →
  wg_of name = storers ∧ keeps_going name p p'.
Proof.
  unfold keeps_going, works. head_event p. cbn. intros [= <- <- <-] Hwp.
  destruct (Hwp ()) as (g' & (Hwg & _) & _).
  split; [done|]. split; [done|]. intros g0 Hwp0.
  by destruct (Hwp0 ()) as (g0' & (_ & _ & ->) & Hk).
Qed.

Lemma offers_FieldMap_worker (name : goroutine) (p p' : proc unit) (ch : nat)
    (m : gmap string Field) :
  offers_FieldMap p = Some (ch, m, p') → keeps_going name p p'.
Proof.
  unfold keeps_going, works. head_event p. cbn. intros [= <- <- <-].
  split; [done|]. intros g Hwp.
  by destruct (Hwp ()) as (g' & (_ & _ & ->) & Hk).
Qed.

Lemma takes_FieldMap_worker (name : goroutine) (p p' : proc unit) (ch : nat)
    (m : gmap string Field) :
  takes_FieldMap p ch m = Some p' → keeps_going name p p'.
Proof.
  unfold keeps_going, works. head_event p. cbn. case_decide; [|done].
  intros [= <-]. split; [done|]. intros g Hwp.
  by destruct (Hwp m) as (g' & (_ & _ & ->) & Hk).
Qed.

Lemma takes_WorkRequest_worker (name : goroutine) (p p' : proc unit)
    (ch : nat) (w : WorkRequest) :
  takes_WorkRequest p ch w = Some p' → keeps_going name p p'.
Proof.
  unfold keeps_going, works.
  destruct p as [?|?|? ? ?|ch' body k|? ? ?|? ? ?]; try done. cbn.
  case_decide; [|done]. intros [= <-]. split; [done|].
  intros g (Hr & Hb & Hk). apply (wp_bind (worker (wg_of name))).
  eapply wp_mono; [| |apply Hb]; [|done]. by intros _ g' ->.
Qed.

Lemma takes_fetchRequest_worker (name : goroutine) (p p' : proc unit)
    (ch : nat) (r : fetchRequest) :
  takes_fetchRequest p ch r = Some p' → keeps_going name p p'.
Proof.
  unfold keeps_going, works.
  destruct p as [?|?|? ? ?|? ? ?|ch' body k|? ? ?]; try done. cbn.
  case_decide; [|done]. intros [= <-]. split; [done|].
  intros g (Hr & Hb & Hk). apply (wp_bind (worker (wg_of name))).
  eapply wp_mono; [| |apply Hb]; [|done]. by intros _ g' ->.
Qed.

(** Such a worker leaves the pool as it was for the invariant. *)
Lemma pool_keeps_going (pool : list (goroutine * proc unit)) (i : nat)
    (name : goroutine) (p p' : proc unit) :
  pool !! i = Some (name, p) → keeps_going name p p' →
  Forall worker_inv pool →
  Forall worker_inv (update pool i p') ∧
  ∀ wg, debts wg (update pool i p') = debts wg pool.
Proof.
  intros Hi [Hrun Hkeep] Hpool.
  assert (Hinv : worker_inv (name, p))
    by (eapply (proj1 (Forall_lookup _ _) Hpool); eauto).
  destruct Hinv as (g & Hg). change (works name p g) in Hg.
  assert (g = owing) as ->.
  { destruct g; [done|]. by rewrite (works_paid_exited _ _ Hg) in Hrun. }
  pose proof (Hkeep _ Hg) as Hg'.
  split; [eapply Forall_update; [exact Hi|by exists owing|done]|].
  intros wg. pose proof (debts_update wg pool i p' Hi) as Hd.
  unfold owes in Hd. cbn in Hd.
  rewrite Hrun, (works_owing_runs _ _ Hg') in Hd. lia.
Qed.

Lemma code_of_worker (st : gstate) (i : nat) (c : code) :
  code_of st (the_worker i) = Some c →
  ∃ name p, g_pool st !! i = Some (name, p) ∧ c = inr p.
Proof.
  cbn. destruct (g_pool st !! i) as [[name p]|]; [|done].
  intros [= <-]. by exists name, p.
Qed.

Lemma solo_runs {R : Type} (st st' : gstate) (me : gid) (p p' : proc R) :
  solo st me p p' st' → exited p = false.
Proof. by destruct p. Qed.

(** ** The invariant holds along every run *)

Lemma pipeline_inv_initial (src : InboxInfo) :
  pipeline_inv (initial src dsts).
Proof.
  exists no_plan. split; [apply SearchAndStore_wp|]. split; [done|].
  unfold linked. cbn. split_and!; try done; apply prefix_nil.
Qed.

(** Two workers that hand a value over leave the state linked. *)
Lemma linked_handover (γ : plan) (st : gstate) (i j : nat)
    (name name' : goroutine) (p p' q q' : proc unit)
    (new : list (gid * entry)) :
  linked γ st → Forall worker_inv (g_pool st) → i ≠ j →
  g_pool st !! i = Some (name, p) → g_pool st !! j = Some (name', q) →
  keeps_going name p p' → keeps_going name' q q' →
  listings new.*2 = [] → work_chans new.*2 = [] → work_sends new.*2 = [] →
  linked γ (set_code (set_code (record st new) (the_worker i) (inr p'))
              (the_worker j) (inr q')) ∧
  Forall worker_inv
    (g_pool (set_code (set_code (record st new) (the_worker i) (inr p'))
               (the_worker j) (inr q'))).
Proof.
  intros (Hwg & Hds & Hdf & Hcrew & Hsw & Hrs & Hcf & Hcw & Hcl & Hcm
          & Hpre & Hl & Hc & Hs & Hh) Hpool Hij Hi Hj Hkeep Hkeep' Hn1 Hn2 Hn3.
  destruct (pool_keeps_going i Hi Hkeep Hpool) as [Hpool' Hdebts].
  assert (Hj' : update (g_pool st) i p' !! j = Some (name', q))
    by (by rewrite lookup_update_ne).
  destruct (pool_keeps_going j Hj' Hkeep' Hpool') as [Hpool'' Hdebts'].
  cbn [set_code]. split; [|exact Hpool''].
  unfold linked. observe. rewrite Hn1, Hn2, Hn3. rewrite ?app_nil_r.
  fold (update (g_pool st) i p').
  fold (update (update (g_pool st) i p') j q').
  rewrite !names_update.
  split_and!; try done.
  - intros wg. by rewrite Hdebts', Hdebts.
  - intros Hwa. eapply discharged_update; eauto; [by destruct Hkeep'|].
    eapply discharged_update; eauto. by destruct Hkeep.
  - intros Hwa. eapply discharged_update; eauto; [by destruct Hkeep'|].
    eapply discharged_update; eauto. by destruct Hkeep.
Qed.

Lemma pipeline_inv_step (st st' : gstate) :
  pipeline_inv st → fresh_chans st → gstep st st' → pipeline_inv st'.
Proof.
  intros (γ & Hwp & Hpool & Hlink) [Hnd _] Hstep.
  destruct Hstep as [g c c' st0 Hal Hc Hsolo
                    |s r cs cr cs' cr' ch w Hal Hsr Hs Hr Hch Hsend Hget
                    |s r cs cr cs' cr' ch req Hal Hsr Hs Hr Hch Hsend Hget
                    |s r cs cr cs' cr' ch m Hal Hsr Hs Hr Hsend Hget].
  - (* a goroutine on its own *)
    destruct g as [|i].
    + (* the caller *)
      injection Hc as <-. destruct c' as [p'|]; [|done]. cbn in Hsolo.
      assert (Hnd' : NoDup (made γ)).
      { destruct Hlink as (_ & _ & _ & _ & _ & _ & _ & _ & _ & _ & _ & _
                           & <- & _). exact Hnd. }
      destruct (@caller_solo st st0 p' γ Hwp Hlink Hpool Hal Hnd' Hsolo)
        as (γ' & Hwp' & Hlink' & Hpool').
      exists γ'. cbn [set_code]. split; [done|]. split; [done|].
      destruct Hlink' as (? & ? & ? & ? & ? & ? & ? & ? & ? & ? & ? & ? & ?
                          & ? & ?).
      unfold linked. observe. by split_and!.
    + (* a worker *)
      apply code_of_worker in Hc as (name & p & Hi & ->).
      destruct c' as [|p']; [done|]. cbn in Hsolo.
      pose proof (solo_runs _ _ _ _ _ Hsolo) as Hruns.
      assert (Hinv : worker_inv (name, p))
        by (eapply (proj1 (Forall_lookup _ _) Hpool); eauto).
      destruct Hinv as (g & Hw). change (works name p g) in Hw.
      assert (g = owing) as ->.
      { destruct g; [done|]. by rewrite (works_paid_exited _ _ Hw) in Hruns. }
      destruct Hlink as (Hwg & Hds & Hdf & Hcrew & Hsw & Hrs & Hcf & Hcw & Hcl
                         & Hcm & Hpre & Hl & Hc & Hs & Hh).
      assert (Howes : owes (wg_of name) (name, p) = true).
      { unfold owes. cbn. rewrite Hruns. by rewrite bool_decide_eq_true_2. }
      assert (Hpos : 0 < g_wg st (wg_of name)).
      { rewrite Hwg. pose proof (debts_some _ _ i Hi Howes). lia. }
      assert (Hopen : wg_of name = storers → g_closed_fetchRequest st = []).
      { intros Hn. apply Hcf. destruct (shut γ) eqn:Hsh; [|done].
        destruct (@discharged_update _ _ i name p p' Hi Hruns
                    (Hds (Hsw eq_refl)));
          congruence. }
      destruct (@worker_solo st st0 (the_worker i) name p p' owing
                  Hw Hpos Hopen Hsolo)
        as ((Hm & Hpo & Hcw' & Hcf' & Hl' & Hch' & Hse') & g' & Hw' & Hg').
      exists γ. cbn [set_code]. observe. rewrite Hm, Hpo. split; [done|].
      split; [eapply Forall_update; [exact Hi|by exists g'|done]|].
      unfold linked. observe. rewrite ?Hpo, Hcw', Hcf', Hl', Hch', Hse'.
      fold (update (g_pool st) i p'). rewrite names_update.
      split_and!; try done.
      * intros wg. pose proof (debts_update wg (g_pool st) i p' Hi) as Hd.
        unfold owes in Hd. cbn in Hd. rewrite Hruns in Hd.
        destruct Hg' as [[-> Heq]|(_ & -> & Heq1 & Heq2)].
        -- rewrite Heq, Hwg. rewrite (works_owing_runs _ _ Hw') in Hd. lia.
        -- rewrite (works_paid_exited _ _ Hw') in Hd.
           destruct (decide (wg = wg_of name)) as [->|Hne].
           ++ rewrite bool_decide_eq_true_2 in Hd by done. cbn in Hd.
              rewrite Hwg in Heq1. lia.
           ++ rewrite (Heq2 _ Hne), Hwg.
              rewrite bool_decide_eq_false_2 in Hd by done. cbn in Hd. lia.
      * intros Hwa.
        apply (proj2 (@discharged_update _ _ i name p p' Hi Hruns (Hds Hwa))).
      * intros Hre.
        apply (proj2 (@discharged_update _ _ i name p p' Hi Hruns (Hdf Hre))).
  - (* a work request handed over *)
    destruct s as [|i].
    2:{ apply code_of_worker in Hs as (name & p & Hi & ->).
        cbn in Hsend. destruct (offers_WorkRequest p) as [[[ch' w'] p']|] eqn:Ho;
          [|done].
        assert (Hinv : worker_inv (name, p))
          by (eapply (proj1 (Forall_lookup _ _) Hpool); eauto).
        exfalso. destruct Hinv as (g & Hw).
        by eapply offers_WorkRequest_worker. }
    injection Hs as <-. cbn in Hsend.
    destruct (offers_WorkRequest (g_main st)) as [[[ch' w'] m']|] eqn:Ho;
      [|done].
    injection Hsend as -> -> <-.
    destruct (offers_WorkRequest_caller _ _ Ho Hwp) as (Ha & Hclo & Hpre' & Hwp').
    destruct r as [|j]; [done|].
    apply code_of_worker in Hr as (name & p & Hj & ->). cbn in Hget.
    destruct (takes_WorkRequest p ch w) as [p'|] eqn:Ht; [|done].
    injection Hget as <-.
    pose proof (takes_WorkRequest_worker name _ _ _ Ht) as Hkeep.
    destruct (pool_keeps_going j Hj Hkeep Hpool) as [Hpool' Hdebts].
    destruct Hlink as (Hwg & Hds & Hdf & Hcrew & Hsw & Hrs & Hcf & Hcw & Hcl
                       & Hcm & Hpre & Hl & Hc & Hs & Hh).
    eexists. cbn [set_code]. observe. split; [exact Hwp'|].
    split; [exact Hpool'|].
    unfold linked. observe. rewrite Hs.
    fold (update (g_pool st) j p'). rewrite names_update.
    split_and!; try done.
    + intros wg. by rewrite Hdebts.
    + intros Hwa. eapply discharged_update; eauto. by destruct Hkeep.
    + intros Hre. eapply discharged_update; eauto. by destruct Hkeep.
  - (* a fetch request handed over *)
    destruct s as [|i].
    { injection Hs as <-. cbn in Hsend.
      destruct (offers_fetchRequest (g_main st)) as [[[ch' r'] m']|] eqn:Ho;
        [|done].
      exfalso. by eapply offers_fetchRequest_caller. }
    destruct r as [|j].
    { injection Hr as <-. cbn in Hget.
      destruct (takes_fetchRequest (g_main st) ch req) as [m'|] eqn:Ht;
        [|done].
      exfalso. by eapply takes_fetchRequest_caller. }
    apply code_of_worker in Hs as (name & p & Hi & ->).
    apply code_of_worker in Hr as (name' & q & Hj & ->).
    cbn in Hsend, Hget.
    destruct (offers_fetchRequest p) as [[[ch' r'] p']|] eqn:Ho; [|done].
    injection Hsend as -> -> <-.
    destruct (takes_fetchRequest q ch req) as [q'|] eqn:Ht; [|done].
    injection Hget as <-.
    assert (Hij : i ≠ j) by congruence.
    assert (Hinv : worker_inv (name, p))
      by (eapply (proj1 (Forall_lookup _ _) Hpool); eauto).
    destruct Hinv as (g & Hw).
    destruct (@offers_fetchRequest_worker name p p' ch req g Ho Hw)
      as [_ Hkeep].
    pose proof (@takes_fetchRequest_worker name' q q' ch req Ht) as Hkeep'.
    exists γ. split; [exact Hwp|].
    destruct (@linked_handover γ st i j name name' p p' q q'
                [(the_worker i, Called (send_fetchRequest ch req) (Some ()));
                 (the_worker j, Got_fetchRequest ch req)]
                Hlink Hpool Hij Hi Hj Hkeep Hkeep') as [Hlink' Hpool'];
      done.
  - (* a response handed over *)
    destruct s as [|i].
    { injection Hs as <-. cbn in Hsend.
      destruct (offers_FieldMap (g_main st)) as [[[ch' r'] m']|] eqn:Ho;
        [|done].
      exfalso. by eapply offers_FieldMap_caller. }
    destruct r as [|j].
    { injection Hr as <-. cbn in Hget.
      destruct (takes_FieldMap (g_main st) ch m) as [m'|] eqn:Ht; [|done].
      exfalso. by eapply takes_FieldMap_caller. }
    apply code_of_worker in Hs as (name & p & Hi & ->).
    apply code_of_worker in Hr as (name' & q & Hj & ->).
    cbn in Hsend, Hget.
    destruct (offers_FieldMap p) as [[[ch' r'] p']|] eqn:Ho; [|done].
    injection Hsend as -> -> <-.
    destruct (takes_FieldMap q ch m) as [q'|] eqn:Ht; [|done].
    injection Hget as <-.
    assert (Hij : i ≠ j) by congruence.
    pose proof (@offers_FieldMap_worker name p p' ch m Ho) as Hkeep.
    pose proof (@takes_FieldMap_worker name' q q' ch m Ht) as Hkeep'.
    exists γ. split; [exact Hwp|].
    destruct (@linked_handover γ st i j name name' p p' q q'
                [(the_worker i, Called (send_FieldMap ch m) (Some ()));
                 (the_worker j, Called (recv_FieldMap ch) (Some m))]
                Hlink Hpool Hij Hi Hj Hkeep Hkeep') as [Hlink' Hpool'];
      done.
Qed.

(** ** Fresh channels *)

Lemma fresh_chans_record (st : gstate) (me : gid) (x : entry) :
  work_chans [x] = [] → fresh_chans st → fresh_chans (record st [(me, x)]).
Proof.
  intros Hx [Hnd Hlt]. unfold fresh_chans. rewrite entries_record.
  cbn [fmap list_fmap snd]. rewrite work_chans_app, Hx, app_nil_r. by split.
Qed.

Lemma fresh_chans_later (st : gstate) :
  fresh_chans st → fresh_chans (fresh_chan st).
Proof.
  intros [Hnd Hlt]. split; [done|]. rewrite entries_fresh_chan. cbn.
  eapply Forall_impl; [exact Hlt|]. cbn. lia.
Qed.

Lemma solo_fresh_chans {R : Type} (st st' : gstate) (me : gid)
    (p p' : proc R) :
  solo st me p p' st' → fresh_chans st → fresh_chans st'.
Proof.
  destruct p as [r|m|X e k|ch body k|ch body k|name child k]; cbn;
    try done.
  - destruct e; cbn; unfold returns;
      try (intros (x & -> & ->) Hf; by apply fresh_chans_record);
      try (intros (-> & ->) Hf; by apply fresh_chans_record);
      try (intros (_ & _ & ->) Hf; exact Hf);
      try (case_decide; intros (-> & ->) Hf;
           [exact Hf|by apply fresh_chans_record]).
    + (* make(chan WorkRequest) *)
      intros (-> & ->) [Hnd Hlt]. unfold fresh_chans.
      rewrite entries_record, entries_fresh_chan.
      cbn [fmap list_fmap snd]. rewrite work_chans_app. cbn. split.
      * apply NoDup_app. split; [done|]. split; [|apply NoDup_singleton].
        intros c Hc Hc'. apply list_elem_of_singleton in Hc' as ->.
        apply (proj1 (Forall_forall _ _) Hlt) in Hc. lia.
      * apply Forall_app. split; [|apply Forall_singleton; lia].
        eapply Forall_impl; [exact Hlt|]. cbn. lia.
    + intros (-> & ->) Hf. by apply fresh_chans_record, fresh_chans_later.
    + intros (-> & ->) Hf. by apply fresh_chans_record, fresh_chans_later.
    + done.
    + done.
    + destruct (g_wg st _); intros (-> & ->) Hf;
        [exact Hf|by apply fresh_chans_record].
  - by intros (_ & _ & ->).
  - by intros (_ & _ & ->).
  - intros (-> & ->) Hf. by apply fresh_chans_record.
Qed.

Lemma fresh_chans_set_code (st : gstate) (g : gid) (c : code) :
  fresh_chans st → fresh_chans (set_code st g c).
Proof. by destruct g, c. Qed.

Lemma fresh_chans_step (st st' : gstate) :
  fresh_chans st → gstep st st' → fresh_chans st'.
Proof.
  intros Hf Hstep.
  destruct Hstep as [g c c' st0 Hal Hc Hsolo
                    |s r cs cr cs' cr' ch w Hal Hsr Hs Hr Hch Hsend Hget
                    |s r cs cr cs' cr' ch req Hal Hsr Hs Hr Hch Hsend Hget
                    |s r cs cr cs' cr' ch m Hal Hsr Hs Hr Hsend Hget].
  - apply fresh_chans_set_code.
    destruct c as [p|p], c' as [p'|p']; cbn in Hsolo; try done;
      by eapply solo_fresh_chans.
  - do 2 apply fresh_chans_set_code. destruct Hf as [Hnd Hlt].
    unfold fresh_chans. rewrite entries_record. cbn [fmap list_fmap snd].
    rewrite work_chans_app. cbn. by rewrite app_nil_r.
  - do 2 apply fresh_chans_set_code. destruct Hf as [Hnd Hlt].
    unfold fresh_chans. rewrite entries_record. cbn [fmap list_fmap snd].
    rewrite work_chans_app. cbn. by rewrite app_nil_r.
  - do 2 apply fresh_chans_set_code. destruct Hf as [Hnd Hlt].
    unfold fresh_chans. rewrite entries_record. cbn [fmap list_fmap snd].
    rewrite work_chans_app. cbn. by rewrite app_nil_r.
Qed.

(** ** Every state of every run *)

Lemma pipeline_inv_reachable (src : InboxInfo) (st : gstate) :
  reachable src dsts st → pipeline_inv st ∧ fresh_chans st.
Proof.
  unfold reachable. revert st. apply rtc_ind_r.
  - split; [apply pipeline_inv_initial|].
    split; [apply NoDup_nil_2|apply Forall_nil_2].
  - intros st st' _ Hstep [IH Hf].
    split; [by apply (pipeline_inv_step IH Hf)|by apply (fresh_chans_step Hf)].
Qed.

Lemma linked_in_order (γ : plan) (st : gstate) :
  linked γ st →
  work_sends (entries st)
  `prefix_of` deliveries (concat (listings (entries st)))
                (work_chans (entries st)).
Proof.
  intros (_ & _ & _ & _ & _ & _ & _ & _ & _ & _ & Hpre & Hl & Hc & Hs & _).
  by rewrite Hl, Hc, Hs.
Qed.

Lemma hired_by_staff (pool : list (goroutine * proc unit)) :
  pool.*1 = staff dsts → hired_by pool = crew dsts.
Proof.
  intros Hn. rewrite hired_by_names, Hn. unfold staff.
  rewrite omap_app.
  assert (H1 : ∀ n, omap (fun name => match name with
                                      | go_checkAndStoreMessages dst => Some dst
                                      | go_fetchEmails => None
                                      end) (replicate n go_fetchEmails) = []).
  { intros n. by induction n. }
  rewrite H1. cbn. induction (crew dsts) as [|dst l IH]; [done|].
  cbn. by rewrite IH.
Qed.

(** X1. In every state that a run of [SearchAndStore src dsts] reaches: if
    a work queue has been closed, then every work request of the listing has
    been handed to a store worker on every work queue, in the order of
    [deliveries]; if the fetch queue has been closed, then every
    destination has had its [MaxImapConns] store workers started and every
    store worker has returned, so that none is left to send a fetch
    request. *)
Theorem SearchAndStore_shuts_down_in_order (src : InboxInfo) (st : gstate) :
  reachable src dsts st →
  (g_closed_WorkRequest st ≠ [] →
   work_sends (entries st)
   = deliveries (concat (listings (entries st))) (work_chans (entries st))) ∧
  (g_closed_fetchRequest st ≠ [] →
   hired_by (g_pool st) = crew dsts ∧
   ∀ i dst p, g_pool st !! i = Some (go_checkAndStoreMessages dst, p) →
              p = Ret ()).
Proof.
  intros Hrun.
  destruct (pipeline_inv_reachable Hrun) as [(γ & _ & _ & Hlink) _].
  destruct Hlink as (Hwg & Hds & Hdf & Hcrew & Hsw & Hrs & Hcf & Hcw & Hcl
                     & Hcm & Hpre & Hl & Hc & Hs & Hh).
  split.
  - intros Hne. rewrite Hl, Hc, Hs. apply Hcl. intros Hnil.
    by rewrite Hcw, Hnil in Hne.
  - intros Hne. destruct (shut γ) eqn:Hsh; [|by rewrite Hcf in Hne].
    specialize (Hsw eq_refl). split.
    + apply hired_by_staff. by rewrite Hh, Hcrew.
    + intros i dst p Hi. by apply (Hds Hsw i _ _ Hi).
Qed.

(** X9. In every state that a run of [SearchAndStore src dsts] reaches,
    however the goroutines take turns, the work requests handed to the
    store workers so far are a first part of [deliveries] of the listing
    over the work queues in the order in which they were made; the work
    queues are pairwise distinct, and what each of them has carried so far
    is a first part of the work requests of the listing, in listing
    order. *)
Theorem SearchAndStore_delivers_in_order (src : InboxInfo) (st : gstate) :
  reachable src dsts st →
  work_sends (entries st)
  `prefix_of` deliveries (concat (listings (entries st)))
                (work_chans (entries st)) ∧
  NoDup (work_chans (entries st)) ∧
  ∀ q, q ∈ work_chans (entries st) →
       (filter (fun x => x.1 = q) (work_sends (entries st))).*2
       `prefix_of` work_items (concat (listings (entries st))).
Proof.
  intros Hrun.
  destruct (pipeline_inv_reachable Hrun) as [(γ & _ & _ & Hlink) [Hnd _]].
  pose proof (linked_in_order Hlink) as Hord.
  split; [exact Hord|]. split; [exact Hnd|]. intros q Hq.
  rewrite <- (deliveries_queue (concat (listings (entries st))) Hnd Hq).
  destruct Hord as [rest ->]. rewrite filter_app, fmap_app.
  by apply prefix_app_r.
Qed.

(** X13. In every run of [SearchAndStore src dsts], when the function has
    returned nil, the goroutines it started are [MaxImapConns] fetch
    workers and [MaxImapConns] store workers for each destination, and
    every one of them has returned: none is left behind, and both wait
    groups are back at zero. When it has returned an error, it has started
    no goroutine at all. *)
Theorem SearchAndStore_leaves_no_worker (src : InboxInfo) (st : gstate)
    (r : option error) :
  reachable src dsts st → g_main st = Ret r →
  match r with
  | None => (g_pool st).*1 = staff dsts ∧
            Forall (fun np => np.2 = Ret ()) (g_pool st) ∧
            ∀ wg, g_wg st wg = 0
  | Some _ => g_pool st = []
  end.
Proof.
  intros Hrun Hret.
  destruct (pipeline_inv_reachable Hrun) as [(γ & Hwp & _ & Hlink) _].
  destruct Hlink as (Hwg & Hds & Hdf & Hcrew & Hsw & Hrs & Hcf & Hcw & Hcl
                     & Hcm & Hpre & Hl & Hc & Hs & Hh).
  unfold runs in Hwp. rewrite Hret in Hwp. cbn in Hwp.
  destruct Hwp as [Ha Hr]. destruct r as [err|].
  - apply fmap_nil_inv with (f := fst). by rewrite Hh.
  - pose proof (Hrs Hr) as Hsh. pose proof (Hsw Hsh) as Hwa.
    assert (Hall : Forall (fun np => np.2 = Ret ()) (g_pool st)).
    { apply Forall_lookup. intros i [name p] Hi. cbn.
      destruct (wg_of name) eqn:Hn.
      - by apply (Hdf Hr i _ _ Hi).
      - by apply (Hds Hwa i _ _ Hi). }
    split; [by rewrite Hh, Hcrew|]. split; [exact Hall|].
    intros wg. rewrite Hwg, Ha. rewrite decide_False by done.
    clear -Hall. induction Hall as [|[name p] pool Hp _ IH]; [done|].
    cbn in *. unfold owes. cbn. rewrite Hp. cbn.
    rewrite andb_false_r. exact IH.
Qed.

(** X14. In every run of [SearchAndStore src dsts], however the goroutines
    take turns, the caller never panics, and a worker panics only as its
    own code says: a store worker when a search comes back without data, a
    fetch worker when the cache has no item. The Go runtime is never given
    cause to panic: no wait group counter goes below zero, no channel is
    closed twice, and nothing is sent on a closed channel. *)
Theorem SearchAndStore_keeps_to_the_runtime_rules (src : InboxInfo)
    (st : gstate) :
  reachable src dsts st →
  (∀ m, g_main st ≠ Panic m) ∧
  ∀ i name m, g_pool st !! i = Some (name, Panic m) →
    m = panic_of name ∧
    m ≠ "sync: negative WaitGroup counter" ∧
    m ≠ "close of closed channel" ∧
    m ≠ "send on closed channel".
Proof.
  intros Hrun.
  destruct (pipeline_inv_reachable Hrun) as [(γ & Hwp & Hpool & _) _].
  split.
  - intros m Hm. unfold runs in Hwp. by rewrite Hm in Hwp.
  - intros i name m Hi.
    destruct (proj1 (Forall_lookup _ _) Hpool i _ Hi) as (g & Hw).
    cbn in Hw. destruct Hw as [-> _]. split; [done|]. by destruct name.
Qed.

End Caller.

(** ** Runs by schedule

    A schedule names, step by step, the goroutine that moves on its own or
    the two goroutines that meet on a channel; [answer] gives what the calls
    to the outside return. A move that the state does not allow is passed
    over, so every schedule leads to a state that a run reaches. *)
Definition asks {R X : Type} (answer : forall X : Type, event X -> X)
    (st : gstate) (me : gid) (e : event X) (k : X -> proc R)
    : option (proc R * gstate) :=
  Some (k (answer X e), record st [(me, Called e (Some (answer X e)))]).

Definition alone {R : Type} (answer : forall X : Type, event X -> X)
    (st : gstate) (me : gid) (p : proc R) : option (proc R * gstate) :=
  match p with
  | Ret _ | Panic _ => None
  | Go name child k =>
      Some (k, record (set_pool st (g_pool st ++ [(name, child)]))
                 [(me, Spawned name child)])
  | RangeWork ch _ k =>
      if decide (ch ∈ g_closed_WorkRequest st) then Some (k, st) else None
  | RangeFetch ch _ k =>
      if decide (ch ∈ g_closed_fetchRequest st) then Some (k, st) else None
  | Vis e k =>
      match e in event X return (X -> proc R) -> option (proc R * gstate) with
      | wg_Add wg n => fun k =>
          Some (k (), record (set_wg st wg (g_wg st wg + n))
                        [(me, Called (wg_Add wg n) (Some ()))])
      | wg_Done wg => fun k =>
          match g_wg st wg with
          | O => Some (Panic "sync: negative WaitGroup counter", st)
          | S n => Some (k (), record (set_wg st wg n)
                                 [(me, Called (wg_Done wg) (Some ()))])
          end
      | wg_Wait wg => fun k =>
          if decide (g_wg st wg = 0)
          then Some (k (), record st [(me, Called (wg_Wait wg) (Some ()))])
          else None
      | make_chan_WorkRequest => fun k =>
          Some (k (g_next st),
                record (fresh_chan st)
                  [(me, Called make_chan_WorkRequest (Some (g_next st)))])
      | make_chan_fetchRequest => fun k =>
          Some (k (g_next st),
                record (fresh_chan st)
                  [(me, Called make_chan_fetchRequest (Some (g_next st)))])
      | make_chan_FieldMap => fun k =>
          Some (k (g_next st),
                record (fresh_chan st)
                  [(me, Called make_chan_FieldMap (Some (g_next st)))])
      | close_WorkRequest ch => fun k =>
          if decide (ch ∈ g_closed_WorkRequest st)
          then Some (Panic "close of closed channel", st)
          else Some (k (), record (close_work st ch)
                             [(me, Called (close_WorkRequest ch) (Some ()))])
      | close_fetchRequest ch => fun k =>
          if decide (ch ∈ g_closed_fetchRequest st)
          then Some (Panic "close of closed channel", st)
          else Some (k (), record (close_fetch st ch)
                             [(me, Called (close_fetchRequest ch) (Some ()))])
      | send_WorkRequest ch _ => fun _ =>
          if decide (ch ∈ g_closed_WorkRequest st)
          then Some (Panic "send on closed channel", st)
          else None
      | send_fetchRequest ch _ => fun _ =>
          if decide (ch ∈ g_closed_fetchRequest st)
          then Some (Panic "send on closed channel", st)
          else None
      | send_FieldMap _ _ => fun _ => None
      | recv_FieldMap _ => fun _ => None
      | GetAllMessages src => asks answer st me (GetAllMessages src)
      | GetConnection info ro => asks answer st me (GetConnection info ro)
      | UIDSearch c spec => asks answer st me (UIDSearch c spec)
      | UIDFetch c seq items => asks answer st me (UIDFetch c seq items)
      | Append c mbox flags date body =>
          asks answer st me (Append c mbox flags date body)
      | Close c expunge => asks answer st me (Close c expunge)
      | cache_Get cache key => asks answer st me (cache_Get cache key)
      | cache_Add cache item => asks answer st me (cache_Add cache item)
      | log_Printf msg => asks answer st me (log_Printf msg)
      end k
  end.

Inductive move : Type :=
| by_itself (g : gid)
| hands_over (s r : gid).

Global Instance alive_dec (st : gstate) : Decision (alive st).
Proof. unfold alive. apply _. Defined.

Definition alone_code (answer : forall X : Type, event X -> X) (st : gstate)
    (g : gid) (c : code) : option gstate :=
  match c with
  | inl p => (fun ps => set_code ps.2 g (inl ps.1)) <$> alone answer st g p
  | inr p => (fun ps => set_code ps.2 g (inr ps.1)) <$> alone answer st g p
  end.

Definition meet (st : gstate) (s r : gid) (cs cr : code) : option gstate :=
  match sends_WorkRequest cs, sends_fetchRequest cs, sends_FieldMap cs with
  | Some (ch, w, cs'), _, _ =>
      if decide (ch ∈ g_closed_WorkRequest st) then None else
      (fun cr' =>
         set_code
           (set_code
              (record st [(s, Called (send_WorkRequest ch w) (Some ()));
                          (r, Got_WorkRequest ch w)])
              s cs')
           r cr') <$> gets_WorkRequest cr ch w
  | None, Some (ch, req, cs'), _ =>
      if decide (ch ∈ g_closed_fetchRequest st) then None else
      (fun cr' =>
         set_code
           (set_code
              (record st [(s, Called (send_fetchRequest ch req) (Some ()));
                          (r, Got_fetchRequest ch req)])
              s cs')
           r cr') <$> gets_fetchRequest cr ch req
  | None, None, Some (ch, m, cs') =>
      (fun cr' =>
         set_code
           (set_code
              (record st [(s, Called (send_FieldMap ch m) (Some ()));
                          (r, Called (recv_FieldMap ch) (Some m))])
              s cs')
           r cr') <$> gets_FieldMap cr ch m
  | None, None, None => None
  end.

Definition fire (answer : forall X : Type, event X -> X) (st : gstate)
    (m : move) : option gstate :=
  if decide (alive st) then
    match m with
    | by_itself g => c ← code_of st g; alone_code answer st g c
    | hands_over s r =>
        if decide (s = r) then None else
        cs ← code_of st s; cr ← code_of st r; meet st s r cs cr
    end
  else None.

Definition follow (answer : forall X : Type, event X -> X)
    (schedule : list move) (st : gstate) : gstate :=
  foldl (fun st m => default st (fire answer st m)) st schedule.

Lemma alone_solo {R : Type} (answer : forall X : Type, event X -> X)
    (st st' : gstate) (me : gid) (p p' : proc R) :
  alone answer st me p = Some (p', st') → solo st me p p' st'.
Proof.
  destruct p as [r|m|X e k|ch body k|ch body k|name child k]; cbn;
    try done.
  - destruct e; cbn; unfold asks, returns;
      repeat case_decide; try done;
      try (intros [= <- <-]; by eauto).
    destruct (g_wg st wg); intros [= <- <-]; by eauto.
  - case_decide; [|done]. by intros [= <- <-].
  - case_decide; [|done]. by intros [= <- <-].
  - by intros [= <- <-].
Qed.

Lemma fire_gstep (answer : forall X : Type, event X -> X) (st st' : gstate)
    (m : move) :
  fire answer st m = Some st' → gstep st st'.
Proof.
  unfold fire. case_decide as Hal; [|done]. destruct m as [g|s r].
  - destruct (code_of st g) as [c|] eqn:Hc; [|done]. cbn.
    destruct c as [p|p]; cbn;
      destruct (alone answer st g p) as [[p' st0]|] eqn:Hp; try done;
      intros [= <-]; cbn.
    + apply (@step_solo st g (inl p) (inl p') st0); try done.
      by apply (alone_solo answer).
    + apply (@step_solo st g (inr p) (inr p') st0); try done.
      by apply (alone_solo answer).
  - case_decide as Hsr; [done|].
    destruct (code_of st s) as [cs|] eqn:Hs; [|done].
    destruct (code_of st r) as [cr|] eqn:Hr; [|done]. cbn. unfold meet.
    destruct (sends_WorkRequest cs) as [[[ch w] cs']|] eqn:Hw.
    { case_decide; [done|].
      destruct (gets_WorkRequest cr ch w) as [cr'|] eqn:Hg; [|done].
      intros [= <-]. by eapply step_WorkRequest. }
    destruct (sends_fetchRequest cs) as [[[ch req] cs']|] eqn:Hf.
    { case_decide; [done|].
      destruct (gets_fetchRequest cr ch req) as [cr'|] eqn:Hg; [|done].
      intros [= <-]. by eapply step_fetchRequest. }
    destruct (sends_FieldMap cs) as [[[ch m] cs']|] eqn:Hm; [|done].
    destruct (gets_FieldMap cr ch m) as [cr'|] eqn:Hg; [|done].
    intros [= <-]. by eapply step_FieldMap.
Qed.

Lemma follow_rtc (answer : forall X : Type, event X -> X)
    (schedule : list move) (st : gstate) :
  rtc gstep st (follow answer schedule st).
Proof.
  revert st. induction schedule as [|m schedule IH]; intros st; [done|].
  cbn. destruct (fire answer st m) as [st'|] eqn:Hm; cbn; [|apply IH].
  eapply rtc_l; [by eapply fire_gstep|apply IH].
Qed.

Lemma follow_reachable (answer : forall X : Type, event X -> X)
    (schedule : list move) (src : InboxInfo) (dsts : list InboxInfo) :
  reachable src dsts (follow answer schedule (initial src dsts)).
Proof. apply follow_rtc. Qed.

(** ** States that cannot move

    What a goroutine waits for when it cannot move on its own. A state in
    which every goroutine waits, and no goroutine waits for what another
    one offers, has no next state. *)
Inductive wait : Type :=
| over
| counter (wg : WaitGroup)
| work_wanted (ch : nat)
| fetch_wanted (ch : nat)
| response_wanted (ch : nat)
| work_offered (ch : nat)
| fetch_offered (ch : nat)
| response_offered (ch : nat).

Definition waits {R : Type} (st : gstate) (p : proc R) : option wait :=
  match p with
  | Ret _ | Panic _ => Some over
  | Go _ _ _ => None
  | RangeWork ch _ _ =>
      if decide (ch ∈ g_closed_WorkRequest st) then None
      else Some (work_wanted ch)
  | RangeFetch ch _ _ =>
      if decide (ch ∈ g_closed_fetchRequest st) then None
      else Some (fetch_wanted ch)
  | Vis e _ =>
      match e with
      | wg_Wait wg =>
          if decide (g_wg st wg = 0) then None else Some (counter wg)
      | send_WorkRequest ch _ =>
          if decide (ch ∈ g_closed_WorkRequest st) then None
          else Some (work_offered ch)
      | send_fetchRequest ch _ =>
          if decide (ch ∈ g_closed_fetchRequest st) then None
          else Some (fetch_offered ch)
      | send_FieldMap ch _ => Some (response_offered ch)
      | recv_FieldMap ch => Some (response_wanted ch)
      | _ => None
      end
  end.

Definition waits_code (st : gstate) (c : code) : option wait :=
  match c with
  | inl p => waits st p
  | inr p => waits st p
  end.

Definition meets (offer want : wait) : bool :=
  match offer, want with
  | work_offered ch, work_wanted ch'
  | fetch_offered ch, fetch_wanted ch'
  | response_offered ch, response_wanted ch' => bool_decide (ch = ch')
  | _, _ => false
  end.

Definition all_waits (st : gstate) : option (list wait) :=
  w ← waits st (g_main st);
  ws ← mapM (fun np => waits st np.2) (g_pool st);
  Some (w :: ws).

Definition at_rest (st : gstate) : bool :=
  match all_waits st with
  | Some ws => forallb (fun w => forallb (fun w' => negb (meets w w')) ws) ws
  | None => false
  end.

Lemma waits_solo {R : Type} (st st' : gstate) (me : gid) (p p' : proc R)
    (w : wait) :
  waits st p = Some w → ¬ solo st me p p' st'.
Proof.
  intros Hw Hsolo.
  destruct p as [r|m|X e k|ch body k|ch body k|name child k]; cbn in *;
    try done.
  - destruct e; cbn in *; try done; case_decide; try done;
      by destruct Hsolo.
  - case_decide; [done|]. by destruct Hsolo.
  - case_decide; [done|]. by destruct Hsolo.
Qed.

Lemma all_waits_code (st : gstate) (ws : list wait) (g : gid) (c : code) :
  all_waits st = Some ws → code_of st g = Some c →
  ∃ w, waits_code st c = Some w ∧ w ∈ ws.
Proof.
  unfold all_waits. destruct (waits st (g_main st)) as [w0|] eqn:Hmain; [|done].
  cbn. destruct (mapM _ (g_pool st)) as [ws'|] eqn:Hpool; [|done].
  cbn. intros [= <-]. apply mapM_Some in Hpool. destruct g as [|i]; cbn.
  - intros [= <-]. exists w0. split; [done|]. apply elem_of_cons. by left.
  - destruct (g_pool st !! i) as [np|] eqn:Hi; [|done]. cbn. intros [= <-].
    destruct (Forall2_lookup_l _ _ _ _ _ Hpool Hi) as (w & Hw & Hnp).
    exists w. split; [done|]. apply elem_of_cons. right.
    by eapply list_elem_of_lookup_2.
Qed.

Lemma at_rest_apart (st : gstate) (s r : gid) (cs cr : code)
    (offer want : wait) :
  at_rest st = true →
  code_of st s = Some cs → code_of st r = Some cr →
  waits_code st cs = Some offer → waits_code st cr = Some want →
  meets offer want = false.
Proof.
  unfold at_rest. destruct (all_waits st) as [ws|] eqn:Hws; [|done].
  intros Hall Hs Hr Ho Hw.
  destruct (all_waits_code _ _ Hws Hs) as (w1 & Hw1 & Hin1).
  destruct (all_waits_code _ _ Hws Hr) as (w2 & Hw2 & Hin2).
  rewrite Ho in Hw1. rewrite Hw in Hw2.
  injection Hw1 as <-. injection Hw2 as <-.
  rewrite forallb_forall in Hall.
  apply list_elem_of_In, Hall in Hin1. rewrite forallb_forall in Hin1.
  apply list_elem_of_In, Hin1 in Hin2. by apply negb_true_iff in Hin2.
Qed.

Theorem at_rest_no_step (st st' : gstate) :
  at_rest st = true → ¬ gstep st st'.
Proof.
  intros Hrest Hstep.
  destruct Hstep as [g c c' st0 Hal Hc Hsolo
                    |s r cs cr cs' cr' ch w Hal Hsr Hs Hr Hch Hsend Hget
                    |s r cs cr cs' cr' ch req Hal Hsr Hs Hr Hch Hsend Hget
                    |s r cs cr cs' cr' ch m Hal Hsr Hs Hr Hsend Hget].
  - unfold at_rest in Hrest.
    destruct (all_waits st) as [ws|] eqn:Hws; [|done].
    destruct (all_waits_code _ _ Hws Hc) as (w & Hw & _).
    destruct c as [p|p], c' as [p'|p']; cbn in Hsolo, Hw; try done;
      by eapply waits_solo.
  - assert (Ho : waits_code st cs = Some (work_offered ch)).
    { destruct cs as [p|p]; cbn in *;
        destruct p as [?|?|? [] ?|? ? ?|? ? ?|? ? ?]; try done;
        cbn in *; injection Hsend as -> _ _; by rewrite decide_False. }
    assert (Hw : waits_code st cr = Some (work_wanted ch)).
    { destruct cr as [p|p]; cbn in *;
        destruct p as [?|?|? ? ?|ch' ? ?|? ? ?|? ? ?]; try done;
        cbn in *; case_decide; try done; subst; by rewrite decide_False. }
    pose proof (at_rest_apart _ _ _ Hrest Hs Hr Ho Hw) as Hm.
    cbn in Hm. by rewrite bool_decide_eq_true_2 in Hm.
  - assert (Ho : waits_code st cs = Some (fetch_offered ch)).
    { destruct cs as [p|p]; cbn in *;
        destruct p as [?|?|? [] ?|? ? ?|? ? ?|? ? ?]; try done;
        cbn in *; injection Hsend as -> _ _; by rewrite decide_False. }
    assert (Hw : waits_code st cr = Some (fetch_wanted ch)).
    { destruct cr as [p|p]; cbn in *;
        destruct p as [?|?|? ? ?|? ? ?|ch' ? ?|? ? ?]; try done;
        cbn in *; case_decide; try done; subst; by rewrite decide_False. }
    pose proof (at_rest_apart _ _ _ Hrest Hs Hr Ho Hw) as Hm.
    cbn in Hm. by rewrite bool_decide_eq_true_2 in Hm.
  - assert (Ho : waits_code st cs = Some (response_offered ch)).
    { destruct cs as [p|p]; cbn in *;
        destruct p as [?|?|? [] ?|? ? ?|? ? ?|? ? ?]; try done;
        cbn in *; by injection Hsend as -> _ _. }
    assert (Hw : waits_code st cr = Some (response_wanted ch)).
    { destruct cr as [p|p]; cbn in *;
        destruct p as [?|?|? [] ?|? ? ?|? ? ?|? ? ?]; try done;
        cbn in *; case_decide; try done; by subst. }
    pose proof (at_rest_apart _ _ _ Hrest Hs Hr Ho Hw) as Hm.
    cbn in Hm. by rewrite bool_decide_eq_true_2 in Hm.
Qed.

End Pipeline.

(** ** A concrete setting

    Fields and times are strings, gob is replaced by a codec that stores a
    body and reads one back, a header parses unless it is empty, and a parsed
    header holds a Message-Id only when it starts with the letter I. One
    connection per mailbox. *)
Module Example.

Definition decode (b : bytes) (dst : gmap string string)
    : gmap string string * option error :=
  match b with
  | [] => (dst, Some "EOF")
  | _ => ({["BODY[]" := String.string_of_list_byte b]}, None)
  end.

Definition read_message (header : bytes) : option Message :=
  match header with
  | [] => None
  | Byte.x49 :: _ =>
      Some {| msg_Header := {["Message-Id" := [String.string_of_list_byte header]]} |}
  | _ => Some {| msg_Header := ∅ |}
  end.

#[export] Instance externals : Externals :=
  {| Field := string;
     Time := string;
     AsBytes := fun f => match f with
                         | Some s => String.list_byte_of_string s
                         | None => []
                         end;
     AsDateTime := fun f => default "" f;
     gob_Encode := fun m => Ok (String.list_byte_of_string (default "" (m !! "BODY[]")));
     gob_Decode := decode;
     mail_ReadMessage := read_message;
     MaxImapConns := 1;
     MemcacheServer := "localhost:11211" |}.

Definition src : InboxInfo := {| Host := "src"; User := "u"; Pw := "p" |}.
Definition dst : InboxInfo := {| Host := "dst"; User := "u"; Pw := "p" |}.
Definition conn : Client := {| client_id := 0 |}.
Definition cache : memcache_Client := memcache_New MemcacheServer.
Definition request : fetchRequest :=
  {| MessageId := "<a@x>"; fr_UID := 7%N; Response := 3 |}.
Definition item : Item :=
  {| Key := "<a@x>"; ItemValue := String.list_byte_of_string "cached body" |}.
Definition fresh : imap_Response :=
  {| rsp_MessageInfo :=
       {| Attrs := {["BODY[]" := "live body"; "INTERNALDATE" := "today"]};
          mi_UID := 7%N |};
     SearchResults := [] |}.

(** An environment in which every call returns; [cache.Get], [UIDFetch] and
    [UIDSearch] answer as given, the listing holds [Data]. *)
Definition answers (got : option Item * option error)
    (fetched searched : result (list imap_Response))
    (Data : list imap_Response) (back : gmap string string) : env :=
  {| ext := fun X e t =>
       match e in event X return option X with
       | GetAllMessages _ => Some (Ok Data)
       | GetConnection _ _ => Some (Ok conn)
       | UIDSearch _ _ => Some searched
       | UIDFetch _ _ _ => Some fetched
       | Append _ _ _ _ _ => Some None
       | Close _ _ => Some ()
       | cache_Get _ _ => Some got
       | cache_Add _ _ => Some None
       | log_Printf _ => Some ()
       | make_chan_WorkRequest => Some t
       | make_chan_fetchRequest => Some t
       | make_chan_FieldMap => Some t
       | send_WorkRequest _ _ => Some ()
       | send_fetchRequest _ _ => Some ()
       | send_FieldMap _ _ => Some ()
       | recv_FieldMap _ => Some back
       | close_WorkRequest _ => Some ()
       | close_fetchRequest _ => Some ()
       | wg_Add _ _ => Some ()
       | wg_Done _ => Some ()
       | wg_Wait _ => Some ()
       end;
     inbox_WorkRequest := fun _ => ([], true);
     inbox_fetchRequest := fun _ => ([], true) |}.

Definition cached : gmap string Field := {["BODY[]" := "cached body"]}.

Definition listed (header : string) (uid : N) : imap_Response :=
  {| rsp_MessageInfo :=
       {| Attrs := {["RFC822.HEADER" := header]}; mi_UID := uid |};
     SearchResults := [] |}.
Definition unparsable : imap_Response := listed "" 1.
Definition with_id : imap_Response := listed "I<a@x>" 2.
Definition without_id : imap_Response := listed "Subject: hello" 3.

(** A cache hit on an entry that decodes to a non-empty map, and a live
    fetch that fails. *)
Definition hit_then_failure : env :=
  answers (Some item, None) (Err "connection reset") (Ok []) [] ∅.

(** A plain cache miss. *)
Definition miss : env :=
  answers (None, Some "memcache: cache miss") (Ok [fresh]) (Ok []) [] ∅.

(** A listing of three messages: one that does not parse, one with a
    Message-Id, one without. *)
Definition three_listed : env :=
  answers (None, None) (Ok [fresh]) (Ok [])
    [unparsable; with_id; without_id] ∅.


Lemma cache_hit_fetches_live_witness :
  ext hit_then_failure (cache_Get cache (MessageId request)) 0
    = Some (Some item, None) ∧
  deserialize (ItemValue item) ∅ = (cached, None) ∧
  0 < size cached ∧
  ∃ a rest,
    (exec hit_then_failure (fetchEmails_body conn cache request) 0).1
      = Called (cache_Get cache (MessageId request)) (Some (Some item, None))
        :: Called (UIDFetch conn [fr_UID request] ["INTERNALDATE"; "BODY[]"]) a
        :: rest ∧
    responses (exec hit_then_failure (fetchEmails_body conn cache request) 0).1
      = match a with
        | Some (Ok (rsp :: _)) => [(Response request, Attrs (rsp_MessageInfo rsp))]
        | _ => []
        end.
Proof.
  assert (H1 : ext hit_then_failure (cache_Get cache (MessageId request)) 0
               = Some (Some item, None)) by reflexivity.
  assert (H2 : deserialize (ItemValue item) ∅ = (cached, None)) by reflexivity.
  assert (H3 : 0 < size cached) by (vm_compute; lia).
  repeat split; try assumption.
  exact (@fetchEmails_body_cache_hit_fetches_live externals hit_then_failure
           conn cache request 0 item cached H1 H2 H3).
Defined.

(** The run itself: the cached entry is read, the source is asked all the
    same, the fetch fails, and the response channel stays empty. *)
Lemma cache_hit_run :
  exec hit_then_failure (fetchEmails_body conn cache request) 0
  = ([Called (cache_Get cache "<a@x>") (Some (Some item, None));
      Called (UIDFetch conn [7%N] ["INTERNALDATE"; "BODY[]"])
        (Some (Err "connection reset"));
      Called (log_Printf
                "Unable to fetch message (<a@x>) from src: connection reset")
        (Some ())],
     Returned ()).
Proof. reflexivity. Qed.

Lemma failed_fetch_sends_nothing_witness :
  live_fetches (exec hit_then_failure (fetchEmails_body conn cache request) 0).1
    = [Some (Err "connection reset")] ∧
  (∀ rsp Data, (Err "connection reset" : result (list imap_Response))
               ≠ Ok (rsp :: Data)) ∧
  responses (exec hit_then_failure (fetchEmails_body conn cache request) 0).1
    = [] ∧
  logs (exec hit_then_failure (fetchEmails_body conn cache request) 0).1 ≠ [] ∧
  (exec hit_then_failure (fetchEmails_body conn cache request) 0).2
    ≠ Panicked "invalid memory address or nil pointer dereference".
Proof.
  assert (H1 : live_fetches (exec hit_then_failure
                               (fetchEmails_body conn cache request) 0).1
               = [Some (Err "connection reset")]) by reflexivity.
  assert (H2 : ∀ rsp Data, (Err "connection reset" : result (list imap_Response))
                           ≠ Ok (rsp :: Data)) by (intros ? ?; discriminate).
  split; [exact H1|]. split; [exact H2|].
  exact (@fetchEmails_body_failed_fetch_sends_nothing externals
           hit_then_failure conn cache request 0 _ H1 H2).
Defined.

Lemma cache_error_panics_witness :
  ext miss (cache_Get cache (MessageId request)) 0
    = Some (None, Some "memcache: cache miss") ∧
  exec miss (fetchEmails_body conn cache request) 0
    = ([Called (cache_Get cache (MessageId request))
          (Some (None, Some "memcache: cache miss"))],
       Panicked "invalid memory address or nil pointer dereference").
Proof.
  assert (H1 : ext miss (cache_Get cache (MessageId request)) 0
               = Some (None, Some "memcache: cache miss")) by reflexivity.
  split; [exact H1|].
  exact (@fetchEmails_body_cache_error_panics externals miss conn cache
           request 0 _ H1).
Defined.



Lemma three_listed_run :
  work_sends (exec three_listed (SearchAndStore src [dst; src]) 0).1
  = [(4, {| Value := "I<a@x>"; Header := "Message-Id"; UID := 2 |});
     (7, {| Value := "I<a@x>"; Header := "Message-Id"; UID := 2 |});
     (4, {| Value := ""; Header := "Message-Id"; UID := 3 |});
     (7, {| Value := ""; Header := "Message-Id"; UID := 3 |})].
Proof. reflexivity. Qed.


(** Two messages without a Message-Id ask the destination the same question
    and the fetch worker for the same cache key. *)
Lemma messages_without_id_run :
  searches (exec three_listed
              (checkAndStoreMessages_body conn 1
                 {| Value := ""; Header := "Message-Id"; UID := 3 |}) 0).1
  = searches (exec three_listed
                (checkAndStoreMessages_body conn 1
                   {| Value := ""; Header := "Message-Id"; UID := 9 |}) 0).1 ∧
  cache_gets (exec three_listed
                (fetchEmails_body conn cache
                   {| MessageId := ""; fr_UID := 3; Response := 2 |}) 0).1
  = [""].
Proof. split; reflexivity. Qed.

(** *** All goroutines together

    One connection per mailbox makes one fetch worker, started first, and
    one store worker for the only destination. The listing holds one
    message with a Message-Id that the destination does not have. *)
Definition fetcher : gid := the_worker 0.
Definition storer : gid := the_worker 1.

(** Every call succeeds; the cache has an entry for the message. *)
Definition all_well (X : Type) (e : event X) : X :=
  match e in event X return X with
  | GetAllMessages _ => Ok [with_id]
  | GetConnection _ _ => Ok conn
  | UIDSearch _ _ => Ok [fresh]
  | UIDFetch _ _ _ => Ok [fresh]
  | Append _ _ _ _ _ | cache_Add _ _ => None
  | cache_Get _ _ => (Some item, None)
  | make_chan_WorkRequest | make_chan_fetchRequest | make_chan_FieldMap => 0
  | recv_FieldMap _ => ∅
  | Close _ _ | log_Printf _ | send_WorkRequest _ _ | send_fetchRequest _ _
  | send_FieldMap _ _ | close_WorkRequest _ | close_fetchRequest _
  | wg_Add _ _ | wg_Done _ | wg_Wait _ => ()
  end.

(** The live fetch from the source fails. *)
Definition fetch_fails (X : Type) (e : event X) : X :=
  match e in event X return X with
  | UIDFetch _ _ _ => Err "connection reset"
  | e => all_well e
  end.

(** No connection can be had, neither to the source nor to the
    destination. *)
Definition no_connection (X : Type) (e : event X) : X :=
  match e in event X return X with
  | GetConnection _ _ => Err "connection refused"
  | e => all_well e
  end.

(** The caller lists the source and starts the two workers. *)
Definition set_up : list move := replicate 7 (by_itself the_caller).

(** The workers connect; the work request goes to the store worker, which
    searches the destination and asks the fetch worker for the message. *)
Definition ask_for_message : list move :=
  [by_itself storer; by_itself fetcher;
   hands_over the_caller storer;
   by_itself storer; by_itself storer; by_itself storer;
   hands_over storer fetcher].

(** The fetch worker reads the cache, fetches from the source, responds and
    fills the cache; the store worker appends. *)
Definition deliver : list move :=
  [by_itself fetcher; by_itself fetcher;
   hands_over fetcher storer;
   by_itself fetcher; by_itself storer].

(** The work queue is closed, the store worker leaves, the fetch queue is
    closed, the fetch worker leaves, the caller returns. *)
Definition wind_up : list move :=
  [by_itself the_caller;
   by_itself storer; by_itself storer; by_itself storer; by_itself storer;
   by_itself the_caller; by_itself the_caller;
   by_itself fetcher; by_itself fetcher;
   by_itself the_caller; by_itself the_caller].

Definition complete : gstate :=
  follow all_well (set_up ++ ask_for_message ++ deliver ++ wind_up)
    (initial src [dst]).

(** The fetch worker reads the cache, fails to fetch and logs; the caller
    closes the work queue. *)
Definition stuck : gstate :=
  follow fetch_fails
    (set_up ++ ask_for_message ++ replicate 3 (by_itself fetcher)
     ++ [by_itself the_caller])
    (initial src [dst]).

(** Both workers fail to connect, log and leave. *)
Definition nobody_listens : gstate :=
  follow no_connection
    (set_up ++ replicate 3 (by_itself storer)
     ++ replicate 3 (by_itself fetcher))
    (initial src [dst]).

Lemma shuts_down_in_order_witness :
  reachable src [dst] complete ∧
  (g_closed_WorkRequest complete ≠ [] →
   work_sends (entries complete)
   = deliveries (concat (listings (entries complete)))
       (work_chans (entries complete))) ∧
  (g_closed_fetchRequest complete ≠ [] →
   hired_by (g_pool complete) = crew [dst] ∧
   ∀ i dst p, g_pool complete !! i = Some (go_checkAndStoreMessages dst, p) →
              p = Ret ()).
Proof.
  split; [apply follow_reachable|].
  apply (@SearchAndStore_shuts_down_in_order externals [dst] src complete).
  apply follow_reachable.
Defined.

(** The run itself: the message is delivered and appended, both queues are
    closed, both workers and the caller have returned. *)
Lemma complete_run :
  g_main complete = Ret None ∧
  (g_pool complete).*2 = [Ret (); Ret ()] ∧
  hired_by (g_pool complete) = [dst] ∧
  g_closed_WorkRequest complete = [1] ∧
  g_closed_fetchRequest complete = [0] ∧
  listings (entries complete) = [[with_id]] ∧
  work_sends (entries complete)
  = [(1, {| Value := "I<a@x>"; Header := "Message-Id"; UID := 2 |})] ∧
  appends (entries complete)
  = [(conn, "INBOX", ["UnSeen"], "today",
      String.list_byte_of_string "live body")] ∧
  logs (entries complete)
  = ["checking and storing (I<a@x>)"; "storer complete!";
     "search and store processes complete"].
Proof.
  split_and!;
    lazymatch goal with |- _ = ?v => vm_cast_no_check (eq_refl v) end.
Qed.

(** X2. [SearchAndStore] can wait for ever after a listing that succeeded.
    When the live fetch of a message fails, the fetch worker logs and goes
    back to its queue without a response: the store worker waits for the
    response, the caller waits in [storers.Wait()], and nothing can move.
    When no connection can be had, both workers log and leave, and the
    caller waits with the first work request in its hands. In both runs
    the work request was built from the listing and [SearchAndStore] has
    not returned. *)
Theorem later_failures_block_SearchAndStore :
  (reachable src [dst] stuck ∧
   work_sends (entries stuck)
   = [(1, {| Value := "I<a@x>"; Header := "Message-Id"; UID := 2 |})] ∧
   logs (entries stuck)
   = ["checking and storing (I<a@x>)";
      "Unable to fetch message (I<a@x>) from src: connection reset"] ∧
   all_waits stuck
   = Some [counter storers; fetch_wanted 0; response_wanted 2] ∧
   ∀ st', ¬ gstep stuck st') ∧
  (reachable src [dst] nobody_listens ∧
   work_sends (entries nobody_listens) = [] ∧
   logs (entries nobody_listens)
   = ["Unable to connect to destination: connection refused";
      "Unable to connect to source inbox: connection refused"] ∧
   all_waits nobody_listens = Some [work_offered 1; over; over] ∧
   ∀ st', ¬ gstep nobody_listens st').
Proof.
  split.
  - split; [apply follow_reachable|].
    split_and!;
      try lazymatch goal with |- _ = ?v => vm_cast_no_check (eq_refl v) end.
    intros st'. apply at_rest_no_step. vm_cast_no_check (eq_refl true).
  - split; [apply follow_reachable|].
    split_and!;
      try lazymatch goal with |- _ = ?v => vm_cast_no_check (eq_refl v) end.
    intros st'. apply at_rest_no_step. vm_cast_no_check (eq_refl true).
Qed.

(** *** The workers with something in their queues *)

Definition wanted : WorkRequest :=
  {| Value := "I<a@x>"; Header := "Message-Id"; UID := 2 |}.

(** [E] with the work request [wanted] on every work queue and [request]
    on every fetch queue, each queue closed afterwards. *)
Definition queued (E : env) : env :=
  {| ext := ext E;
     inbox_WorkRequest := fun _ => ([wanted], true);
     inbox_fetchRequest := fun _ => ([request], true) |}.

(** The destination does not have the message; every call returns. *)
Definition absent : env :=
  answers (None, None) (Ok [fresh]) (Ok [fresh]) [] cached.

Lemma panics_only_on_empty_search_witness :
  (exec (queued three_listed) (checkAndStoreMessages dst 1 0 storers) 0).2
    = Panicked "index out of range" ∧
  ("index out of range" = "index out of range" ∧
   ∃ spec, (spec, Some (Ok []))
           ∈ searches (exec (queued three_listed)
                         (checkAndStoreMessages dst 1 0 storers) 0).1).
Proof.
  assert (H : (exec (queued three_listed)
                 (checkAndStoreMessages dst 1 0 storers) 0).2
              = Panicked "index out of range") by reflexivity.
  split; [exact H|].
  exact (@checkAndStoreMessages_panics_only_on_empty_search externals
           (queued three_listed) dst 1 0 storers 0 _ H).
Defined.

(** The run itself: the panic comes after the search, and the connection
    is closed and [wg.Done()] called all the same. *)
Lemma empty_search_run :
  exec (queued three_listed) (checkAndStoreMessages dst 1 0 storers) 0
  = ([Called (GetConnection dst false) (Some (Ok conn));
      Got_WorkRequest 1 wanted;
      Called (log_Printf "checking and storing (I<a@x>)") (Some ());
      Called (UIDSearch conn ["HEADER"; "Message-Id"; "I<a@x>"])
        (Some (Ok []));
      Called (Close conn true) (Some ());
      Called (wg_Done storers) (Some ())],
     Panicked "index out of range").
Proof. reflexivity. Qed.

Lemma panics_only_on_cache_error_witness :
  (exec (queued miss) (fetchEmails src 0 fetchers) 0).2
    = Panicked "invalid memory address or nil pointer dereference" ∧
  ("invalid memory address or nil pointer dereference"
   = "invalid memory address or nil pointer dereference" ∧
   ∃ key err,
     Called (cache_Get (memcache_New MemcacheServer) key)
       (Some (None, Some err))
     ∈ (exec (queued miss) (fetchEmails src 0 fetchers) 0).1).
Proof.
  assert (H : (exec (queued miss) (fetchEmails src 0 fetchers) 0).2
              = Panicked "invalid memory address or nil pointer dereference")
    by reflexivity.
  split; [exact H|].
  exact (@fetchEmails_panics_only_on_cache_error externals (queued miss) src 0
           fetchers 0 _ H).
Defined.

Lemma fetch_requests_witness :
  (0, {| MessageId := "I<a@x>"; fr_UID := 2; Response := 4 |})
    ∈ fetch_requests
        (exec (queued absent) (checkAndStoreMessages dst 1 0 storers) 0).1 ∧
  (0 = 0 ∧
   ∃ w rsp Data,
     Got_WorkRequest 1 w
       ∈ (exec (queued absent) (checkAndStoreMessages dst 1 0 storers) 0).1 ∧
     "I<a@x>" = Value w ∧ 2%N = UID w ∧
     Called make_chan_FieldMap (Some 4)
       ∈ (exec (queued absent) (checkAndStoreMessages dst 1 0 storers) 0).1 ∧
     (["HEADER"; Header w; Value w], Some (Ok (rsp :: Data)))
       ∈ searches (exec (queued absent)
                     (checkAndStoreMessages dst 1 0 storers) 0).1 ∧
     SearchResults rsp = []).
Proof.
  assert (H : (0, {| MessageId := "I<a@x>"; fr_UID := 2; Response := 4 |})
                ∈ fetch_requests
                    (exec (queued absent)
                       (checkAndStoreMessages dst 1 0 storers) 0).1)
    by (cbn; apply list_elem_of_here).
  split; [exact H|].
  exact (@checkAndStoreMessages_fetch_requests externals (queued absent) dst
           1 0 storers 0 _ _ H).
Defined.

Lemma caches_what_it_sent_witness :
  (cache, {| Key := "<a@x>";
             ItemValue := String.list_byte_of_string "live body" |})
    ∈ cache_stores (exec (queued absent) (fetchEmails src 0 fetchers) 0).1 ∧
  (cache = memcache_New MemcacheServer ∧
   ∃ r c rsp Data,
     Got_fetchRequest 0 r
       ∈ (exec (queued absent) (fetchEmails src 0 fetchers) 0).1 ∧
     "<a@x>" = MessageId r ∧
     serialize (Attrs (rsp_MessageInfo rsp))
       = Ok (String.list_byte_of_string "live body") ∧
     (Response r, Attrs (rsp_MessageInfo rsp))
       ∈ responses (exec (queued absent) (fetchEmails src 0 fetchers) 0).1 ∧
     Called (UIDFetch c [fr_UID r] ["INTERNALDATE"; "BODY[]"])
       (Some (Ok (rsp :: Data)))
       ∈ (exec (queued absent) (fetchEmails src 0 fetchers) 0).1).
Proof.
  assert (H : (cache, {| Key := "<a@x>";
                         ItemValue := String.list_byte_of_string "live body" |})
                ∈ cache_stores
                    (exec (queued absent) (fetchEmails src 0 fetchers) 0).1)
    by (vm_compute; apply list_elem_of_here).
  split; [exact H|].
  exact (@fetchEmails_caches_what_it_sent externals (queued absent) src 0
           fetchers 0 _ _ H).
Defined.

Lemma responses_witness :
  (3, Attrs (rsp_MessageInfo fresh))
    ∈ responses (exec (queued absent) (fetchEmails src 0 fetchers) 0).1 ∧
  ∃ r,
    Got_fetchRequest 0 r
      ∈ (exec (queued absent) (fetchEmails src 0 fetchers) 0).1 ∧
    3 = Response r ∧
    ((∃ c rsp Data,
        Called (UIDFetch c [fr_UID r] ["INTERNALDATE"; "BODY[]"])
          (Some (Ok (rsp :: Data)))
        ∈ (exec (queued absent) (fetchEmails src 0 fetchers) 0).1 ∧
        Attrs (rsp_MessageInfo fresh) = Attrs (rsp_MessageInfo rsp)) ∨
     (∃ item err,
        Called (cache_Get (memcache_New MemcacheServer) (MessageId r))
          (Some (Some item, Some err))
        ∈ (exec (queued absent) (fetchEmails src 0 fetchers) 0).1 ∧
        deserialize (ItemValue item) ∅
          = (Attrs (rsp_MessageInfo fresh), None) ∧
        0 < size (Attrs (rsp_MessageInfo fresh)))).
Proof.
  assert (H : (3, Attrs (rsp_MessageInfo fresh))
                ∈ responses
                    (exec (queued absent) (fetchEmails src 0 fetchers) 0).1)
    by (cbn; apply list_elem_of_here).
  split; [exact H|].
  exact (@fetchEmails_responses externals (queued absent) src 0 fetchers 0
           _ _ H).
Defined.

(** The search of the destination comes back without data. *)
Definition search_empty (X : Type) (e : event X) : X :=
  match e in event X return X with
  | UIDSearch _ _ => Ok []
  | e => all_well e
  end.

(** The workers connect; the store worker takes the work request, searches,
    finds no data to index, closes its connection, calls [wg.Done] and
    panics. *)
Definition crashed : gstate :=
  follow search_empty
    (set_up
     ++ [by_itself storer; by_itself fetcher; hands_over the_caller storer]
     ++ replicate 4 (by_itself storer))
    (initial src [dst]).

Lemma leaves_no_worker_witness :
  reachable src [dst] complete ∧ g_main complete = Ret None ∧
  (g_pool complete).*1 = staff [dst] ∧
  Forall (fun np => np.2 = Ret ()) (g_pool complete) ∧
  ∀ wg, g_wg complete wg = 0.
Proof.
  assert (Hret : g_main complete = Ret None)
    by vm_cast_no_check (eq_refl (@Ret externals (option error) None)).
  assert (Hrun : reachable src [dst] complete) by apply follow_reachable.
  split; [exact Hrun|]. split; [exact Hret|].
  apply (@SearchAndStore_leaves_no_worker externals [dst] src complete None
           Hrun Hret).
Defined.

Lemma keeps_to_the_runtime_rules_witness :
  reachable src [dst] crashed ∧
  (∀ m, g_main crashed ≠ Panic m) ∧
  ∀ i name m, g_pool crashed !! i = Some (name, Panic m) →
    m = panic_of name ∧
    m ≠ "sync: negative WaitGroup counter" ∧
    m ≠ "close of closed channel" ∧
    m ≠ "send on closed channel".
Proof.
  split; [apply follow_reachable|].
  apply (@SearchAndStore_keeps_to_the_runtime_rules externals [dst] src
           crashed).
  apply follow_reachable.
Defined.

(** The run itself: the store worker has panicked after its [wg.Done], the
    counter of the store workers is back at zero, and the caller still
    holds the work queue open. *)
Lemma crashed_run :
  g_pool crashed !! 1
  = Some (go_checkAndStoreMessages dst, Panic "index out of range") ∧
  g_wg crashed storers = 0 ∧ g_wg crashed fetchers = 1 ∧
  g_closed_WorkRequest crashed = [] ∧
  ∀ st', ¬ gstep crashed st'.
Proof.
  assert (Hp : g_pool crashed !! 1
               = Some (go_checkAndStoreMessages dst,
                       Panic "index out of range"))
    by (lazymatch goal with |- _ = ?v => vm_cast_no_check (eq_refl v) end).
  split_and!;
    try lazymatch goal with |- _ = ?v => vm_cast_no_check (eq_refl v) end.
  intros st' Hstep. assert (Hal : alive crashed) by (by destruct Hstep).
  destruct Hal as [_ Hal].
  by pose proof (proj1 (Forall_lookup _ _) Hal 1 _ Hp).
Qed.

Lemma delivers_in_order_witness :
  reachable src [dst] complete ∧
  (work_sends (entries complete)
   `prefix_of` deliveries (concat (listings (entries complete)))
                 (work_chans (entries complete)) ∧
   NoDup (work_chans (entries complete)) ∧
   ∀ q, q ∈ work_chans (entries complete) →
        (filter (fun x => x.1 = q) (work_sends (entries complete))).*2
        `prefix_of` work_items (concat (listings (entries complete)))).
Proof.
  split; [apply follow_reachable|].
  apply (@SearchAndStore_delivers_in_order externals [dst] src complete).
  apply follow_reachable.
Defined.

End Example.
